(** * FinTagging: the extraction, linking and evaluation pipeline

    A shallow embedding of the pipeline code of the FinTagging backend:
    - the extraction controller, [controllers/finniController.js] (in
      the sources as [unnamed/part_008]): the rule-based extractor, the
      oracle extraction with its retries, [processFinNI];
    - the linking controller, [controllers/finclController.js] (in the
      sources after the authentication controller, in
      [backend/controllers/authController.js]): the batched concept
      linking with its retries, the keyword fallbacks, [processFinCL];
    - [backend/utils/datasets/datasetLoader.js]: the matching rule and
      the metrics of the two evaluations;
    - the store, [config/localStorage.js] (in the sources as
      [unnamed/part_007]), and the handlers that read and write it: the
      two controllers above, the status route [backend/routes/status.js]
      and [backend/controllers/uploadController.js].

    JavaScript strings are sequences of UTF-16 code units, JavaScript
    numbers are IEEE-754 binary64 values (the [spec_float] of the
    standard library at precision 53 and exponent bound 1024),
    exceptions are explicit sums, and the external oracle is a function
    from the number of a call and its prompt to what the call
    produced.  [JSON.parse], [toLowerCase], [Number.prototype.toString]
    and the prompt templates are parameters of the sections that use
    them. *)

From Stdlib Require Import ZArith NArith List Bool Lia String Ascii.
From Stdlib Require Import DecimalString DecimalPos DecimalN.
From Stdlib Require Import Floats.SpecFloat.
From stdpp Require Import gmap.
Import ListNotations.

Set Default Proof Using "Type".
Local Open Scope Z_scope.

(* ================================================================= *)
(** ** JavaScript values *)

Module JS.

(** A string is a list of UTF-16 code units. *)
Definition jsstring := list N.

(** An ASCII literal of the source, as code units. *)
Definition js (s : string) : jsstring :=
  List.map N_of_ascii (list_ascii_of_string s).

Fixpoint str_eqb (a b : jsstring) : bool :=
  match a, b with
  | [], [] => true
  | x :: a', y :: b' => N.eqb x y && str_eqb a' b'
  | _, _ => false
  end.

(** [s.startsWith(p)] *)
Fixpoint startsWith (s p : jsstring) : bool :=
  match p, s with
  | [], _ => true
  | y :: p', x :: s' => N.eqb x y && startsWith s' p'
  | _ :: _, [] => false
  end.

(** [s.includes(p)] *)
Fixpoint includes (s p : jsstring) : bool :=
  startsWith s p ||
  match s with
  | [] => false
  | _ :: s' => includes s' p
  end.

(** [s.endsWith(p)] *)
Definition endsWith (s p : jsstring) : bool :=
  startsWith (rev s) (rev p).

(** [s.substring(a, b)] for [0 <= a <= b]. *)
Definition substring (s : jsstring) (a b : nat) : jsstring :=
  firstn (b - a) (skipn a s).

(** [a.slice(i, j)] on an array, for [0 <= i <= j]. *)
Definition slice {A} (a : list A) (i j : nat) : list A :=
  firstn (j - i) (skipn i a).

(** WhiteSpace and LineTerminator code units: what [\s] matches and
    what [trim] removes. *)
Definition isSpace (c : N) : bool :=
  match c with
  | 9 | 10 | 11 | 12 | 13 | 32 | 160 | 5760
  | 8192 | 8193 | 8194 | 8195 | 8196 | 8197 | 8198 | 8199 | 8200
  | 8201 | 8202 | 8232 | 8233 | 8239 | 8287 | 12288 | 65279 => true
  | _ => false
  end%N.

Fixpoint trimStart (s : jsstring) : jsstring :=
  match s with
  | c :: s' => if isSpace c then trimStart s' else s
  | [] => []
  end.

Definition trimEnd (s : jsstring) : jsstring := rev (trimStart (rev s)).

(** [s.trim()] *)
Definition trim (s : jsstring) : jsstring := trimEnd (trimStart s).

(** [s.replace(/,/g, '')] *)
Definition stripCommas (s : jsstring) : jsstring :=
  List.filter (fun c => negb (N.eqb c 44)) s.

(** [s.replace(/\s+/g, ' ')]: every maximal run of white space
    becomes one space ([inRun] says the previous unit was white). *)
Fixpoint collapseFrom (inRun : bool) (s : jsstring) : jsstring :=
  match s with
  | [] => []
  | c :: s' =>
      if isSpace c
      then (if inRun then collapseFrom true s'
            else 32%N :: collapseFrom true s')
      else c :: collapseFrom false s'
  end.

Definition collapseSpaces (s : jsstring) : jsstring := collapseFrom false s.

(** [s.toLowerCase()] for a string whose upper-case letters are all
    ASCII: those letters are lowered, every other unit is kept. *)
Definition asciiLower (s : jsstring) : jsstring :=
  List.map (fun c => if (N.leb 65 c && N.leb c 90)%N then (c + 32)%N else c) s.

(** [a || b] on strings: the empty string is falsy. *)
Definition orStr (a b : jsstring) : jsstring :=
  match a with [] => b | _ => a end.

(** *** Numbers: IEEE-754 binary64 *)

Definition number := spec_float.

Definition prec : Z := 53.
Definition emax : Z := 1024.

Definition zero : number := S754_zero false.
Definition NaN : number := S754_nan.

(** An integer as a number (exact below [2^53]). *)
Definition ofZ (z : Z) : number := binary_normalize prec emax z 0 false.
Definition ofNat (n : nat) : number := ofZ (Z.of_nat n).

Definition add : number -> number -> number := SFadd prec emax.
Definition sub : number -> number -> number := SFsub prec emax.
Definition mul : number -> number -> number := SFmul prec emax.
Definition div : number -> number -> number := SFdiv prec emax.
Definition abs : number -> number := SFabs.
Definition ltb : number -> number -> bool := SFltb.
Definition eqb : number -> number -> bool := SFeqb.

(** The decimal literal [m / 10^k] of the source, correctly rounded
    (both [m] and [10^k] are below [2^53] at every use). *)
Definition dec (m : Z) (k : nat) : number :=
  div (ofZ m) (ofZ (10 ^ Z.of_nat k)).

(** ToBoolean on numbers: [0], [-0] and [NaN] are falsy. *)
Definition truthy (x : number) : bool :=
  match x with
  | S754_zero _ | S754_nan => false
  | _ => true
  end.

(** [Number.isFinite(x)] *)
Definition isFinite (x : number) : bool :=
  match x with
  | S754_zero _ | S754_finite _ _ _ => true
  | _ => false
  end.

(** The least exponent of a binary64 value. *)
Definition emin : Z := SpecFloat.emin prec emax.


(** What rounding produces: a value of the sign asked for, with an
    exponent at least [emin] when it is finite. *)
Inductive signed (s : bool) : number → Prop :=
| signed_zero : signed s (S754_zero s)
| signed_infinity : signed s (S754_infinity s)
| signed_nan : signed s S754_nan
| signed_finite m e : emin <= e → signed s (S754_finite s m e).

(** A positive value: finite with an exponent at least [emin], or
    infinite. *)
Inductive positive_number : number → Prop :=
| positive_finite m e : emin <= e → positive_number (S754_finite false m e)
| positive_infinity : positive_number (S754_infinity false).

(** A number that is [+0] or positive. *)
Definition nonneg (x : number) : Prop := x = zero ∨ positive_number x.

(** [x || y] on numbers. *)
Definition orNum (x y : number) : number := if truthy x then x else y.

(** *** Exceptions *)

(** A thrown [Error], with its message. *)
Inductive Error := Err (message : jsstring).

(** What a block of code that may throw produces. *)
Inductive result (A : Type) :=
| Ok (a : A)
| Throw (e : Error).
Arguments Ok {A} a.
Arguments Throw {A} e.

Definition bind {A B} (r : result A) (f : A -> result B) : result B :=
  match r with
  | Ok a => f a
  | Throw e => Throw e
  end.

(** [try { body } catch (e) { handler }] *)
Definition tryCatch {A} (body : result A) (handler : Error -> result A)
    : result A :=
  match body with
  | Ok a => Ok a
  | Throw e => handler e
  end.

Notation "'let*' x ':=' c1 'in' c2" := (bind c1 (fun x => c2))
  (at level 10, x name, c1 at level 100, c2 at level 200).

End JS.

(* ================================================================= *)
(** ** Regular expressions

  The backtracking matcher of the regular expressions the extractor
  uses: alternatives are tried left to right, repetition is greedy,
  and an iteration of a starred expression that consumes nothing is
  rejected.  The expressions below carry at most one capturing
  group. *)

Module Regex.
Import JS.

Inductive regex :=
| Empty
| Class (p : N -> bool)
| Cat (r s : regex)
| Or (r s : regex)
| Star (r : regex)
| Group (r : regex)
| WordBoundary
| AtStart
| AtEnd.

(** Where the matcher stands: the unit before the position, the
    units from the position on, the index of the position, and the
    span the capturing group matched last. *)
Record mstate := MState {
  before : option N;
  rest : jsstring;
  pos : nat;
  cap : option (nat * nat)
}.

Definition isDigit (c : N) : bool := (N.leb 48 c && N.leb c 57)%N.

Definition isWordChar (c : N) : bool :=
  ((N.leb 48 c && N.leb c 57) || (N.leb 65 c && N.leb c 90)
   || (N.leb 97 c && N.leb c 122) || N.eqb c 95)%N.

Definition isWordOpt (o : option N) : bool :=
  match o with Some c => isWordChar c | None => false end.

Fixpoint starLoop (step : (mstate -> option mstate) -> mstate -> option mstate)
    (k : mstate -> option mstate) (fuel : nat) (s : mstate) : option mstate :=
  match fuel with
  | O => k s
  | S fuel' =>
      match step (fun s' => if Nat.eqb (pos s') (pos s) then None
                            else starLoop step k fuel' s') s with
      | Some out => Some out
      | None => k s
      end
  end.

(** [run r k s]: match [r] at [s], then continue with [k]; [None]
    makes the matcher backtrack. *)
Fixpoint run (r : regex) (k : mstate -> option mstate) (s : mstate)
    : option mstate :=
  match r with
  | Empty => k s
  | Class p =>
      match rest s with
      | c :: t =>
          if p c then k (MState (Some c) t (S (pos s)) (cap s)) else None
      | [] => None
      end
  | Cat a b => run a (run b k) s
  | Or a b =>
      match run a k s with
      | Some out => Some out
      | None => run b k s
      end
  | Star a => starLoop (run a) k (S (length (rest s))) s
  | Group a =>
      run a (fun s' => k (MState (before s') (rest s') (pos s')
                                 (Some (pos s, pos s')))) s
  | WordBoundary =>
      if xorb (isWordOpt (before s)) (isWordOpt (head (rest s)))
      then k s else None
  | AtStart => if Nat.eqb (pos s) 0 then k s else None
  | AtEnd => match rest s with [] => k s | _ :: _ => None end
  end.

Definition Opt (r : regex) : regex := Or r Empty.
Definition Plus (r : regex) : regex := Cat r (Star r).
Definition chr (c : N) : regex := Class (N.eqb c).

(** A letter of a pattern under the [i] flag: the ASCII letter in
    either case (no code unit outside ASCII canonicalizes to an ASCII
    letter when the [u] flag is absent). *)
Definition ciUnit (c x : N) : bool :=
  (N.eqb x c
   || (N.leb 65 c && N.leb c 90 && N.eqb x (c + 32))
   || (N.leb 97 c && N.leb c 122 && N.eqb x (c - 32)))%N.

Fixpoint lit (s : jsstring) : regex :=
  match s with
  | [] => Empty
  | c :: s' => Cat (chr c) (lit s')
  end.

Fixpoint litCI (s : jsstring) : regex :=
  match s with
  | [] => Empty
  | c :: s' => Cat (Class (ciUnit c)) (litCI s')
  end.

(** A match: [index], the end of the match (the next [lastIndex]),
    and the span of the group. *)
Record rmatch := RMatch {
  index : nat;
  stop : mstate
}.

(** The leftmost match starting at or after the position of the
    state: what [exec] finds from [lastIndex]. *)
Fixpoint searchFrom (r : regex) (b : option N) (t : jsstring) (p : nat)
    : option rmatch :=
  match run r Some (MState b t p None) with
  | Some out => Some (RMatch p out)
  | None =>
      match t with
      | [] => None
      | c :: t' => searchFrom r (Some c) t' (S p)
      end
  end.

(** [r.exec(s)] of a fresh expression, [r.test(s)] and [s.match(r)]
    without the [g] flag. *)
Definition exec (r : regex) (s : jsstring) : option rmatch :=
  searchFrom r None s 0.

Definition test (r : regex) (s : jsstring) : bool :=
  match exec r s with Some _ => true | None => false end.

(** The [while ((m = r.exec(s)) !== null)] loop of an expression with
    the [g] flag: every match, each search resuming where the match
    before it ended.  The expressions used below match at least one
    unit, so a string of [n] units has at most [n] matches. *)
Fixpoint execLoop (fuel : nat) (r : regex) (b : option N) (t : jsstring)
    (p : nat) : list rmatch :=
  match fuel with
  | O => []
  | S fuel' =>
      match searchFrom r b t p with
      | None => []
      | Some m =>
          m :: execLoop fuel' r (before (stop m)) (rest (stop m))
                 (pos (stop m))
      end
  end.

Definition execAll (r : regex) (s : jsstring) : list rmatch :=
  execLoop (S (length s)) r None s 0.

(** [s.replace(r, '')] without the [g] flag: the leftmost match is
    removed. *)
Definition removeFirst (r : regex) (s : jsstring) : jsstring :=
  match exec r s with
  | Some m => firstn (index m) s ++ rest (stop m)
  | None => s
  end.

(** [s.replace(r, '')] with the [g] flag, for an expression that
    matches at least one unit: every match is removed, each search
    resuming where the match before it ended. *)
Fixpoint removeLoop (fuel : nat) (r : regex) (b : option N) (t : jsstring)
    (p : nat) : jsstring :=
  match fuel with
  | O => t
  | S fuel' =>
      match run r Some (MState b t p None) with
      | Some out =>
          if Nat.eqb (pos out) p
          then match t with
               | [] => []
               | c :: t' => c :: removeLoop fuel' r (Some c) t' (S p)
               end
          else removeLoop fuel' r (before out) (rest out) (pos out)
      | None =>
          match t with
          | [] => []
          | c :: t' => c :: removeLoop fuel' r (Some c) t' (S p)
          end
      end
  end.

Definition removeAll (r : regex) (s : jsstring) : jsstring :=
  removeLoop (S (length s)) r None s 0.

(** [s'] is a position of the same input at or after [s]. *)
Definition ahead (s s' : mstate) : Prop :=
  (pos s' + length (rest s') = pos s + length (rest s))%nat
  ∧ (pos s ≤ pos s')%nat.

(** Expressions that cannot match the empty string. *)
Fixpoint consumes (r : regex) : bool :=
  match r with
  | Class _ => true
  | Cat a b => consumes a || consumes b
  | Or a b => consumes a && consumes b
  | Group a => consumes a
  | _ => false
  end.

(** [m[0]] and [m[1]] of a match in [s]. *)
Definition matched (s : jsstring) (m : rmatch) : jsstring :=
  substring s (index m) (pos (stop m)).

Definition group1 (s : jsstring) (m : rmatch) : option jsstring :=
  match cap (stop m) with
  | Some (a, b) => Some (substring s a b)
  | None => None
  end.

End Regex.

(* ================================================================= *)
(** ** The entity record *)

(** An entity as the extractor builds it and as the later stages read
  it; [None] is JavaScript's [null] (or a field the oracle left
  out). *)
Record Entity := mkEntity {
  value : JS.jsstring;
  type : JS.jsstring;
  description : option JS.jsstring;
  unit : option JS.jsstring;
  period : option JS.jsstring;
  confidence : JS.number
}.

(** [process.env]: the two variables the extractor reads ([None] when
    a variable is not set). *)
Record Env := mkEnv {
  GEMINI_API_KEY : option JS.jsstring;
  USE_LOCAL_EXTRACTION : option JS.jsstring
}.

(** [process.env.GEMINI_API_KEY] as a condition. *)
Definition hasKey (env : Env) : bool :=
  match GEMINI_API_KEY env with
  | Some (_ :: _) => true
  | _ => false
  end.

(** *** Records written to the result store *)

Module Metrics.
Record t := mk {
  precision : JS.number;
  recall : JS.number;
  f1Score : JS.number;
  accuracy : JS.number
}.
End Metrics.

Module XbrlTag.
Record t := mk {
  concept : JS.jsstring;
  taxonomy : JS.jsstring;
  confidence : JS.number
}.
End XbrlTag.

(** [{ pageNum, coordinates }] *)
Record Location := mkLocation {
  pageNum : Z;
  coordinates : option (list JS.number)
}.

(** An element of [results.predictions]; the extraction stage leaves
    [xbrlTag] and [mappingExplanation] out ([None]). *)
Module Prediction.
Record t := mk {
  value : JS.jsstring;
  entityType : JS.jsstring;
  confidence : JS.number;
  location : Location;
  xbrlTag : option XbrlTag.t;
  mappingExplanation : option JS.jsstring
}.
End Prediction.

(** [resultData], the argument of [localStorage.saveResult]. *)
Module ResultData.
Record t := mk {
  reportId : JS.jsstring;
  modelName : JS.jsstring;
  taskType : JS.jsstring;
  predictions : list Prediction.t;
  metrics : Metrics.t;
  processingTime : JS.number
}.
End ResultData.

(* ================================================================= *)
(** ** Extraction: [controllers/finniController.js] *)

Module Extraction.
Import JS Regex.

(** *** The local rule-based extractor *)

(** [[0-9]{1,3}(?:,[0-9]{3})*(?:\.[0-9]+)?] *)
Definition digit : regex := Class isDigit.

Definition grouped : regex :=
  Cat (Cat digit (Opt (Cat digit (Opt digit))))
    (Cat (Star (Cat (chr 44) (Cat digit (Cat digit digit))))
         (Opt (Cat (chr 46) (Plus digit)))).

(** [[0-9]+(?:\.[0-9]+)?] *)
Definition plain : regex :=
  Cat (Plus digit) (Opt (Cat (chr 46) (Plus digit))).

Definition isCurrencySign (c : N) : bool :=
  (N.eqb c 36 || N.eqb c 8364 || N.eqb c 163)%N.

Definition word (s : string) : regex :=
  Cat WordBoundary (Cat (litCI (js s)) WordBoundary).

Definition space : regex := Class isSpace.

(** [/(?:\bUSD\b|\bEUR\b|\bGBP\b|[$€£])\s?(grouped|plain)/gi] *)
Definition moneyRegex : regex :=
  Cat (Or (word "USD") (Or (word "EUR") (Or (word "GBP")
                                           (Class isCurrencySign))))
    (Cat (Opt space) (Group (Or grouped plain))).

(** [/(grouped)\s?%/g] *)
Definition pctRegex : regex :=
  Cat (Group grouped) (Cat (Opt space) (chr 37)).

(** [/\b(grouped)\b/g] *)
Definition numRegex : regex :=
  Cat WordBoundary (Cat (Group grouped) WordBoundary).

(** [/USD|EUR|GBP/i] and [/[$€£]/] *)
Definition codeRegex : regex :=
  Or (litCI (js "USD")) (Or (litCI (js "EUR")) (litCI (js "GBP"))).
Definition signRegex : regex := Class isCurrencySign.

(** [/share|shares|issued|outstanding/i] *)
Definition sharesRegex : regex :=
  Or (litCI (js "share")) (Or (litCI (js "shares"))
    (Or (litCI (js "issued")) (litCI (js "outstanding")))).

(** [/year|fy|q[1-4]|quarter|as of/i] *)
Definition dateRegex : regex :=
  Or (litCI (js "year")) (Or (litCI (js "fy"))
    (Or (Cat (Class (ciUnit 113))
             (Class (fun c => (N.leb 49 c && N.leb c 52)%N)))
      (Or (litCI (js "quarter")) (litCI (js "as of"))))).

Definition c08 : number := dec 8 1.
Definition c06 : number := dec 6 1.
Definition c09 : number := dec 9 1.

(** [/USD|EUR|GBP|[$€£]/i] *)
Definition currencyRegex : regex := Or codeRegex signRegex.

(** [raw.match(/USD|EUR|GBP|[$€£]/i)
      ? (raw.match(/USD|EUR|GBP/i) || raw.match(/[$€£]/))[0] : null] *)
Definition currencyOf (raw : jsstring) : option jsstring :=
  if test currencyRegex raw then
    match exec codeRegex raw with
    | Some m => Some (matched raw m)
    | None => option_map (matched raw) (exec signRegex raw)
    end
  else None.

Definition moneyEntity (inputText : jsstring) (m : rmatch) : Entity :=
  let raw := matched inputText m in
  let val := stripCommas
               (match group1 inputText m with
                | Some g => orStr g raw
                | None => raw
                end) in
  let unit := currencyOf raw in
  {| value := val;
     type := js "monetary";
     description := Some (js "Found monetary value: " ++ raw);
     unit := Some (match unit with
                   | Some u => orStr u (js "unknown")
                   | None => js "unknown"
                   end);
     period := None;
     confidence := c08 |}.

Definition pctEntity (inputText : jsstring) (m : rmatch) : Entity :=
  let raw := matched inputText m in
  let val := stripCommas (default [] (group1 inputText m)) in
  {| value := val;
     type := js "percentage";
     description := Some (js "Found percentage: " ++ raw);
     unit := Some (js "%");
     period := None;
     confidence := c08 |}.

Definition numEntity (inputText : jsstring) (m : rmatch) : Entity :=
  let raw := matched inputText m in
  let val := stripCommas raw in
  let contextStart := Nat.max 0 (index m - 40) in
  let context :=
    substring inputText contextStart
      (Nat.min (length inputText) (index m + 40)) in
  let '(type, unit) :=
    if test sharesRegex context then (js "shares", Some (js "shares"))
    else if test dateRegex context then (js "date", None)
    else (js "count", None) in
  {| value := val;
     type := type;
     description := Some (js "Context: " ++ trim (collapseSpaces context));
     unit := unit;
     period := None;
     confidence := c06 |}.

(** The three passes, in the order of the source. *)
Definition candidates (inputText : jsstring) : list Entity :=
  List.map (moneyEntity inputText) (execAll moneyRegex inputText)
  ++ List.map (pctEntity inputText) (execAll pctRegex inputText)
  ++ List.map (numEntity inputText) (execAll numRegex inputText).

(** The bar [|] of the key separator. *)
Definition bar : N := 124%N.

(** [`${e.value}||${e.type}`] *)
Definition key (e : Entity) : jsstring :=
  value e ++ js "||" ++ type e.

(** The deduplication loop over [entities], with the [Set] [seen]. *)
Fixpoint dedupLoop (seen : gset jsstring) (entities : list Entity)
    : list Entity :=
  match entities with
  | [] => []
  | e :: es =>
      if decide (key e ∈ seen) then dedupLoop seen es
      else e :: dedupLoop ({[ key e ]} ∪ seen) es
  end.

Definition dedup (entities : list Entity) : list Entity :=
  dedupLoop ∅ entities.

Definition ruleBasedNumericExtraction (inputText : jsstring) : list Entity :=
  dedup (candidates inputText).

(** *** The oracle path *)

(** The [entities] array of an oracle response, as [JSON.parse]
    builds it. *)
Module Raw.

(** A JSON value; an object is the list of its own properties. *)
#[warnings="-register-all"] Inductive json :=
| JNull
| JBool (b : bool)
| JNumber (x : number)
| JString (s : jsstring)
| JArray (items : list json)
| JObject (properties : list (jsstring * json)).

(** What the post-processing reads of an element that is not [null].
    [value] and [type], which it calls methods on, are any JSON value,
    [None] when the element has no such property (a number, a string,
    a boolean or an array has none of the six).  [confidence] and the
    properties that are copied as they are have the types that
    [Entity] gives them; [None] is one that is missing or [null]. *)
Record entity := mk {
  value : option json;
  type : option json;
  description : option jsstring;
  unit : option jsstring;
  period : option jsstring;
  confidence : option number
}.

(** An element of the array: [null], on which reading a property
    throws, or a value with the properties above. *)
Inductive element :=
| null
| object (entity : entity).

End Raw.

(** ToBoolean of a JSON value. *)
Definition truthyJSON (v : Raw.json) : bool :=
  match v with
  | Raw.JNull => false
  | Raw.JBool b => b
  | Raw.JNumber x => truthy x
  | Raw.JString s => match s with [] => false | _ => true end
  | Raw.JArray _ | Raw.JObject _ => true
  end.

(** [v || ''], where [None] is [undefined]. *)
Definition orEmpty (v : option Raw.json) : Raw.json :=
  match v with
  | Some j => if truthyJSON j then j else Raw.JString []
  | None => Raw.JString []
  end.

(** [array.map(f)] for a callback that may throw: the results in
    order, or what the first failing call threw. *)
Fixpoint mapThrowing {A B} (f : A -> result B) (items : list A)
    : result (list B) :=
  match items with
  | [] => Ok []
  | item :: more =>
      let* first := f item in
      let* others := mapThrowing f more in
      Ok (first :: others)
  end.

(** [/```json\s*/g], [/```\s*$/g], [/^```json\s*/], [/\s*```$/] *)
Definition fenceOpen : regex := Cat (lit (js "```json")) (Star space).
Definition fenceClose : regex :=
  Cat (lit (js "```")) (Cat (Star space) AtEnd).
Definition fenceHead : regex :=
  Cat AtStart (Cat (lit (js "```json")) (Star space)).
Definition fenceTail : regex :=
  Cat (Star space) (Cat (lit (js "```")) AtEnd).

(** [text.replace(/```json\s*/g, '').replace(/```\s*$/g, '').trim()] *)
Definition stripFences (responseText : jsstring) : jsstring :=
  trim (removeAll fenceClose (removeAll fenceOpen responseText)).

Section Oracle.

(** [String.prototype.toLowerCase]. *)
Variable toLowerCase : jsstring -> jsstring.

(** [Number.prototype.toString]. *)
Variable numberToString : number -> jsstring.

(** [JSON.parse] followed by the reading of [.entities]: a
    [SyntaxError], or the [entities] array of the parsed response
    ([None] when the response has no array under that key). *)
Variable JSON_parse : jsstring -> result (option (list Raw.element)).

(** The text of the prompt template before and after [${text}]. *)
Variables promptHead promptTail : jsstring.

(** [model.generateContent(promptChunk)] and [response.text()] of the
    call number [i] of one extraction: the raw text, or what the
    client threw. *)
Variable oracle : nat -> jsstring -> result jsstring.

Definition maxChunkLength : Z := 30000.

(** [promptChunk] of [makeApiCall]. *)
Definition promptChunk (prompt : jsstring) : jsstring :=
  if (maxChunkLength <? Z.of_nat (length prompt))%Z
  then substring prompt 0 (Z.to_nat maxChunkLength) ++ js "..."
  else prompt.

Definition makeApiCall (prompt : jsstring) (i : nat) : result jsstring :=
  let* responseText := oracle i (promptChunk prompt) in
  let responseText := stripFences responseText in
  if negb (endsWith responseText (js "}"))
     && negb (endsWith responseText (js "]"))
  then Throw (Err (js "Incomplete JSON response from API"))
  else
    let* parsed :=
      tryCatch (JSON_parse responseText)
        (fun parseError =>
           match parseError with
           | Err message =>
               Throw (Err (js "Invalid JSON from API: " ++ message))
           end) in
    match parsed with
    | None =>
        Throw (Err (js "Invalid JSON structure - missing entities array"))
    | Some _ => Ok responseText
    end.

(** The ways an attempt fails: the client throws, the cleaned
    response ends in neither a brace nor a bracket, it is not JSON, or
    it has no [entities] array. *)
Inductive AttemptFails (prompt : jsstring) (i : nat) : Prop :=
| TransportError (e : Error) :
    oracle i (promptChunk prompt) = Throw e → AttemptFails prompt i
| Truncated (raw : jsstring) :
    oracle i (promptChunk prompt) = Ok raw →
    endsWith (stripFences raw) (js "}") = false →
    endsWith (stripFences raw) (js "]") = false →
    AttemptFails prompt i
| NotJSON (raw : jsstring) (e : Error) :
    oracle i (promptChunk prompt) = Ok raw →
    JSON_parse (stripFences raw) = Throw e →
    AttemptFails prompt i
| NoEntitiesArray (raw : jsstring) :
    oracle i (promptChunk prompt) = Ok raw →
    JSON_parse (stripFences raw) = Ok None →
    AttemptFails prompt i.

(** The loop [for (let i = 0; i <= retries; i++)], from attempt [i]
    with [n = retries - i] attempts left after it; the last error is
    thrown when the loop ends. *)
Fixpoint attemptsFrom (prompt : jsstring) (n i : nat) : result jsstring :=
  match makeApiCall prompt i with
  | Ok responseText => Ok responseText
  | Throw lastError =>
      match n with
      | O => Throw lastError
      | S n' => attemptsFrom prompt n' (S i)
      end
  end.

Definition callGeminiAPI (env : Env) (prompt : jsstring) (retries : nat)
    : result jsstring :=
  if hasKey env then attemptsFrom prompt retries 0
  else Throw (Err (js "GEMINI_API_KEY environment variable is not set")).

(** [v.toString()] on a JSON value: the method of the prototype of
    [v], which an own property [toString] of an object hides (its
    value is not a function, so the call throws).  An array joins the
    strings of its elements with commas, the empty string for [null];
    the string of an element is what its [toString] gives, and
    converting an object that hides [toString] throws as the call
    does. *)
Fixpoint toString (v : Raw.json) : result jsstring :=
  match v with
  | Raw.JNull =>
      Throw (Err (js "Cannot read properties of null (reading 'toString')"))
  | Raw.JBool b => Ok (js (if b then "true" else "false"))
  | Raw.JNumber x => Ok (numberToString x)
  | Raw.JString s => Ok s
  | Raw.JArray items =>
      (fix join (items : list Raw.json) : result jsstring :=
         match items with
         | [] => Ok []
         | item :: more =>
             let* first :=
               match item with
               | Raw.JNull => Ok []
               | _ => toString item
               end in
             match more with
             | [] => Ok first
             | _ => let* others := join more in Ok (first ++ js "," ++ others)
             end
         end) items
  | Raw.JObject properties =>
      if existsb (fun property => str_eqb (fst property) (js "toString"))
           properties
      then Throw (Err (js "toString is not a function"))
      else Ok (js "[object Object]")
  end.

(** [(entity.type || '').toLowerCase()]: only a string has the
    method. *)
Definition lowerCased (type : option Raw.json) : result jsstring :=
  match orEmpty type with
  | Raw.JString s => Ok (toLowerCase s)
  | _ => Throw (Err (js "toLowerCase is not a function"))
  end.

(** The callback of [result.entities.map]: the post-processing of one
    element of the response, or the [TypeError] it throws (whose
    message no caller reads). *)
Definition normalize (element : Raw.element) : result Entity :=
  match element with
  | Raw.null =>
      Throw (Err (js "Cannot read properties of null (reading 'confidence')"))
  | Raw.object entity =>
      let confidence :=
        match Raw.confidence entity with
        | Some c => orNum c c09
        | None => c09
        end in
      let* value := toString (orEmpty (Raw.value entity)) in
      let* type := lowerCased (Raw.type entity) in
      Ok {| value := stripCommas value;
            type := type;
            description := Raw.description entity;
            unit := Raw.unit entity;
            period := Raw.period entity;
            confidence := confidence |}
  end.

(** [sanitizedText] of [identifyNumericEntities]. *)
Definition sanitize (resultText : jsstring) : jsstring :=
  let sanitizedText := trim resultText in
  if startsWith sanitizedText (js "```json")
  then removeFirst fenceTail (removeFirst fenceHead sanitizedText)
  else sanitizedText.

Definition useLocal (env : Env) : bool :=
  match USE_LOCAL_EXTRACTION env with
  | Some flag => str_eqb flag (js "true")
  | None => false
  end
  || negb (hasKey env).

Definition identifyNumericEntities (env : Env) (text : jsstring)
    : result (list Entity) :=
  if useLocal env then Ok (ruleBasedNumericExtraction text)
  else
    tryCatch
      (let prompt := promptHead ++ text ++ promptTail in
       let* resultText := callGeminiAPI env prompt 2 in
       let sanitizedText := sanitize resultText in
       let* entities :=
         tryCatch
           (let* parsed := JSON_parse sanitizedText in
            match parsed with
            | None => Throw (Err (js "Invalid response format from AI API"))
            | Some entities => Ok entities
            end)
           (fun parseError =>
              Throw (Err (js "Invalid JSON response from API"))) in
       mapThrowing normalize entities)
      (fun error => Ok (ruleBasedNumericExtraction text)).

(** *** [processFinNI] *)

Definition finniPrediction (entity : Entity) : Prediction.t :=
  {| Prediction.value := value entity;
     Prediction.entityType := type entity;
     Prediction.confidence := confidence entity;
     Prediction.location := {| pageNum := 1; coordinates := None |};
     Prediction.xbrlTag := None;
     Prediction.mappingExplanation := None |}.

Definition finniResultData (reportId : jsstring) (entities : list Entity)
    : ResultData.t :=
  {| ResultData.reportId := reportId;
     ResultData.modelName := js "Gemini 2.5 Flash";
     ResultData.taskType := js "FinNI";
     ResultData.predictions := List.map finniPrediction entities;
     ResultData.metrics :=
       {| Metrics.precision := dec 95 2;
          Metrics.recall := dec 92 2;
          Metrics.f1Score := dec 93 2;
          Metrics.accuracy := dec 94 2 |};
     ResultData.processingTime := ofZ 1000 |}.

(** What the handler answers: 404 when the report is unknown, 200 with
    the record it passed to [localStorage.saveResult], 500 with the
    message of an error that escaped. *)
Inductive FinNIResponse :=
| Status404
| Status200 (data : ResultData.t)
| Status500 (message : jsstring).

(** [report] is the text [extractText] reads from the file of the
    report [reportId], or [None] when the store has no such report.
    The store is taken to answer every call. *)
Definition processFinNI (env : Env) (reportId : jsstring)
    (report : option jsstring) : FinNIResponse :=
  match report with
  | None => Status404
  | Some text =>
      match identifyNumericEntities env text with
      | Ok entities => Status200 (finniResultData reportId entities)
      | Throw (Err message) => Status500 message
      end
  end.

End Oracle.

End Extraction.

(* ================================================================= *)
(** ** Linking: [controllers/finclController.js] *)

Module Linking.
Import JS Regex.

(** An element of the [mappings] array of an oracle response.  The
    oracle numbers the entities of a batch itself, so [entityId] is
    whatever integer it wrote (integers below [2^53] are exact numbers,
    and so are their sums with a batch offset); [None] is a field it
    left out or set to [null]. *)
Module Mapping.
Record t := mk {
  entityId : Z;
  xbrlTag : option XbrlTag.t;
  explanation : option jsstring
}.
End Mapping.

(** [{ ...entity, xbrlTag, mappingExplanation }]; a field the object
    does not have is [None]. *)
Module Linked.
Record t := mk {
  entity : Entity;
  xbrlTag : option XbrlTag.t;
  mappingExplanation : option jsstring
}.
End Linked.

Definition BATCH_SIZE : nat := 40.
Definition MAX_RETRIES : nat := 3.

Definition c06 : number := dec 6 1.
Definition c07 : number := dec 7 1.

Definition usGaap (concept : string) (confidence : number) : XbrlTag.t :=
  {| XbrlTag.concept := js concept;
     XbrlTag.taxonomy := js "us-gaap";
     XbrlTag.confidence := confidence |}.

(** [desc.includes(word)] *)
Definition has (desc : jsstring) (word : string) : bool :=
  includes desc (js word).

(** One branch of a chain: its condition on [desc] and the concept it
    assigns (with its confidence, where branches differ in it). *)
Definition when (cond : jsstring -> bool) (concept : string)
    : (jsstring -> bool) * string := (cond, concept).
Definition whenAt (cond : jsstring -> bool) (concept : string)
    (confidence : number) : (jsstring -> bool) * (string * number) :=
  (cond, (concept, confidence)).

(** The [if ... else if ...] chain of [linkConcepts], one line per
    branch, in the order of the source. *)
Definition enhancedRules : list ((jsstring -> bool) * string) :=
  [ when (fun d => has d "revenue" || has d "sales"
                    || has d "service revenue")
      "us-gaap:Revenue";
    when (fun d => has d "net income" || has d "net profit" || has d "net loss")
      "us-gaap:NetIncomeLoss";
    when (fun d => has d "operating income" || has d "operating profit")
      "us-gaap:OperatingIncomeLoss";
    when (fun d => has d "gross profit" || has d "gross margin")
      "us-gaap:GrossProfit";
    when (fun d => has d "pretax income" || has d "income before tax"
              || has d "earnings before tax")
      "us-gaap:IncomeLossFromContinuingOperationsBeforeIncomeTaxesExtraordinaryItemsNoncontrollingInterest";
    when (fun d => has d "depreciation" && has d "expense")
      "us-gaap:DepreciationDepletionAndAmortization";
    when (fun d => has d "interest expense")
      "us-gaap:InterestExpense";
    when (fun d => has d "tax expense" || has d "income tax")
      "us-gaap:IncomeTaxExpenseBenefit";
    when (fun d => has d "wage" || has d "salary" || has d "payroll")
      "us-gaap:LaborAndRelatedExpense";
    when (fun d => has d "supplies expense")
      "us-gaap:SuppliesExpense";
    when (fun d => has d "operating expense" || has d "total operating")
      "us-gaap:OperatingExpenses";
    when (fun d => has d "cost of goods" || has d "cost of revenue"
                   || has d "cogs")
      "us-gaap:CostOfRevenue";
    when (fun d => has d "total assets"
              || (has d "assets" && negb (has d "liabilities")))
      "us-gaap:Assets";
    when (fun d => has d "total liabilities")
      "us-gaap:Liabilities";
    when (fun d => has d "cash" || has d "cash equivalents")
      "us-gaap:CashAndCashEquivalentsAtCarryingValue";
    when (fun d => has d "retained earnings")
      "us-gaap:RetainedEarningsAccumulatedDeficit";
    when (fun d => has d "stockholders equity" || has d "shareholders equity"
              || has d "total equity")
      "us-gaap:StockholdersEquity";
    when (fun d => has d "accounts receivable" || has d "receivables")
      "us-gaap:AccountsReceivableNetCurrent";
    when (fun d => has d "accounts payable" || has d "payables")
      "us-gaap:AccountsPayableCurrent";
    when (fun d => has d "inventory" || has d "inventories")
      "us-gaap:InventoryNet";
    when (fun d => has d "shares outstanding" || has d "shares issued")
      "us-gaap:WeightedAverageNumberOfSharesOutstandingBasic";
    when (fun d => has d "earnings per share" || has d "eps")
      "us-gaap:EarningsPerShareBasic";
    when (fun d => has d "dividends")
      "us-gaap:Dividends" ].

(** The chain of the secondary fallback of [processFinCL], with the
    confidence of each branch. *)
Definition simpleRules : list ((jsstring -> bool) * (string * number)) :=
  [ whenAt (fun d => has d "revenue" || has d "sales")
      "us-gaap:Revenue" c07;
    whenAt (fun d => has d "net income" || has d "net profit")
      "us-gaap:NetIncomeLoss" c07;
    whenAt (fun d => has d "operating income")
      "us-gaap:OperatingIncomeLoss" c07;
    whenAt (fun d => has d "assets" && has d "total")
      "us-gaap:Assets" c07;
    whenAt (fun d => has d "expense")
      "us-gaap:OperatingExpenses" c06 ].

(** The branch an [if ... else if ...] chain takes: the first whose
    condition holds. *)
Definition firstRule {A} (rules : list ((jsstring -> bool) * A))
    (desc : jsstring) : option A :=
  match List.find (fun rule => fst rule desc) rules with
  | Some rule => Some (snd rule)
  | None => None
  end.

(** The values of [batchStart] the batch loop goes through. *)
Fixpoint startsFrom (fuel n batchStart : nat) : list nat :=
  match fuel with
  | O => []
  | S fuel' =>
      if Nat.ltb batchStart n
      then batchStart :: startsFrom fuel' n (batchStart + BATCH_SIZE)
      else []
  end.

Definition batchStarts (n : nat) : list nat := startsFrom n n 0.

Section Engine.

Variable toLowerCase : jsstring -> jsstring.

(** The prompt of a batch (the taxonomy is the constant table of
    [loadTaxonomy]). *)
Variable linkingPrompt : list Entity -> jsstring.

(** [JSON.parse] followed by the reading of [.mappings]: what was
    thrown, or the [mappings] array ([None] when the parsed response
    has nothing under that key). *)
Variable JSON_parse : jsstring -> result (option (list Mapping.t)).

(** [model.generateContent(prompt)] and [response.text()] of attempt
    [attempt] for the batch that starts at [batchStart]. *)
Variable oracle : nat -> nat -> jsstring -> result jsstring.

(** [{ ...m, entityId: m.entityId + batchStart }] *)
Definition adjust (batchStart : nat) (m : Mapping.t) : Mapping.t :=
  {| Mapping.entityId := Mapping.entityId m + Z.of_nat batchStart;
     Mapping.xbrlTag := Mapping.xbrlTag m;
     Mapping.explanation := Mapping.explanation m |}.

(** [parsed.mappings.length < batch.length * 0.7] *)
Definition tooFew (mappings batchLength : nat) : bool :=
  ltb (ofNat mappings) (mul (ofNat batchLength) c07).

(** The body of the [try] of one attempt: the adjusted mappings it
    pushes, or what it threw. *)
Definition attemptBatch (batchStart : nat) (batch : list Entity)
    (attempt : nat) : result (list Mapping.t) :=
  let* responseText := oracle batchStart attempt (linkingPrompt batch) in
  let responseText := Extraction.stripFences responseText in
  let* parsed := JSON_parse responseText in
  match parsed with
  | None => Throw (Err (js "Incomplete mappings"))
  | Some mappings =>
      if tooFew (length mappings) (length batch)
      then Throw (Err (js "Incomplete mappings"))
      else Ok (List.map (adjust batchStart) mappings)
  end.

(** The loop [for (attempt = 1; attempt <= MAX_RETRIES; attempt++)]
    from [attempt], with [n = MAX_RETRIES - attempt] attempts left
    after it: the mappings pushed to [allMappings] and the number of
    the last attempt made. *)
Fixpoint retryFrom (batchStart : nat) (batch : list Entity) (n attempt : nat)
    : list Mapping.t * nat :=
  match attemptBatch batchStart batch attempt with
  | Ok adjustedMappings => (adjustedMappings, attempt)
  | Throw error =>
      match n with
      | O => ([], attempt)
      | S n' => retryFrom batchStart batch n' (S attempt)
      end
  end.

Definition processBatch (batchStart : nat) (batch : list Entity)
    : list Mapping.t * nat :=
  retryFrom batchStart batch (MAX_RETRIES - 1) 1.

(** [entities.slice(batchStart, batchEnd)] *)
Definition batchOf (entities : list Entity) (batchStart : nat) : list Entity :=
  let batchEnd := Nat.min (batchStart + BATCH_SIZE) (length entities) in
  slice entities batchStart batchEnd.

(** The loop [for (batchStart = 0; batchStart < entities.length;
    batchStart += BATCH_SIZE)]: [allMappings] when it ends.  Every
    round moves [batchStart] forward, so [fuel] rounds are enough when
    [fuel] is the number of entities. *)
Fixpoint batchLoop (fuel : nat) (entities : list Entity) (batchStart : nat)
    (allMappings : list Mapping.t) : list Mapping.t :=
  match fuel with
  | O => allMappings
  | S fuel' =>
      if Nat.ltb batchStart (length entities) then
        let batch := batchOf entities batchStart in
        batchLoop fuel' entities (batchStart + BATCH_SIZE)
          (allMappings ++ fst (processBatch batchStart batch))
      else allMappings
  end.

(** What a batch contributes to [allMappings]. *)
Definition contribution (entities : list Entity) (b : nat) : list Mapping.t :=
  fst (processBatch b (batchOf entities b)).

(** [allMappings] after the batch loop. *)
Definition allMappings (entities : list Entity) : list Mapping.t :=
  batchLoop (length entities) entities 0 [].

(** [(entity.description || entity.value || '').toLowerCase()] *)
Definition descOf (entity : Entity) : jsstring :=
  toLowerCase
    (orStr (orStr (default [] (description entity)) (value entity)) []).

(** [allMappings.find(m => m.entityId === index)] *)
Definition mappingFor (allMappings : list Mapping.t) (index : nat)
    : option Mapping.t :=
  List.find (fun m => Z.eqb (Mapping.entityId m) (Z.of_nat index)) allMappings.

(** The tag of the keyword chain, or [null]. *)
Definition ruleTag (entity : Entity) : option XbrlTag.t :=
  option_map (fun concept => usGaap concept c06)
    (firstRule enhancedRules (descOf entity)).

(** The callback of [entities.map] that applies the mappings. *)
Definition applyMapping (allMappings : list Mapping.t) (index : nat)
    (entity : Entity) : Linked.t :=
  match mappingFor allMappings index with
  | Some (Mapping.mk _ (Some tag) explanation) =>
      {| Linked.entity := entity;
         Linked.xbrlTag := Some tag;
         Linked.mappingExplanation := explanation |}
  | _ =>
      let xbrlTag := ruleTag entity in
      {| Linked.entity := entity;
         Linked.xbrlTag := xbrlTag;
         Linked.mappingExplanation :=
           Some (match xbrlTag with
                 | Some _ => js "Rule-based mapping (fallback)"
                 | None => js "No suitable US-GAAP mapping found"
                 end) |}
  end.

Definition linkConcepts (env : Env) (entities : list Entity)
    : result (list Linked.t) :=
  if hasKey env then
    Ok (imap (applyMapping (allMappings entities)) entities)
  else Throw (Err (js "GEMINI_API_KEY environment variable is not set")).

(** The callback of the secondary fallback of [processFinCL]:
    [{ ...entity, xbrlTag }]. *)
Definition simpleMapping (entity : Entity) : Linked.t :=
  let desc := toLowerCase (orStr (default [] (description entity)) []) in
  {| Linked.entity := entity;
     Linked.xbrlTag :=
       option_map (fun rule => usGaap (fst rule) (snd rule))
         (firstRule simpleRules desc);
     Linked.mappingExplanation := None |}.

(** [linkedEntities] of [processFinCL]. *)
Definition linkedEntities (env : Env) (entities : list Entity)
    : list Linked.t :=
  match linkConcepts env entities with
  | Ok linked => linked
  | Throw linkError => List.map simpleMapping entities
  end.

Definition formatEntity (e : Linked.t) : Prediction.t :=
  {| Prediction.value := value (Linked.entity e);
     Prediction.entityType := type (Linked.entity e);
     Prediction.confidence := confidence (Linked.entity e);
     Prediction.location := {| pageNum := 1; coordinates := None |};
     Prediction.xbrlTag := Linked.xbrlTag e;
     Prediction.mappingExplanation := Linked.mappingExplanation e |}.

(** [formattedEntities.filter(e => e.xbrlTag).length] *)
Definition mappedCount (formattedEntities : list Prediction.t) : nat :=
  length (List.filter (fun e => bool_decide (is_Some (Prediction.xbrlTag e)))
            formattedEntities).

(** [resultData] of [processFinCL], the record it passes to
    [localStorage.saveResult] and returns in its answer. *)
Definition processFinCL (env : Env) (reportId : jsstring)
    (entities : list Entity) : ResultData.t :=
  let formattedEntities := List.map formatEntity (linkedEntities env entities) in
  let share :=
    div (ofNat (mappedCount formattedEntities))
        (ofNat (length formattedEntities)) in
  {| ResultData.reportId := reportId;
     ResultData.modelName := js "Gemini 2.5 Flash";
     ResultData.taskType := js "FinCL";
     ResultData.predictions := formattedEntities;
     ResultData.metrics :=
       {| Metrics.precision := share;
          Metrics.recall := share;
          Metrics.f1Score := share;
          Metrics.accuracy := share |};
     ResultData.processingTime := ofZ 1500 |}.

End Engine.

End Linking.

(* ================================================================= *)
(** ** Evaluation: [utils/datasets/datasetLoader.js] *)

Module Evaluation.
Import JS Regex.

(** *** [parseFloat] *)

(** The decimal digits at the head of [s], appended to the digits
    read so far ([acc], [n] of them): the value, the number of digits,
    and what follows. *)
Fixpoint readDigits (s : jsstring) (acc : Z) (n : Z) : Z * Z * jsstring :=
  match s with
  | c :: s' =>
      if isDigit c then readDigits s' (10 * acc + (Z.of_N c - 48)) (n + 1)
      else (acc, n, s)
  | [] => (acc, n, s)
  end.

(** A leading [+] or [-]. *)
Definition readSign (s : jsstring) : bool * jsstring :=
  match s with
  | 43%N :: s' => (false, s')
  | 45%N :: s' => (true, s')
  | _ => (false, s)
  end.

(** The number nearest to [m * 10^e10] (ties to even), with the sign
    [neg]. *)
Definition decimalToNumber (neg : bool) (m : Z) (e10 : Z) : number :=
  match m with
  | Zpos p =>
      if (0 <=? e10)%Z
      then binary_round prec emax neg (p * Z.to_pos (10 ^ e10)) 0
      else
        let '(q, e, l) :=
          SFdiv_core_binary prec emax (Zpos p) 0 (10 ^ (- e10)) 0 in
        binary_round_aux prec emax neg q e l
  | _ => S754_zero neg
  end.

(** [parseFloat(s)]: white space is skipped, then the longest prefix
    that is a decimal literal is read; [NaN] when there is none. *)
Definition parseFloat (s : jsstring) : number :=
  let '(neg, s0) := readSign (trimStart s) in
  if startsWith s0 (js "Infinity") then S754_infinity neg
  else
    let '(ip, ni, s1) := readDigits s0 0 0 in
    let '(mant, nf, s2) :=
      match s1 with
      | 46%N :: t => readDigits t ip 0
      | _ => (ip, 0, s1)
      end in
    if (ni + nf =? 0)%Z then NaN
    else
      let ex :=
        match s2 with
        | c :: t =>
            if (N.eqb c 101 || N.eqb c 69)%N then
              let '(eneg, t') := readSign t in
              let '(ev, ne, _) := readDigits t' 0 0 in
              if (ne =? 0)%Z then 0 else if eneg then - ev else ev
            else 0
        | [] => 0
        end in
      decimalToNumber neg mant (ex - nf).

(** *** The matching rule and the metrics *)

Definition c001 : number := dec 1 2.

Definition _isMatchingEntity (pred gold : Entity) : bool :=
  str_eqb (value pred) (value gold)
  && str_eqb (type pred) (type gold)
  && ltb (abs (sub (parseFloat (value pred)) (parseFloat (value gold))))
         c001.

(** An element of [detailedResults]. *)
Record Detail := mkDetail {
  status : jsstring;
  predicted : option Entity;
  actual : option Entity
}.

(** [predictions.find(pred => this._isMatchingEntity(pred, gold))] *)
Definition matchingPred (predictions : list Entity) (gold : Entity)
    : option Entity :=
  List.find (fun pred => _isMatchingEntity pred gold) predictions.

(** [goldStandard.some(gold => this._isMatchingEntity(pred, gold))] *)
Definition hasMatch (goldStandard : list Entity) (pred : Entity) : bool :=
  existsb (fun gold => _isMatchingEntity pred gold) goldStandard.

(** The counters and [metrics.detailedResults] while the two
    [forEach] loops run.  A list has fewer than [2^32] elements, so the
    counters and their sums are exact numbers; they are kept as natural
    numbers. *)
Record Tally := mkTally {
  truePositives : nat;
  falsePositives : nat;
  falseNegatives : nat;
  detailedResults : list Detail
}.

(** The callback of [goldStandard.forEach]. *)
Definition goldStep (predictions : list Entity) (t : Tally) (gold : Entity)
    : Tally :=
  match matchingPred predictions gold with
  | Some pred =>
      {| truePositives := S (truePositives t);
         falsePositives := falsePositives t;
         falseNegatives := falseNegatives t;
         detailedResults :=
           detailedResults t
           ++ [mkDetail (js "correct") (Some pred) (Some gold)] |}
  | None =>
      {| truePositives := truePositives t;
         falsePositives := falsePositives t;
         falseNegatives := S (falseNegatives t);
         detailedResults :=
           detailedResults t ++ [mkDetail (js "missed") None (Some gold)] |}
  end.

(** The callback of [predictions.forEach]. *)
Definition predStep (goldStandard : list Entity) (t : Tally) (pred : Entity)
    : Tally :=
  if hasMatch goldStandard pred then t
  else
    {| truePositives := truePositives t;
       falsePositives := S (falsePositives t);
       falseNegatives := falseNegatives t;
       detailedResults :=
         detailedResults t
         ++ [mkDetail (js "false_positive") (Some pred) None] |}.

(** The state when both loops have ended. *)
Definition tally (predictions goldStandard : list Entity) : Tally :=
  fold_left (predStep goldStandard) predictions
    (fold_left (goldStep predictions) goldStandard (mkTally 0 0 0 [])).

(** [2 * ((precision * recall) / (precision + recall)) || 0] *)
Definition f1Of (precision recall : number) : number :=
  orNum (mul (ofZ 2) (div (mul precision recall) (add precision recall)))
        zero.

Definition evaluateFinNIPredictions (predictions goldStandard : list Entity)
    : Metrics.t * list Detail :=
  let t := tally predictions goldStandard in
  let precision :=
    orNum (div (ofNat (truePositives t))
               (ofNat (truePositives t + falsePositives t))) zero in
  let recall :=
    orNum (div (ofNat (truePositives t))
               (ofNat (truePositives t + falseNegatives t))) zero in
  ({| Metrics.precision := precision;
      Metrics.recall := recall;
      Metrics.f1Score := f1Of precision recall;
      Metrics.accuracy :=
        orNum (div (ofNat (truePositives t))
                   (ofNat (length goldStandard))) zero |},
   detailedResults t).

End Evaluation.

(* ================================================================= *)
(** ** The specification's wording, for comparison *)

Module Spec.
Import JS.

(** The deduplication as the specification words it: entities are
    deduplicated by the pair (value, type), keeping the first
    occurrence.  [seen] lists the pairs met so far. *)
Fixpoint keepFirstLoop (seen : list (jsstring * jsstring))
    (entities : list Entity) : list Entity :=
  match entities with
  | [] => []
  | e :: es =>
      if decide ((value e, type e) ∈ seen) then keepFirstLoop seen es
      else e :: keepFirstLoop ((value e, type e) :: seen) es
  end.

Definition keepFirstByPair (entities : list Entity) : list Entity :=
  keepFirstLoop [] entities.

(** The matching rule as the specification words it: the types are
    equal and the parsed values differ by less than 0.01. *)
Definition matchesBySpec (pred gold : Entity) : bool :=
  str_eqb (type pred) (type gold)
  && ltb (abs (sub (Evaluation.parseFloat (value pred))
                   (Evaluation.parseFloat (value gold))))
         Evaluation.c001.


End Spec.

(* ================================================================= *)
(** ** Concrete inputs *)

Module Scenarios.
Import JS Extraction Linking.

(** The text of the scenario of the specification. *)
Definition scenarioText : jsstring :=
  js "Revenue was $1,234.56 and grew 12.5% to 1,000,000 shares outstanding".

(** What the extractor returns on it, in order. *)
Definition scenarioEntities : list Entity :=
  [ mkEntity (js "1234.56") (js "monetary")
      (Some (js "Found monetary value: $1,234.56")) (Some (js "$")) None c08;
    mkEntity (js "12.5") (js "percentage")
      (Some (js "Found percentage: 12.5%")) (Some (js "%")) None c08;
    mkEntity (js "1234.56") (js "count")
      (Some (js "Context: Revenue was $1,234.56 and grew 12.5% to 1,000,000 sha"))
      None None c06;
    mkEntity (js "12.5") (js "shares")
      (Some (js "Context: Revenue was $1,234.56 and grew 12.5% to 1,000,000 shares outstanding"))
      (Some (js "shares")) None c06;
    mkEntity (js "1000000") (js "shares")
      (Some (js "Context: Revenue was $1,234.56 and grew 12.5% to 1,000,000 shares outstanding"))
      (Some (js "shares")) None c06 ].

(** An environment with the oracle disabled. *)
Definition localEnv : Env :=
  {| GEMINI_API_KEY := None; USE_LOCAL_EXTRACTION := Some (js "true") |}.

(** The gold entity and the two predictions of the example; the
    fields the matching rule does not read are left empty. *)
Definition gold100 : Entity :=
  mkEntity (js "100") (js "monetary") None None None zero.
Definition pred100_00 : Entity :=
  mkEntity (js "100.00") (js "monetary") None None None zero.
Definition pred100 : Entity :=
  mkEntity (js "100") (js "monetary") None None None zero.

Definition one : number := ofZ 1.

(** [Number.prototype.toString] on the integers below [2^53], on [NaN]
    and on the infinities; the responses used below hold no other
    number. *)
Definition integerText (x : number) : jsstring :=
  match x with
  | S754_zero _ => js "0"
  | S754_nan => js "NaN"
  | S754_infinity s => js (if s then "-Infinity" else "Infinity")
  | S754_finite s m e =>
      (if s then js "-" else [])
      ++ js (NilZero.string_of_uint
               (N.to_uint (Z.to_N (Z.shiftl (Z.pos m) e))))
  end.

(** An environment with a credential, and one without. *)
Definition keyEnv : Env :=
  {| GEMINI_API_KEY := Some (js "key"); USE_LOCAL_EXTRACTION := None |}.
Definition noKeyEnv : Env :=
  {| GEMINI_API_KEY := None; USE_LOCAL_EXTRACTION := None |}.

Definition revenueEntity : Entity :=
  mkEntity (js "100") (js "monetary") (Some (js "Total revenue"))
    (Some (js "USD")) None (dec 9 1).


Definition assetsTag : XbrlTag.t := usGaap "us-gaap:Assets" (dec 95 2).

Definition mappingAt (id : nat) : Mapping.t :=
  Mapping.mk (Z.of_nat id) (Some assetsTag) (Some (js "Balance sheet total")).

Definition anyPrompt (batch : list Entity) : jsstring := js "prompt".

(** A name or a string value of a JSON text, between double quotes. *)
Definition quoted (s : string) : jsstring := [34%N] ++ js s ++ [34%N].

(** The JSON text of [mappingAt id]. *)
Definition mappingJSON (id : nat) : jsstring :=
  js "{" ++ quoted "entityId" ++ js ":"
  ++ js (NilZero.string_of_uint (Nat.to_uint id))
  ++ js "," ++ quoted "xbrlTag" ++ js ":{"
  ++ quoted "concept" ++ js ":" ++ quoted "us-gaap:Assets" ++ js ","
  ++ quoted "taxonomy" ++ js ":" ++ quoted "us-gaap" ++ js ","
  ++ quoted "confidence" ++ js ":0.95},"
  ++ quoted "explanation" ++ js ":" ++ quoted "Balance sheet total"
  ++ js "}".

Fixpoint commaSeparated (items : list jsstring) : jsstring :=
  match items with
  | [] => []
  | [item] => item
  | item :: more => item ++ js "," ++ commaSeparated more
  end.

(** A response with forty mappings, numbered from [first]. *)
Definition responseFrom (first : nat) : jsstring :=
  js "{" ++ quoted "mappings" ++ js ":["
  ++ commaSeparated (mappingJSON <$> seq first 40) ++ js "]}".

(** An oracle that answers the first batch, numbering the entities
    from [first], and fails on every other call. *)
Definition firstBatchOnly (first batchStart attempt : nat) (prompt : jsstring)
    : result jsstring :=
  if Nat.eqb batchStart 0 then Ok (responseFrom first)
  else Throw (Err (js "503 Service Unavailable")).

(** [JSON.parse] and [.mappings] on the two responses used below. *)
Definition readMappings (responseText : jsstring)
    : result (option (list Mapping.t)) :=
  if str_eqb responseText (responseFrom 0)
  then Ok (Some (mappingAt <$> seq 0 40))
  else if str_eqb responseText (responseFrom 1)
  then Ok (Some (mappingAt <$> seq 1 40))
  else Throw (Err (js "Unexpected token")).







Definition simpleLinked (e : Entity) : Linked.t :=
  {| Linked.entity := e;
     Linked.xbrlTag := Some (usGaap "us-gaap:Revenue" c07);
     Linked.mappingExplanation := None |}.

(** An oracle that answers every call with prose, and a parser that
    is never reached. *)
Definition proseOracle (i : nat) (prompt : jsstring) : result jsstring :=
  Ok (js "I am sorry, I cannot help with that.").
Definition rejectAll (text : jsstring) : result (option (list Raw.element)) :=
  Throw (Err (js "Unexpected token")).

End Scenarios.

(* ================================================================= *)
(** ** What an expression reads *)

Module RegexShape.
Import JS Regex.

(** The strings an expression can read, whatever stands around them
    (an assertion reads nothing). *)
Inductive matches : regex → jsstring → Prop :=
| matches_empty : matches Empty []
| matches_class p c : p c = true → matches (Class p) [c]
| matches_cat a b u v : matches a u → matches b v → matches (Cat a b) (u ++ v)
| matches_or_l a b u : matches a u → matches (Or a b) u
| matches_or_r a b u : matches b u → matches (Or a b) u
| matches_star_nil a : matches (Star a) []
| matches_star_cons a u v :
    matches a u → matches (Star a) v → matches (Star a) (u ++ v)
| matches_group a u : matches a u → matches (Group a) u
| matches_boundary : matches WordBoundary []
| matches_start : matches AtStart []
| matches_end : matches AtEnd [].

(** Every class of [r] accepts only units that satisfy [P]. *)
Fixpoint allows (P : N → Prop) (r : regex) : Prop :=
  match r with
  | Class p => ∀ c, p c = true → P c
  | Cat a b | Or a b => allows P a ∧ allows P b
  | Star a | Group a => allows P a
  | _ => True
  end.

(** Every string [r] reads holds a unit that satisfies [Q]. *)
Fixpoint needs (Q : N → Prop) (r : regex) : Prop :=
  match r with
  | Class p => ∀ c, p c = true → Q c
  | Cat a b => needs Q a ∨ needs Q b
  | Or a b => needs Q a ∧ needs Q b
  | Group a => needs Q a
  | _ => False
  end.

(** Expressions without a capturing group. *)
Fixpoint noGroup (r : regex) : bool :=
  match r with
  | Cat a b | Or a b => noGroup a && noGroup b
  | Star a => noGroup a
  | Group _ => false
  | _ => true
  end.

(** [s'] is the position reached from [s] by reading [seg]; the span
    of the group is the same at both when [g] holds. *)
Definition via (g : bool) (s s' : mstate) (seg : jsstring) : Prop :=
  rest s = seg ++ rest s' ∧ pos s' = (pos s + length seg)%nat
  ∧ (g = true → cap s' = cap s).

(** The bodies of the capturing groups of an expression, and whether
    every match of the expression goes through one of them. *)
Fixpoint groups (r : regex) : list regex :=
  match r with
  | Cat a b | Or a b => groups a ++ groups b
  | Star a => groups a
  | Group a => a :: groups a
  | _ => []
  end.

Fixpoint capturing (r : regex) : bool :=
  match r with
  | Cat a b => capturing a || capturing b
  | Or a b => capturing a && capturing b
  | Group _ => true
  | _ => false
  end.

(** The span [c] is that of a string of one of the groups [G], read
    in [text]. *)
Definition captured (text : jsstring) (G : list regex)
    (c : option (nat * nat)) : Prop :=
  ∃ g seg a, In g G ∧ matches g seg
    ∧ c = Some (a, (a + length seg)%nat)
    ∧ substring text a (a + length seg) = seg.

(** What the group holds when a match ends: the span of a string of a
    group of the expression, read in the text; or, when the match went
    through no group, what it held before. *)
Definition capture_after (text : jsstring) (r : regex) (s s' : mstate)
    : Prop :=
  rest s' = skipn (pos s') text
  ∧ (captured text (groups r) (cap s')
     ∨ (capturing r = false ∧ cap s' = cap s)).

(** A decimal numeral, [[0-9]+(\.[0-9]+)?]: digits, then nothing or a
    point and digits. *)
Fixpoint allDigits (s : jsstring) : bool :=
  match s with
  | [] => true
  | c :: s' => isDigit c && allDigits s'
  end.

Fixpoint afterDigit (s : jsstring) : bool :=
  match s with
  | [] => true
  | c :: s' =>
      if isDigit c then afterDigit s'
      else N.eqb c 46 && match s' with [] => false | _ => allDigits s' end
  end.

Definition isDecimal (s : jsstring) : bool :=
  match s with
  | c :: s' => isDigit c && afterDigit s'
  | [] => false
  end.

End RegexShape.

(* ================================================================= *)
(** ** The shape of a locally extracted entity *)

Module EntityShape.
Import JS RegexShape.

(** A decimal numeral as value (digits, then nothing or a point and
    digits), a literal type with the confidence of its pass, a
    description, and no period. *)
Definition wellFormed (e : Entity) : Prop :=
  isDecimal (value e) = true
  ∧ ((type e ∈ [js "monetary"; js "percentage"] ∧ confidence e = dec 8 1)
     ∨ (type e ∈ [js "count"; js "shares"; js "date"]
        ∧ confidence e = dec 6 1))
  ∧ is_Some (description e) ∧ period e = None.

End EntityShape.

(* ================================================================= *)
(** ** Evaluation of the linking: [evaluateFinCLPredictions] *)

Module ConceptEvaluation.
Import JS Evaluation.

Section Concepts.

(** A prediction and a gold mapping are read only through
    [xbrlTag?.concept]; [None] is [undefined], the value of that
    expression on an element with no tag or with a tag that has no
    concept. *)
Variables Pred Gold : Type.
Variable predConcept : Pred → option jsstring.
Variable goldConcept : Gold → option jsstring.

(** [pred.xbrlTag?.concept === gold.xbrlTag?.concept] *)
Definition sameConcept (gold : Gold) (pred : Pred) : bool :=
  bool_decide (predConcept pred = goldConcept gold).

(** An element of [detailedResults]. *)
Record Detail := mkDetail {
  status : jsstring;
  predicted : option Pred;
  actual : Gold
}.

(** The callback of [goldStandard.forEach], on [correctMappings] and
    [metrics.detailedResults]. *)
Definition goldStep (predictions : list Pred) (acc : nat * list Detail)
    (gold : Gold) : nat * list Detail :=
  let '(correctMappings, detailedResults) := acc in
  match List.find (sameConcept gold) predictions with
  | Some matchingPred =>
      (S correctMappings,
       detailedResults ++ [mkDetail (js "correct") (Some matchingPred) gold])
  | None =>
      (correctMappings,
       detailedResults ++ [mkDetail (js "incorrect") None gold])
  end.

Definition evaluateFinCLPredictions (predictions : list Pred)
    (goldStandard : list Gold) : Metrics.t * list Detail :=
  let '(correctMappings, detailedResults) :=
    fold_left (goldStep predictions) goldStandard (0%nat, []) in
  let totalPredictions := length predictions in
  let totalGoldStandard := length goldStandard in
  let precision :=
    orNum (div (ofNat correctMappings) (ofNat totalPredictions)) zero in
  let recall :=
    orNum (div (ofNat correctMappings) (ofNat totalGoldStandard)) zero in
  ({| Metrics.precision := precision;
      Metrics.recall := recall;
      Metrics.f1Score := f1Of precision recall;
      Metrics.accuracy :=
        orNum (div (ofNat correctMappings) (ofNat totalGoldStandard)) zero |},
   detailedResults).

End Concepts.

End ConceptEvaluation.

(* ================================================================= *)
(** ** The store: [config/localStorage.js]

    The two JSON files of the store, and the functions that read and
    rewrite them.  A file is represented by the array it holds, [None]
    when it is missing or does not hold JSON; a time stamp (the ISO
    string of [new Date()]) by the reading of the clock it is written
    from, in milliseconds.  The calls of a handler run one after the
    other. *)

Module LocalStorage.
Import JS.

(** [n.toString()] for a reading of the clock. *)
Definition decimal (n : N) : jsstring :=
  js (NilZero.string_of_uint (N.to_uint n)).

Record Metadata := mkMetadata {
  companyName : option jsstring;
  fiscalYear : option jsstring;
  documentType : option jsstring
}.

(** A report: the fields the upload controller sets and those the
    store adds; [None] is a field the object does not have. *)
Record Report := mkReport {
  id : option jsstring;
  createdAt : option N;
  updatedAt : option N;
  fileName : option jsstring;
  fileType : option jsstring;
  fileUrl : option jsstring;
  status : option jsstring;
  metadata : option Metadata
}.

(** [{ ...report, id, createdAt }] *)
Definition withId (report : Report) (id : jsstring) (createdAt : N) : Report :=
  {| id := Some id; createdAt := Some createdAt;
     updatedAt := updatedAt report; fileName := fileName report;
     fileType := fileType report; fileUrl := fileUrl report;
     status := status report; metadata := metadata report |}.

(** [report.status = status; report.updatedAt = ...] *)
Definition withStatus (report : Report) (status : jsstring) (updatedAt : N)
    : Report :=
  {| id := id report; createdAt := createdAt report;
     updatedAt := Some updatedAt; fileName := fileName report;
     fileType := fileType report; fileUrl := fileUrl report;
     status := Some status; metadata := metadata report |}.

(** [report.id === id] *)
Definition hasId (id : jsstring) (report : Report) : bool :=
  match LocalStorage.id report with
  | Some i => str_eqb i id
  | None => false
  end.

(** [array.findIndex(f)], [None] for [-1]. *)
Fixpoint findIndex {A} (f : A → bool) (l : list A) : option nat :=
  match l with
  | [] => None
  | x :: l' => if f x then Some 0%nat else option_map S (findIndex f l')
  end.

Section Store.

(** The objects passed to [saveResult]; the store reads their
    [reportId] and nothing else. *)
Variable Result : Type.
Variable reportIdOf : Result → option jsstring.

(** [{ ...result, id, createdAt }] *)
Record Saved := mkSaved {
  data : Result;
  savedId : jsstring;
  savedAt : N
}.

(** The files, whether a write to them succeeds, and the clock: its
    successive readings and the number of readings made. *)
Record World := mkWorld {
  reportsFile : option (list Report);
  resultsFile : option (list Saved);
  writable : bool;
  clock : nat → N;
  ticks : nat
}.

(** [Date.now()] or [new Date()] *)
Definition readClock (w : World) : N * World :=
  (clock w (ticks w),
   {| reportsFile := reportsFile w; resultsFile := resultsFile w;
      writable := writable w; clock := clock w; ticks := S (ticks w) |}).

(** [readFile]: the array of the file, or [[]] when reading or
    parsing throws. *)
Definition readFile {A} (file : option (list A)) : list A := default [] file.

(** [writeFile]: the file holds [data] afterwards, or what it held
    when the write throws (the error is logged and dropped). *)
Definition writeFile {A} (w : World) (file : option (list A)) (data : list A)
    : option (list A) :=
  if writable w then Some data else file.

Definition setReports (w : World) (file : option (list Report)) : World :=
  {| reportsFile := file; resultsFile := resultsFile w;
     writable := writable w; clock := clock w; ticks := ticks w |}.

Definition setResults (w : World) (file : option (list Saved)) : World :=
  {| reportsFile := reportsFile w; resultsFile := file;
     writable := writable w; clock := clock w; ticks := ticks w |}.

Definition saveReport (w : World) (report : Report) : World * Report :=
  let reports := readFile (reportsFile w) in
  let '(now, w) := readClock w in
  let id := decimal now in
  let '(createdAt, w) := readClock w in
  let newReport := withId report id createdAt in
  (setReports w (writeFile w (reportsFile w) (reports ++ [newReport])),
   newReport).

Definition getReport (w : World) (id : jsstring) : option Report :=
  List.find (hasId id) (readFile (reportsFile w)).

Definition getAllReports (w : World) : list Report :=
  readFile (reportsFile w).

Definition saveResult (w : World) (result : Result) : World * Saved :=
  let results := readFile (resultsFile w) in
  let '(now, w) := readClock w in
  let id := decimal now in
  let '(createdAt, w) := readClock w in
  let newResult := mkSaved result id createdAt in
  (setResults w (writeFile w (resultsFile w) (results ++ [newResult])),
   newResult).

Definition getResult (w : World) (id : jsstring) : option Saved :=
  List.find (λ result, str_eqb (savedId result) id) (readFile (resultsFile w)).

(** [result.reportId === reportId] *)
Definition ofReport (reportId : jsstring) (result : Saved) : bool :=
  match reportIdOf (data result) with
  | Some r => str_eqb r reportId
  | None => false
  end.

Definition getResultsByReportId (w : World) (reportId : jsstring)
    : list Saved :=
  List.filter (ofReport reportId) (readFile (resultsFile w)).

Definition updateReportStatus (w : World) (reportId status : jsstring)
    : World * option Report :=
  let reports := readFile (reportsFile w) in
  match findIndex (hasId reportId) reports with
  | Some index =>
      match reports !! index with
      | Some report =>
          let '(updatedAt, w) := readClock w in
          let updated := withStatus report status updatedAt in
          (setReports w
             (writeFile w (reportsFile w) (<[index := updated]> reports)),
           Some updated)
      | None => (w, None)
      end
  | None => (w, None)
  end.

(** Every stored report carries as its id the decimal form of a
    reading of the clock made before now. *)
Definition stamped (w : World) : Prop :=
  ∀ report, report ∈ getAllReports w →
    ∃ k, (k < ticks w)%nat ∧ id report = Some (decimal (clock w k)).

End Store.

Arguments mkSaved {Result}.
Arguments data {Result}.
Arguments savedId {Result}.
Arguments savedAt {Result}.
Arguments mkWorld {Result}.
Arguments reportsFile {Result}.
Arguments resultsFile {Result}.
Arguments writable {Result}.
Arguments clock {Result}.
Arguments ticks {Result}.
Arguments readClock {Result}.
Arguments writeFile {Result A}.
Arguments setReports {Result}.
Arguments setResults {Result}.
Arguments saveReport {Result}.
Arguments getReport {Result}.
Arguments getAllReports {Result}.
Arguments saveResult {Result}.
Arguments getResult {Result}.
Arguments ofReport {Result}.
Arguments getResultsByReportId {Result}.
Arguments updateReportStatus {Result}.
Arguments stamped {Result}.

End LocalStorage.

(* ================================================================= *)
(** ** The handlers with the store

    [processFinNI] ([controllers/finniController.js]), [processFinCL]
    ([controllers/finclController.js]), the status route
    ([routes/status.js]) and [uploadFile]
    ([controllers/uploadController.js]), with the store they read and
    write. *)

Module Server.
Import JS Extraction Linking LocalStorage.

(** The results of this application are the records of the two
    stages. *)
Definition reportIdOf (result : ResultData.t) : option jsstring :=
  Some (ResultData.reportId result).

Definition World : Type := LocalStorage.World ResultData.t.

(** [getStatusMessage] of the status route. *)
Definition getStatusMessage (status : option jsstring) : jsstring :=
  match status with
  | Some s =>
      if str_eqb s (js "uploaded")
      then js "Document uploaded, waiting to start processing..."
      else if str_eqb s (js "processing") then js "Processing document..."
      else if str_eqb s (js "completed")
      then js "Processing completed successfully"
      else if str_eqb s (js "failed") then js "Processing failed"
      else js "Unknown status"
  | None => js "Unknown status"
  end.

(** The [data] of the answer of the status route. *)
Record StatusData := mkStatusData {
  reportStatus : option jsstring;
  results : option (list (Saved ResultData.t));
  message : jsstring
}.

Inductive StatusResponse :=
| StatusNotFound
| StatusFound (data : StatusData).

(** [GET /:reportId/status] *)
Definition statusRoute (w : World) (reportId : jsstring) : StatusResponse :=
  match getReport w reportId with
  | None => StatusNotFound
  | Some report =>
      let results := getResultsByReportId reportIdOf w reportId in
      StatusFound
        {| reportStatus := status report;
           results := match results with [] => None | _ => Some results end;
           message := getStatusMessage (status report) |}
  end.

(** What [processFinCL] answers: 200 with the record it saved. *)
Inductive FinCLResponse :=
| Linked200 (data : ResultData.t).

(** The file of an upload ([req.file]) and the fields of its form
    ([req.body]). *)
Record UploadedFile := mkUploadedFile {
  originalname : jsstring;
  path : jsstring
}.

(** What [uploadFile] answers: 400 without a file, else 200 with the
    report and, when the processing did not start, a warning. *)
Inductive UploadResponse :=
| Upload400
| Upload200 (data : Report) (warning : option jsstring).

(** [response.data] of the request to the extraction route:
    [success] and [message], [None] when the data has no such field
    (or when there is no data). *)
Record Reply := mkReply {
  success : option bool;
  replyMessage : option jsstring
}.

(** [savedReport.status = 'processing'] *)
Definition setStatus (report : Report) (status : jsstring) : Report :=
  {| id := id report; createdAt := createdAt report;
     updatedAt := updatedAt report; fileName := fileName report;
     fileType := fileType report; fileUrl := fileUrl report;
     status := Some status; metadata := metadata report |}.

Section Handlers.

Variable toLowerCase : jsstring -> jsstring.
Variable numberToString : number -> jsstring.
Variable parseEntities : jsstring -> result (option (list Raw.element)).
Variables promptHead promptTail : jsstring.
Variable extractionOracle : nat -> jsstring -> result jsstring.
Variable linkingPrompt : list Entity -> jsstring.
Variable parseMappings : jsstring -> result (option (list Mapping.t)).
Variable linkingOracle : nat -> nat -> jsstring -> result jsstring.
Variable env : Env.

(** [extractText(filePath)]: the text of the file at [filePath], the
    empty string when the file cannot be read or parsed (the function
    catches every error). *)
Variable extractText : option jsstring -> jsstring.

(** What the request [axios.post('http://localhost:5000/api/fincl',
    ...)] of [processFinNI] does to the store; a request that fails
    is caught and does nothing. *)
Variable postFinCL : World -> jsstring -> list Entity -> World.

Definition processFinCL (w : World) (reportId : jsstring)
    (entities : list Entity) : World * FinCLResponse :=
  let resultData :=
    Linking.processFinCL toLowerCase linkingPrompt parseMappings linkingOracle
      env reportId entities in
  let '(w, _) := saveResult w resultData in
  (w, Linked200 resultData).

(** The request to the linking route is handled by [processFinCL], or
    it fails and nothing happens. *)
Definition servedOrLost : Prop :=
  ∀ w reportId entities,
    postFinCL w reportId entities = w
    ∨ postFinCL w reportId entities = fst (processFinCL w reportId entities).

Definition processFinNI (w : World) (reportId : jsstring)
    : World * FinNIResponse :=
  match getReport w reportId with
  | None => (w, Status404)
  | Some report =>
      let text := extractText (fileUrl report) in
      match identifyNumericEntities toLowerCase numberToString parseEntities promptHead
              promptTail extractionOracle env text with
      | Ok entities =>
          let resultData := finniResultData reportId entities in
          let '(w, savedResult) := saveResult w resultData in
          let w := postFinCL w reportId entities in
          let '(w, _) := updateReportStatus w reportId (js "completed") in
          (w, Status200 resultData)
      | Throw (Err message) =>
          let '(w, _) :=
            match reportId with
            | [] => (w, None)
            | _ => updateReportStatus w reportId (js "failed")
            end in
          (w, Status500 message)
      end
  end.

(** [path.extname(name).toUpperCase().slice(1)] *)
Variable fileTypeOf : jsstring -> jsstring.

(** What the request [axios.post('http://localhost:5000/api/finni',
    ...)] of [uploadFile] does to the store, and what it returns: the
    reply, or what [axios] threw (it throws on an answer whose status
    is not 2xx). *)
Variable postFinNI : World -> jsstring -> World * result Reply.

(** [reportData] of [uploadFile]. *)
Definition reportDataOf (file : UploadedFile) (body : Metadata) : Report :=
  {| id := None; createdAt := None; updatedAt := None;
     fileName := Some (originalname file);
     fileType := Some (fileTypeOf (originalname file));
     fileUrl := Some (path file);
     status := Some (js "uploaded");
     metadata := Some body |}.

Definition uploadFile (w : World) (file : option UploadedFile)
    (body : Metadata) : World * UploadResponse :=
  match file with
  | None => (w, Upload400)
  | Some file =>
      let reportData := reportDataOf file body in
      let '(w, savedReport) := saveReport w reportData in
      match postFinNI w (default [] (id savedReport)) with
      | (w, Ok response) =>
          let savedReport := setStatus savedReport (js "processing") in
          let '(w, _) := saveReport w savedReport in
          match success response with
          | Some false =>
              (w, Upload200 savedReport
                    (Some (orStr (default [] (replyMessage response))
                             (js "FinNI processing failed"))))
          | _ => (w, Upload200 savedReport None)
          end
      | (w, Throw (Err message)) =>
          (w, Upload200 savedReport (Some message))
      end
  end.

End Handlers.

End Server.

(* ================================================================= *)
(** ** More concrete inputs *)

Module Cases.
Import JS Extraction Linking Scenarios.

(** A gold standard of two entities and the same two as predictions,
    in the other order. *)
Definition goldRate : Entity :=
  mkEntity (js "12.5") (js "percentage") None None None zero.
Definition goldPair : list Entity := [gold100; goldRate].
Definition predPair : list Entity := [goldRate; pred100].

(** A text without a digit. *)
Definition proseText : jsstring := js "Revenue grew strongly over the year".

(** A response of the extraction oracle with two entities, the second
    with a number as its value, the elements [JSON.parse] reads from
    it, and the same response between code fences; a response whose
    only element is [null]. *)
Definition entitiesJSON : jsstring :=
  js "{" ++ quoted "entities" ++ js ":[{"
  ++ quoted "value" ++ js ":" ++ quoted "1,200" ++ js ","
  ++ quoted "type" ++ js ":" ++ quoted "Monetary" ++ js ","
  ++ quoted "unit" ++ js ":" ++ quoted "USD"
  ++ js "},{"
  ++ quoted "value" ++ js ":2500,"
  ++ quoted "type" ++ js ":" ++ quoted "Shares"
  ++ js "}]}".

Definition rawRevenue : Raw.element :=
  Raw.object
    {| Raw.value := Some (Raw.JString (js "1,200"));
       Raw.type := Some (Raw.JString (js "Monetary"));
       Raw.description := None; Raw.unit := Some (js "USD");
       Raw.period := None; Raw.confidence := None |}.

Definition rawShares : Raw.element :=
  Raw.object
    {| Raw.value := Some (Raw.JNumber (ofZ 2500));
       Raw.type := Some (Raw.JString (js "Shares"));
       Raw.description := None; Raw.unit := None;
       Raw.period := None; Raw.confidence := None |}.

Definition nullJSON : jsstring := js "{" ++ quoted "entities" ++ js ":[null]}".

Definition readEntities (responseText : jsstring)
    : result (option (list Raw.element)) :=
  if str_eqb responseText entitiesJSON then Ok (Some [rawRevenue; rawShares])
  else if str_eqb responseText nullJSON then Ok (Some [Raw.null])
  else Throw (Err (js "Unexpected token")).


Definition nullOracle (i : nat) (prompt : jsstring) : result jsstring :=
  Ok nullJSON.

Definition fencedJSON : jsstring :=
  js "```json" ++ [10%N] ++ entitiesJSON ++ [10%N] ++ js "```".


(** Eighty entities, two full batches, and an oracle that answers
    every batch with forty mappings numbered from 0. *)
Definition entities80 : list Entity := replicate 80 revenueEntity.

Definition everyBatch (batchStart attempt : nat) (prompt : jsstring)
    : result jsstring :=
  Ok (responseFrom 0).

(** A store with no file yet, on a clock that advances by one
    millisecond at each reading. *)
Definition emptyStore : Server.World :=
  {| LocalStorage.reportsFile := None; LocalStorage.resultsFile := None;
     LocalStorage.writable := true;
     LocalStorage.clock := λ k, (N.of_nat k + 1700000000000)%N;
     LocalStorage.ticks := 0 |}.

Definition firstId : jsstring := js "1700000000000".

(** An uploaded file and the fields of its form. *)
Definition pdfFile : Server.UploadedFile :=
  {| Server.originalname := js "report.pdf";
     Server.path := js "uploads/1700000000000-report.pdf" |}.

Definition formFields : LocalStorage.Metadata :=
  {| LocalStorage.companyName := Some (js "Acme");
     LocalStorage.fiscalYear := Some (js "2024");
     LocalStorage.documentType := Some (js "10-K") |}.

Definition pdfType (name : jsstring) : jsstring := js "PDF".

(** The store after [saveReport] of the report of that file. *)
Definition oneReport : Server.World :=
  fst (LocalStorage.saveReport emptyStore
         (Server.reportDataOf pdfType pdfFile formFields)).

(** The text of every file is the text of the scenario. *)
Definition scenarioFile (filePath : option jsstring) : jsstring :=
  scenarioText.

(** The linking route without a credential, and the extraction route
    whose request to it gets through. *)
Definition linkingRoute (w : Server.World) (reportId : jsstring)
    (entities : list Entity) : Server.World :=
  fst (Server.processFinCL asciiLower anyPrompt readMappings everyBatch
         noKeyEnv w reportId entities).

Definition extractionRoute (w : Server.World) (reportId : jsstring)
    : Server.World * FinNIResponse :=
  Server.processFinNI asciiLower integerText rejectAll (js "Analyze: ") [] proseOracle
    noKeyEnv scenarioFile linkingRoute w reportId.

(** The request of [uploadFile] to the extraction route: the reply of
    a 200, and the error of [axios] on any other status. *)
Definition requestFinNI (w : Server.World) (reportId : jsstring)
    : Server.World * result Server.Reply :=
  match extractionRoute w reportId with
  | (w, Status200 _) =>
      (w, Ok {| Server.success := Some true;
                Server.replyMessage :=
                  Some (js "FinNI processing completed") |})
  | (w, Status404) =>
      (w, Throw (Err (js "Request failed with status code 404")))
  | (w, Status500 _) =>
      (w, Throw (Err (js "Request failed with status code 500")))
  end.

End Cases.

(* ================================================================= *)
(** * Properties of the matcher

    The fuel that the matcher and the loops around it recurse on is
    never used up: the results are those of the loops of the source. *)

Module RegexFacts.
Import JS Regex.

Lemma ahead_refl (s : mstate) : ahead s s.
Proof. split; lia. Qed.

Lemma ahead_trans (s1 s2 s3 : mstate) : ahead s1 s2 → ahead s2 s3 → ahead s1 s3.
Proof. unfold ahead. lia. Qed.

Lemma starLoop_progress
    (step : (mstate → option mstate) → mstate → option mstate) :
  (∀ k s out, step k s = Some out → ∃ s', ahead s s' ∧ k s' = Some out) →
  ∀ fuel k s out,
    starLoop step k fuel s = Some out → ∃ s', ahead s s' ∧ k s' = Some out.
Proof.
  intros Hstep. induction fuel as [|fuel IH]; intros k s out H; simpl in H.
  - exists s. split; [apply ahead_refl | done].
  - destruct (step _ s) as [out' |] eqn:Hs.
    + injection H as ->. apply Hstep in Hs as (s1 & H1 & Hk).
      destruct (pos s1 =? pos s)%nat; [done |].
      apply IH in Hk as (s2 & H2 & Hk). exists s2.
      split; [by apply (ahead_trans s s1 s2) | done].
    + exists s. split; [apply ahead_refl | done].
Qed.

(** The continuation of a match is called at a position at or after
    the one the match started from. *)
Lemma run_progress (r : regex) :
  ∀ k s out, run r k s = Some out → ∃ s', ahead s s' ∧ k s' = Some out.
Proof.
  induction r as [| p | a IHa b IHb | a IHa b IHb | a IHa | a IHa | | |];
    intros k s out H; cbn [run] in H.
  - exists s. split; [apply ahead_refl | done].
  - destruct s as [bf [|c t] p0 cp]; simpl in H; [done |].
    destruct (p c); [| done]. eexists. split; [| exact H].
    unfold ahead. simpl. lia.
  - apply IHa in H as (s1 & H1 & H). apply IHb in H as (s2 & H2 & H).
    exists s2. split; [by apply (ahead_trans s s1 s2) | done].
  - destruct (run a k s) eqn:Ha.
    + injection H as ->. by apply IHa.
    + by apply IHb.
  - by apply (starLoop_progress (run a) IHa) in H.
  - apply IHa in H as (s1 & H1 & H). eexists. split; [| exact H].
    unfold ahead in *. simpl. lia.
  - destruct (xorb _ _); [| done]. exists s. split; [apply ahead_refl | done].
  - destruct (pos s =? 0)%nat; [| done]. exists s. split; [apply ahead_refl | done].
  - destruct (rest s); [| done]. exists s. split; [apply ahead_refl | done].
Qed.

Lemma starLoop_ext
    (step : (mstate → option mstate) → mstate → option mstate) :
  (∀ k1 k2 s, (∀ s', ahead s s' → k1 s' = k2 s') → step k1 s = step k2 s) →
  ∀ fuel k1 k2 s,
    (∀ s', ahead s s' → k1 s' = k2 s') →
    starLoop step k1 fuel s = starLoop step k2 fuel s.
Proof.
  intros Hstep. induction fuel as [|fuel IH]; intros k1 k2 s Hk; simpl.
  - apply Hk, ahead_refl.
  - rewrite (Hk s (ahead_refl s)).
    erewrite Hstep; [reflexivity |]. intros s1 H1. simpl.
    destruct (pos s1 =? pos s)%nat; [done |]. apply IH.
    intros s2 H2. apply Hk. by apply (ahead_trans s s1 s2).
Qed.

(** A match depends on its continuation only at the positions at or
    after its start. *)
Lemma run_ext (r : regex) :
  ∀ k1 k2 s, (∀ s', ahead s s' → k1 s' = k2 s') → run r k1 s = run r k2 s.
Proof.
  induction r as [| p | a IHa b IHb | a IHa b IHb | a IHa | a IHa | | |];
    intros k1 k2 s Hk; cbn [run].
  - apply Hk, ahead_refl.
  - destruct s as [bf [|c t] p0 cp]; simpl; [done |].
    destruct (p c); [| done]. apply Hk. unfold ahead. simpl. lia.
  - apply IHa. intros s1 H1. apply IHb. intros s2 H2. apply Hk.
    by apply (ahead_trans s s1 s2).
  - rewrite (IHa k1 k2 s Hk), (IHb k1 k2 s Hk). done.
  - by apply (starLoop_ext (run a) IHa).
  - apply IHa. intros s1 H1. apply Hk. unfold ahead in *. simpl. lia.
  - destruct (xorb _ _); [| done]. apply Hk, ahead_refl.
  - destruct (pos s =? 0)%nat; [| done]. apply Hk, ahead_refl.
  - destruct (rest s); [| done]. apply Hk, ahead_refl.
Qed.

(** The fuel of the loop of a starred expression is never used up. *)
Lemma starLoop_fuel (a : regex) (k : mstate → option mstate) :
  ∀ fuel1 fuel2 s,
    (length (rest s) < fuel1)%nat → (length (rest s) < fuel2)%nat →
    starLoop (run a) k fuel1 s = starLoop (run a) k fuel2 s.
Proof.
  induction fuel1 as [|fuel1 IH]; intros [|fuel2] s H1 H2; try lia. simpl.
  erewrite run_ext; [reflexivity |]. intros s1 [Hlen Hpos]. simpl.
  destruct (Nat.eqb_spec (pos s1) (pos s)) as [Heq | Hne]; [done |].
  apply IH; lia.
Qed.

(** The equation of a starred expression: one more iteration that
    consumes something and then the star again, or else the
    continuation. *)
Theorem star_unfold (a : regex) (k : mstate → option mstate) (s : mstate) :
  run (Star a) k s
  = match run a (λ s', if (pos s' =? pos s)%nat then None
                        else run (Star a) k s') s with
    | Some out => Some out
    | None => k s
    end.
Proof.
  cbn [run].
  transitivity
    (match run a (λ s', if (pos s' =? pos s)%nat then None
                        else starLoop (run a) k (length (rest s)) s') s with
     | Some out => Some out
     | None => k s
     end); [reflexivity |].
  erewrite run_ext; [reflexivity |]. intros s1 [Hlen Hpos]. cbv beta.
  destruct (Nat.eqb_spec (pos s1) (pos s)) as [Heq | Hne]; [done |].
  apply starLoop_fuel; lia.
Qed.

Lemma run_consumes (r : regex) :
  consumes r = true →
  ∀ k s out, run r k s = Some out →
    ∃ s', ahead s s' ∧ (pos s < pos s')%nat ∧ k s' = Some out.
Proof.
  induction r as [| p | a IHa b IHb | a IHa b IHb | a IHa | a IHa | | |];
    intros Hc k s out H; cbn [run consumes] in Hc, H; try done.
  - destruct s as [bf [|c t] p0 cp]; simpl in H; [done |].
    destruct (p c); [| done]. eexists. split; [| split; [| exact H]].
    + unfold ahead. simpl. lia.
    + simpl. lia.
  - apply orb_true_iff in Hc as [Hc | Hc].
    + apply (IHa Hc) in H as (s1 & H1 & Hlt & H).
      apply run_progress in H as (s2 & H2 & H). exists s2.
      split; [by apply (ahead_trans s s1 s2) |]. split; [| done].
      destruct H2. lia.
    + apply run_progress in H as (s1 & H1 & H).
      apply (IHb Hc) in H as (s2 & H2 & Hlt & H). exists s2.
      split; [by apply (ahead_trans s s1 s2) |]. split; [| done].
      destruct H1. lia.
  - apply andb_true_iff in Hc as [Hca Hcb]. destruct (run a k s) eqn:Ha.
    + injection H as ->. by apply IHa.
    + by apply IHb.
  - apply (IHa Hc) in H as (s1 & H1 & Hlt & H). eexists.
    split; [| split; [| exact H]]; [unfold ahead in *; simpl; lia | simpl; lia].
Qed.

(** A match of such an expression ends after it starts, and leaves
    less of the input than there was. *)
Lemma searchFrom_shorter (r : regex) :
  consumes r = true →
  ∀ t b p m, searchFrom r b t p = Some m →
    (length (rest (stop m)) < length t)%nat.
Proof.
  intros Hc. induction t as [|c t IH]; intros b p m H; simpl in H.
  - destruct (run r Some _) as [out |] eqn:Hr; [| done].
    apply (run_consumes r Hc) in Hr as (s' & [Hlen Hpos] & Hlt & _).
    simpl in *. lia.
  - destruct (run r Some _) as [out |] eqn:Hr.
    + injection H as <-. simpl.
      apply (run_consumes r Hc) in Hr as (s' & [Hlen Hpos] & Hlt & [= ->]).
      simpl in *. lia.
    + apply IH in H. simpl. lia.
Qed.

(** The fuel of the [exec] loop is never used up: any fuel above the
    length of what is left gives the same matches. *)
Theorem execLoop_fuel (r : regex) :
  consumes r = true →
  ∀ fuel1 fuel2 t b p,
    (length t < fuel1)%nat → (length t < fuel2)%nat →
    execLoop fuel1 r b t p = execLoop fuel2 r b t p.
Proof.
  intros Hc. induction fuel1 as [|fuel1 IH]; intros [|fuel2] t b p H1 H2;
    try lia. simpl.
  destruct (searchFrom r b t p) as [m |] eqn:Hm; [| done].
  apply (searchFrom_shorter r Hc) in Hm. f_equal. apply IH; lia.
Qed.

Lemma extractor_regexes_consume :
  consumes Extraction.moneyRegex = true
  ∧ consumes Extraction.pctRegex = true
  ∧ consumes Extraction.numRegex = true.
Proof. repeat split. Qed.

(** The fuel of the global [replace] is never used up. *)
Theorem removeLoop_fuel (r : regex) :
  ∀ fuel1 fuel2 t b p,
    (length t < fuel1)%nat → (length t < fuel2)%nat →
    removeLoop fuel1 r b t p = removeLoop fuel2 r b t p.
Proof.
  induction fuel1 as [|fuel1 IH]; intros [|fuel2] t b p H1 H2; try lia. simpl.
  destruct (run r Some _) as [out |] eqn:Hr.
  - destruct (Nat.eqb_spec (pos out) p) as [Heq | Hne].
    + destruct t as [|c t]; [done |]. f_equal. apply IH; simpl in *; lia.
    + apply run_progress in Hr as (s' & [Hlen Hpos] & [= ->]).
      simpl in *. apply IH; lia.
  - destruct t as [|c t]; [done |]. f_equal. apply IH; simpl in *; lia.
Qed.

End RegexFacts.

(* ================================================================= *)
(** * Properties of the extractor *)

Module DedupFacts.
Import JS Extraction Spec.

Lemma dedupLoop_sound (l : list Entity) :
  ∀ (seen : gset jsstring) (e : Entity),
    e ∈ dedupLoop seen l → (key e ∉ seen) ∧ e ∈ l.
Proof.
  induction l as [|a l IH]; simpl; intros seen e He.
  - by apply elem_of_nil in He.
  - case_decide as Ha.
    + destruct (IH _ _ He) as [? ?]. split; [done | by apply elem_of_cons; right].
    + apply elem_of_cons in He as [-> | He].
      * split; [done | by apply elem_of_cons; left].
      * destruct (IH _ _ He) as [Hk ?].
        apply not_elem_of_union in Hk as [_ Hk].
        split; [done | by apply elem_of_cons; right].
Qed.

Lemma dedupLoop_NoDup (l : list Entity) :
  ∀ seen : gset jsstring, NoDup (key <$> dedupLoop seen l).
Proof.
  induction l as [|a l IH]; simpl; intros seen.
  - constructor.
  - case_decide as Ha; [apply IH |].
    rewrite fmap_cons. apply NoDup_cons. split; [| apply IH].
    intros Hin. apply list_elem_of_fmap in Hin as (e & Hk & He).
    apply dedupLoop_sound in He as [Hfresh _]. set_solver.
Qed.

Lemma dedupLoop_fixed (l : list Entity) :
  ∀ seen : gset jsstring,
    NoDup (key <$> l) → (∀ e, e ∈ l → key e ∉ seen) →
    dedupLoop seen l = l.
Proof.
  induction l as [|a l IH]; intros seen Hnd Hfresh; [done |].
  rewrite fmap_cons in Hnd. apply NoDup_cons in Hnd as [Ha Hnd]. simpl.
  case_decide as Hin.
  - exfalso. apply (Hfresh a); [by apply elem_of_cons; left | done].
  - f_equal. apply IH; [done |].
    intros e He Hk. apply elem_of_union in Hk as [Hk | Hk].
    + apply elem_of_singleton in Hk. apply Ha. rewrite <- Hk.
      by apply list_elem_of_fmap_2.
    + apply (Hfresh e); [by apply elem_of_cons; right | done].
Qed.

Lemma dedup_idempotent (l : list Entity) : dedup (dedup l) = dedup l.
Proof.
  unfold dedup. apply dedupLoop_fixed; [apply dedupLoop_NoDup |].
  intros e _. apply not_elem_of_empty.
Qed.

(** Two strings cut at their last [x] agree on both sides of it. *)
Lemma app_last_sep (x : N) (t1 t2 : list N) :
  x ∉ t1 → x ∉ t2 →
  ∀ l1 l2 : list N, l1 ++ x :: t1 = l2 ++ x :: t2 → l1 = l2 ∧ t1 = t2.
Proof.
  intros H1 H2. induction l1 as [|a l1 IH]; intros [|b l2] Heq; simpl in Heq.
  - by inversion Heq.
  - inversion Heq; subst. exfalso. apply H1. apply elem_of_app. right.
    by apply elem_of_cons; left.
  - inversion Heq; subst. exfalso. apply H2. apply elem_of_app. right.
    by apply elem_of_cons; left.
  - inversion Heq; subst. destruct (IH l2) as [-> ->]; done.
Qed.

(** On entities whose type has no bar, the key determines the pair. *)
Lemma key_inj (e1 e2 : Entity) :
  bar ∉ type e1 → bar ∉ type e2 → key e1 = key e2 →
  value e1 = value e2 ∧ type e1 = type e2.
Proof.
  intros H1 H2 Hk. unfold key in Hk.
  change (js "||") with [bar; bar] in Hk. simpl in Hk.
  change (value e1 ++ bar :: bar :: type e1)
    with (value e1 ++ [bar] ++ bar :: type e1) in Hk.
  change (value e2 ++ bar :: bar :: type e2)
    with (value e2 ++ [bar] ++ bar :: type e2) in Hk.
  rewrite !app_assoc in Hk.
  apply (app_last_sep bar _ _ H1 H2) in Hk as [Hv Ht].
  apply app_inj_tail in Hv as [Hv _]. done.
Qed.

Lemma dedupLoop_refines (l : list Entity) :
  Forall (λ e, bar ∉ type e) l →
  ∀ (seen : gset jsstring) (pairs : list (jsstring * jsstring)),
    (∀ e, bar ∉ type e → key e ∈ seen ↔ (value e, type e) ∈ pairs) →
    dedupLoop seen l = keepFirstLoop pairs l.
Proof.
  induction 1 as [|a l Ha Hl IH]; simpl; intros seen pairs Hrel; [done |].
  destruct (decide (key a ∈ seen)) as [Hin | Hin];
    destruct (decide ((value a, type a) ∈ pairs)) as [Hp | Hp].
  - by apply IH.
  - exfalso. apply Hp. by apply Hrel.
  - exfalso. apply Hin. by apply Hrel.
  - f_equal. apply IH. intros e He. rewrite elem_of_union, elem_of_singleton,
      elem_of_cons, (Hrel e He). split; intros [Hk | Hk]; auto; left.
    + destruct (key_inj e a He Ha Hk) as [-> ->]. done.
    + inversion Hk as [[Hv Ht]]. unfold key. by rewrite Hv, Ht.
Qed.

Lemma dedup_refines (l : list Entity) :
  Forall (λ e, bar ∉ type e) l → dedup l = keepFirstByPair l.
Proof.
  intros Hl. apply dedupLoop_refines; [done |].
  intros e _. split; intros H.
  - by apply not_elem_of_empty in H.
  - by apply elem_of_nil in H.
Qed.

(** Every candidate of the three passes has one of the five literal
    types, none of which has a bar. *)
Lemma candidates_types (inputText : jsstring) :
  Forall (λ e, bar ∉ type e) (candidates inputText).
Proof.
  unfold candidates. rewrite !Forall_app. repeat split.
  - apply Forall_forall. intros e He. apply list_elem_of_In, in_map_iff in He.
    destruct He as (m & <- & _). simpl. compute_done.
  - apply Forall_forall. intros e He. apply list_elem_of_In, in_map_iff in He.
    destruct He as (m & <- & _). simpl. compute_done.
  - apply Forall_forall. intros e He. apply list_elem_of_In, in_map_iff in He.
    destruct He as (m & <- & _). unfold numEntity.
    destruct (Regex.test sharesRegex _); [| destruct (Regex.test dateRegex _)];
      simpl; compute_done.
Qed.

End DedupFacts.

Module ExtractionFacts.
Import JS Extraction Spec Scenarios DedupFacts.

Section OraclePath.

Variable toLowerCase : jsstring -> jsstring.
Variable numberToString : number -> jsstring.
Variable JSON_parse : jsstring -> result (option (list Raw.element)).
Variables promptHead promptTail : jsstring.
Variable oracle : nat -> jsstring -> result jsstring.

Local Abbreviation identify :=
  (identifyNumericEntities toLowerCase numberToString JSON_parse promptHead promptTail oracle).
Local Abbreviation attemptFails := (AttemptFails JSON_parse oracle).
Local Abbreviation attempt := (makeApiCall JSON_parse oracle).

Lemma identify_local (env : Env) (text : jsstring) :
  useLocal env = true →
  identify env text = Ok (ruleBasedNumericExtraction text).
Proof. intros H. unfold identifyNumericEntities. by rewrite H. Qed.

Lemma useLocal_no_key (env : Env) : hasKey env = false → useLocal env = true.
Proof. intros H. unfold useLocal. rewrite H. apply orb_true_r. Qed.

Lemma useLocal_flag (env : Env) :
  USE_LOCAL_EXTRACTION env = Some (js "true") → useLocal env = true.
Proof. intros H. unfold useLocal. by rewrite H. Qed.

(** The extraction always returns: no path of it throws. *)
Lemma identify_total (env : Env) (text : jsstring) :
  ∃ entities, identify env text = Ok entities.
Proof.
  unfold identifyNumericEntities. destruct (useLocal env); [eauto |].
  unfold tryCatch at 1.
  match goal with |- context [match ?body with Ok _ => _ | Throw _ => _ end] =>
    destruct body end; eauto.
Qed.

(** When the [try] block throws, the [catch] block answers with the
    local extraction over the whole text. *)
Lemma identify_fallback (env : Env) (text : jsstring) (e : Error) :
  callGeminiAPI JSON_parse oracle env (promptHead ++ text ++ promptTail) 2
    = Throw e →
  identify env text = Ok (ruleBasedNumericExtraction text).
Proof.
  intros H. unfold identifyNumericEntities.
  destruct (useLocal env); [done |]. by rewrite H.
Qed.

Lemma attempt_fails (prompt : jsstring) (i : nat) :
  attemptFails prompt i → ∃ e, attempt prompt i = Throw e.
Proof.
  unfold makeApiCall. intros [e H | raw H Hb Hk | raw e H Hp | raw H Hp];
    rewrite H; simpl.
  - eauto.
  - rewrite Hb, Hk. simpl. eauto.
  - destruct (negb _ && negb _); [eauto |]. rewrite Hp. destruct e. simpl. eauto.
  - destruct (negb _ && negb _); [eauto |]. rewrite Hp. simpl. eauto.
Qed.

Lemma attemptsFrom_fail (prompt : jsstring) (n : nat) :
  ∀ i, (∀ j, (i ≤ j ≤ i + n)%nat → attemptFails prompt j) →
       ∃ e, attemptsFrom JSON_parse oracle prompt n i = Throw e.
Proof.
  induction n as [|n IH]; intros i Hall; simpl.
  - destruct (attempt_fails prompt i) as [e ->]; [apply Hall; lia | eauto].
  - destruct (attempt_fails prompt i) as [e ->]; [apply Hall; lia |].
    apply IH. intros j Hj. apply Hall. lia.
Qed.

Lemma callGeminiAPI_fail (env : Env) (prompt : jsstring) :
  (∀ i, (i ≤ 2)%nat → attemptFails prompt i) →
  ∃ e, callGeminiAPI JSON_parse oracle env prompt 2 = Throw e.
Proof.
  intros Hall. unfold callGeminiAPI. destruct (hasKey env); [| eauto].
  apply attemptsFrom_fail. intros j Hj. apply Hall. lia.
Qed.

(** C4: the extraction never fails its caller; without a credential,
    with the local-extraction flag set, or when each of the three
    oracle attempts fails (the client throws, the response ends in
    neither a brace nor a bracket, is not JSON, or has no entities
    array), it returns the local extraction over the whole text. *)
Theorem extraction_never_fails (env : Env) (text : jsstring) :
  (∃ entities, identify env text = Ok entities)
  ∧ (hasKey env = false →
     identify env text = Ok (ruleBasedNumericExtraction text))
  ∧ (USE_LOCAL_EXTRACTION env = Some (js "true") →
     identify env text = Ok (ruleBasedNumericExtraction text))
  ∧ ((∀ i, (i ≤ 2)%nat →
        attemptFails (promptHead ++ text ++ promptTail) i) →
     identify env text = Ok (ruleBasedNumericExtraction text)).
Proof.
  repeat split.
  - apply identify_total.
  - intros H. by apply identify_local, useLocal_no_key.
  - intros H. by apply identify_local, useLocal_flag.
  - intros Hall. destruct (callGeminiAPI_fail env _ Hall) as [e He].
    by apply (identify_fallback env text e).
Qed.

(** [array.map] with a callback that throws: when it returns, every
    call has returned and the results are in the order of the
    elements; it throws exactly when some call throws. *)
Lemma mapThrowing_returns {A B} (f : A → result B) (items : list A)
    (out : list B) :
  mapThrowing f items = Ok out → Forall2 (λ item o, f item = Ok o) items out.
Proof.
  revert out. induction items as [|item more IH]; intros out; simpl.
  - intros [= <-]. constructor.
  - destruct (f item) as [first |] eqn:Hfirst; simpl; [| done].
    destruct (mapThrowing f more) as [others |]; simpl; [| done].
    intros [= <-]. constructor; [done | by apply IH].
Qed.

Lemma mapThrowing_throws {A B} (f : A → result B) (items : list A) :
  (∃ err, mapThrowing f items = Throw err)
  ↔ Exists (λ item, ∃ err, f item = Throw err) items.
Proof.
  induction items as [|item more IH]; simpl.
  - split; [by intros [err H] | by intros H%Exists_nil].
  - rewrite Exists_cons, <- IH.
    destruct (f item) as [first | err]; simpl; [| by split; eauto].
    destruct (mapThrowing f more) as [others | err]; simpl.
    + split; [by intros [err H] |]. by intros [[err H] | [err H]].
    + split; eauto.
Qed.


(** The elements on which the callback throws. *)
Lemma normalize_throws (element : Raw.element) :
  (∃ err, normalize toLowerCase numberToString element = Throw err)
  ↔ element = Raw.null
    ∨ ∃ raw, element = Raw.object raw
        ∧ ((∃ err, toString numberToString (orEmpty (Raw.value raw))
                   = Throw err)
           ∨ ∀ s, orEmpty (Raw.type raw) ≠ Raw.JString s).
Proof.
  destruct element as [| raw]; simpl.
  - split; [by left | eauto].
  - split.
    + intros [err H]. right. exists raw. split; [done |].
      destruct (toString _ _) as [valueText | err']; simpl in H; [| eauto].
      right. intros s Hs. unfold lowerCased in H. by rewrite Hs in H.
    + intros [H | (raw' & [= <-] & [[err H] | H])]; [done | |].
      * rewrite H. simpl. eauto.
      * destruct (toString _ _) as [valueText | err']; simpl; [| eauto].
        unfold lowerCased.
        destruct (orEmpty (Raw.type raw)) as [| | | s | |]; simpl; eauto.
        by destruct (H s).
Qed.

(** The oracle path, from the text that [callGeminiAPI] returned and
    the elements of its second parse: the post-processed elements, or
    the local extraction when the post-processing throws. *)
Lemma identify_oracle (env : Env) (text t : jsstring)
    (elements : list Raw.element) :
  useLocal env = false →
  callGeminiAPI JSON_parse oracle env (promptHead ++ text ++ promptTail) 2
    = Ok t →
  JSON_parse (sanitize t) = Ok (Some elements) →
  identify env text
  = Ok (match mapThrowing (normalize toLowerCase numberToString) elements with
        | Ok out => out
        | Throw _ => ruleBasedNumericExtraction text
        end).
Proof.
  intros Hlocal Hcall Hparse. unfold identifyNumericEntities.
  rewrite Hlocal, Hcall. simpl. rewrite Hparse. simpl.
  by destruct (mapThrowing _ _).
Qed.


(** The record of the extraction stage carries constants, whatever
    the entities are. *)
Lemma finni_metrics_constant (reportId : jsstring) (entities : list Entity) :
  ResultData.metrics (finniResultData reportId entities)
    = Metrics.mk (dec 95 2) (dec 92 2) (dec 93 2) (dec 94 2)
  ∧ ResultData.processingTime (finniResultData reportId entities) = ofZ 1000.
Proof. done. Qed.

Lemma processFinNI_answer (env : Env) (reportId text : jsstring) :
  ∃ entities,
    processFinNI toLowerCase numberToString JSON_parse promptHead promptTail oracle
      env reportId (Some text)
    = Status200 (finniResultData reportId entities).
Proof.
  unfold processFinNI. destruct (identify_total env text) as [es ->]. eauto.
Qed.

End OraclePath.

(** C8: the deduplication of the local extractor keeps the first
    entity of each (value, type) pair and is idempotent. *)
Theorem dedup_first_of_each_pair_idempotent :
  (∀ entities, dedup (dedup entities) = dedup entities)
  ∧ (∀ entities,
       Forall (λ e, bar ∉ type e) entities →
       dedup entities = keepFirstByPair entities)
  ∧ (∀ inputText,
       ruleBasedNumericExtraction inputText
       = keepFirstByPair (candidates inputText)).
Proof.
  split; [exact dedup_idempotent |]. split; [exact dedup_refines |].
  intros inputText. apply dedup_refines, candidates_types.
Qed.

(** C2, as the code has it: on the text of the scenario the local
    extractor returns five entities, the three of the specification
    and, from the plain-number pass, 1234.56 as a count and 12.5 as
    shares. *)
Theorem scenario_yields_five_entities :
  ruleBasedNumericExtraction scenarioText = scenarioEntities
  ∧ ∀ toLowerCase numberToString JSON_parse promptHead promptTail oracle,
      identifyNumericEntities toLowerCase numberToString JSON_parse promptHead promptTail
        oracle localEnv scenarioText
      = Ok scenarioEntities.
Proof.
  assert (H : ruleBasedNumericExtraction scenarioText = scenarioEntities)
    by (vm_compute; reflexivity).
  split; [exact H |]. intros. rewrite identify_local; [by rewrite H | done].
Qed.

(** C2, as the specification states it, does not hold: the result
    does not have exactly three entities. *)
Lemma scenario_not_three_entities :
  length (ruleBasedNumericExtraction scenarioText) ≠ 3%nat.
Proof. vm_compute. discriminate. Qed.

End ExtractionFacts.

(* ================================================================= *)
(** * Properties of binary64 arithmetic

    Rounding keeps the sign it is given and never takes a positive
    value whose exponent is at least [emin] down to zero; so a quotient
    of counts is [NaN], [+0] or positive, and a sum of such quotients
    is zero only when both are. *)

Module NumberFacts.
Import JS.

Lemma emin_value : emin = -1074.
Proof. reflexivity. Qed.

Lemma fexp_value (e : Z) : fexp prec emax e = Z.max (e - 53) (-1074).
Proof. reflexivity. Qed.

Lemma digits2_pos_bound (m : positive) :
  2 ^ (Zpos (digits2_pos m) - 1) <= Zpos m.
Proof.
  induction m as [m IH | m IH |]; simpl digits2_pos.
  - rewrite Pos2Z.inj_succ. replace (Z.succ (Z.pos (digits2_pos m)) - 1) with (Z.succ (Z.pos (digits2_pos m) - 1)) by lia.
    rewrite Z.pow_succ_r by lia. lia.
  - rewrite Pos2Z.inj_succ. replace (Z.succ (Z.pos (digits2_pos m)) - 1) with (Z.succ (Z.pos (digits2_pos m) - 1)) by lia.
    rewrite Z.pow_succ_r by lia. lia.
  - simpl. lia.
Qed.

Lemma shr_1_m (mrs : shr_record) :
  0 <= shr_m mrs → shr_m (shr_1 mrs) = shr_m mrs / 2.
Proof.
  destruct mrs as [m r s]. simpl. intros Hm.
  destruct m as [|p|p]; [reflexivity | | lia].
  destruct p as [p|p|]; simpl.
  - rewrite Pos2Z.inj_xI. apply Z.div_unique with (r := 1); lia.
  - rewrite Pos2Z.inj_xO. apply Z.div_unique with (r := 0); lia.
  - reflexivity.
Qed.

Lemma iter_shr_1_m (n : positive) :
  ∀ mrs, 0 <= shr_m mrs →
    shr_m (SpecFloat.iter_pos shr_1 n mrs) = shr_m mrs / 2 ^ Zpos n.
Proof.
  induction n as [n IH | n IH |]; intros mrs Hm; simpl SpecFloat.iter_pos.
  - assert (H1 : 0 <= shr_m (shr_1 mrs)) by (rewrite shr_1_m by done; apply Z.div_pos; lia).
    assert (H2 : 0 <= shr_m (SpecFloat.iter_pos shr_1 n (shr_1 mrs))) by (rewrite IH by done; apply Z.div_pos; lia).
    rewrite IH, IH, shr_1_m by done.
    rewrite !Z.div_div by lia. f_equal.
    rewrite Pos2Z.inj_xI, <- Z.pow_add_r, <- (Z.pow_1_r 2) at 1 by lia.
    rewrite <- Z.pow_add_r by lia. f_equal. lia.
  - assert (H2 : 0 <= shr_m (SpecFloat.iter_pos shr_1 n mrs)) by (rewrite IH by done; apply Z.div_pos; lia).
    rewrite IH, IH by done. rewrite Z.div_div by lia. f_equal.
    rewrite Pos2Z.inj_xO, <- Z.pow_add_r by lia. f_equal. lia.
  - rewrite shr_1_m by done. reflexivity.
Qed.

(** The first component of a right shift keeps a positive mantissa
    positive as long as the exponent is at least [emin]. *)
Lemma shr_fexp_pos (m : positive) (e : Z) (l : location) :
  emin <= e →
  0 < shr_m (fst (shr_fexp prec emax (Zpos m) e l))
  ∧ emin <= snd (shr_fexp prec emax (Zpos m) e l).
Proof.
  intros He. unfold shr_fexp, shr.
  assert (Hrec : shr_m (shr_record_of_loc (Zpos m) l) = Zpos m)
    by (destruct l as [|[]]; reflexivity).
  rewrite fexp_value. simpl Zdigits2.
  pose proof (digits2_pos_bound m) as Hd.
  rewrite emin_value in He.
  destruct (Z.max (Z.pos (digits2_pos m) + e - 53) (-1074) - e) as [|n|n] eqn:Hn;
    simpl; rewrite ?Hrec, ?emin_value; try lia.
  rewrite iter_shr_1_m by (rewrite Hrec; lia). rewrite Hrec. split; [| lia].
  apply Z.div_str_pos. split; [apply Z.pow_pos_nonneg; lia |].
  etransitivity; [| exact Hd]. apply Z.pow_le_mono_r; lia.
Qed.

Lemma shr_fexp_emin (m e : Z) (l : location) :
  emin <= snd (shr_fexp prec emax m e l).
Proof.
  unfold shr_fexp, shr. rewrite fexp_value, emin_value.
  destruct (Z.max (Zdigits2 m + e - 53) (-1074) - e) as [|n|n] eqn:Hn; simpl; lia.
Qed.

Lemma round_nearest_even_pos (m : Z) (l : location) :
  0 < m → 0 < round_nearest_even m l.
Proof.
  intros Hm. destruct l as [|[]]; simpl; try lia. destruct (Z.even m); lia.
Qed.

Lemma round_aux_signed (s : bool) (m e : Z) (l : location) :
  signed s (binary_round_aux prec emax s m e l).
Proof.
  unfold binary_round_aux.
  destruct (shr_fexp prec emax m e l) as [mrs' e'].
  pose proof (shr_fexp_emin (round_nearest_even (shr_m mrs') (loc_of_shr_record mrs')) e' loc_Exact) as He.
  destruct (shr_fexp prec emax _ e' loc_Exact) as [mrs'' e'']. simpl in He.
  destruct (shr_m mrs''); try constructor.
  destruct (e'' <=? emax - prec); constructor. exact He.
Qed.

Lemma round_aux_positive (m : positive) (e : Z) (l : location) :
  emin <= e → positive_number (binary_round_aux prec emax false (Zpos m) e l).
Proof.
  intros He. unfold binary_round_aux.
  destruct (shr_fexp_pos m e l He) as [Hm1 He1].
  destruct (shr_fexp prec emax (Zpos m) e l) as [mrs' e']. simpl in Hm1, He1.
  pose proof (round_nearest_even_pos _ (loc_of_shr_record mrs') Hm1) as Hr.
  destruct (round_nearest_even (shr_m mrs') (loc_of_shr_record mrs')) as [|m2|m2]; try lia.
  destruct (shr_fexp_pos m2 e' loc_Exact He1) as [Hm2 He2].
  destruct (shr_fexp prec emax (Zpos m2) e' loc_Exact) as [mrs'' e'']. simpl in Hm2, He2.
  destruct (shr_m mrs''); try lia.
  destruct (e'' <=? emax - prec); constructor. exact He2.
Qed.

Lemma ofNat_signed (n : nat) : signed false (ofNat n).
Proof.
  unfold ofNat, ofZ, binary_normalize. destruct (Z.of_nat n) as [|p|p] eqn:E.
  - constructor.
  - unfold binary_round. destruct (shl_align _ _ _). apply round_aux_signed.
  - lia.
Qed.

Lemma div_signed (x y : number) :
  signed false x → signed false y → signed false (div x y).
Proof.
  intros [| | |mx ex Hx] [| | |my ey Hy]; simpl; try constructor.
  unfold div, SFdiv. destruct (SFdiv_core_binary _ _ _ _ _ _) as [[mz ez] lz].
  apply round_aux_signed.
Qed.

Lemma orNum_nonneg (x : number) : signed false x → nonneg (orNum x zero).
Proof.
  intros [| | |m e He]; simpl; [by left | right; constructor | by left |].
  right. by constructor.
Qed.

(** The sum of two positive numbers is positive. *)
Lemma add_positive (x y : number) :
  positive_number x → positive_number y → positive_number (add x y).
Proof.
  intros [mx ex Hx|] [my ey Hy|]; simpl; try constructor.
  assert (Hz : emin <= IntDef.Z.min ex ey) by (apply Z.min_glb; lia).
  generalize dependent (IntDef.Z.min ex ey). intros ez Hz.
  generalize ((shl_align mx ex ez).1 + (shl_align my ey ez).1)%positive.
  intros k. unfold binary_round, shl_align. rewrite fexp_value.
  destruct (Z.max _ _ - ez) eqn:Hs; apply round_aux_positive;
    rewrite emin_value in *; lia.
Qed.

Lemma eqb_positive_zero (x : number) : positive_number x → eqb x zero = false.
Proof. by intros [m e He|]. Qed.

Lemma add_nonneg_zero (p r : number) :
  nonneg p → nonneg r → eqb (add p r) zero = true → p = zero ∧ r = zero.
Proof.
  intros [-> | Hp] [-> | Hr] H; [done | | |].
  - exfalso. assert (Hadd : add zero r = r) by (by destruct Hr).
    rewrite Hadd, eqb_positive_zero in H; done.
  - exfalso. assert (Hadd : add p zero = p) by (by destruct Hp).
    rewrite Hadd, eqb_positive_zero in H; done.
  - exfalso. rewrite eqb_positive_zero in H; [done | by apply add_positive].
Qed.

(** [x - x] is [+0] for a finite [x] and [NaN] otherwise. *)
Lemma sub_self_close (x c : number) :
  positive_number c → ltb (abs (sub x x)) c = isFinite x.
Proof.
  intros Hc. destruct x as [s | s | | s m e]; simpl.
  - destruct s; by destruct Hc.
  - by destruct s.
  - done.
  - unfold sub, SFsub. rewrite Z.sub_diag. simpl. by destruct Hc.
Qed.

Lemma str_eqb_eq (a b : jsstring) : str_eqb a b = true ↔ a = b.
Proof.
  revert b. induction a as [|x a IH]; intros [|y b]; simpl; try done.
  rewrite andb_true_iff, N.eqb_eq, IH. split; [by intros [-> ->] |].
  by inversion 1.
Qed.

End NumberFacts.

(* ================================================================= *)
(** * Properties of the evaluation *)

Module EvaluationFacts.
Import JS Evaluation Spec Scenarios NumberFacts.

Lemma c001_positive : positive_number c001.
Proof. vm_compute. constructor. vm_compute. discriminate. Qed.

(** The rule of the code: the two values are the same string, the two
    types are the same string, and that value parses to a finite
    number. *)
Lemma isMatching_iff (pred gold : Entity) :
  _isMatchingEntity pred gold = true
  ↔ value pred = value gold ∧ type pred = type gold
    ∧ isFinite (parseFloat (value gold)) = true.
Proof.
  unfold _isMatchingEntity. rewrite !andb_true_iff, !str_eqb_eq.
  split.
  - intros [[Hv Ht] Hd]. rewrite Hv in Hd.
    rewrite (sub_self_close _ _ c001_positive) in Hd. done.
  - intros (Hv & Ht & Hf). rewrite Hv.
    rewrite (sub_self_close _ _ c001_positive). done.
Qed.

(** C1, as the code has it: a prediction matches a gold entity exactly
    when their values are the same string, their types are the same
    string and the value parses to a finite number (the difference of
    the parsed values is then 0); for the gold entity 100 the
    prediction 100.00 is no match and every metric is 0, while the
    prediction 100 is a match and every metric is 1. *)
Theorem matching_needs_identical_values :
  (∀ pred gold,
     _isMatchingEntity pred gold = true
     ↔ value pred = value gold ∧ type pred = type gold
       ∧ isFinite (parseFloat (value gold)) = true)
  ∧ truePositives (tally [pred100_00] [gold100]) = 0%nat
  ∧ fst (evaluateFinNIPredictions [pred100_00] [gold100])
    = Metrics.mk zero zero zero zero
  ∧ truePositives (tally [pred100] [gold100]) = 1%nat
  ∧ fst (evaluateFinNIPredictions [pred100] [gold100])
    = Metrics.mk one one one one.
Proof.
  split; [exact isMatching_iff |]. repeat split; vm_compute; reflexivity.
Qed.

(** C1, as the specification states it, does not hold: 100.00 and 100
    have the same type and parse to numbers less than 0.01 apart, yet
    the code does not match them, counts no true positive and gives
    precision 0, not 1. *)
Lemma near_values_do_not_match :
  matchesBySpec pred100_00 gold100 = true
  ∧ _isMatchingEntity pred100_00 gold100 = false
  ∧ truePositives (tally [pred100_00] [gold100]) ≠ 1%nat
  ∧ Metrics.precision (fst (evaluateFinNIPredictions [pred100_00] [gold100]))
    ≠ one.
Proof. repeat split; vm_compute; discriminate. Qed.

Lemma quotient_nonneg (a b : nat) : nonneg (orNum (div (ofNat a) (ofNat b)) zero).
Proof. apply orNum_nonneg, div_signed; apply ofNat_signed. Qed.

Lemma f1Of_zero_denominator (p r : number) :
  nonneg p → nonneg r → eqb (add p r) zero = true → f1Of p r = zero.
Proof.
  intros Hp Hr H. destruct (add_nonneg_zero p r Hp Hr H) as [-> ->].
  reflexivity.
Qed.

(** The loop over the predictions leaves the counters of the loop
    over the gold standard as they are. *)
Lemma predLoop_keeps (goldStandard predictions : list Entity) :
  ∀ t, truePositives (fold_left (predStep goldStandard) predictions t)
       = truePositives t
       ∧ falseNegatives (fold_left (predStep goldStandard) predictions t)
         = falseNegatives t.
Proof.
  induction predictions as [|pred predictions IH]; intros t; simpl; [done |].
  destruct (IH (predStep goldStandard t pred)) as [-> ->].
  unfold predStep. by destruct (hasMatch goldStandard pred).
Qed.

Lemma tally_nil (predictions : list Entity) :
  truePositives (tally predictions []) = 0%nat
  ∧ falseNegatives (tally predictions []) = 0%nat.
Proof. unfold tally. simpl. apply predLoop_keeps. Qed.

(** C7: each metric is 0 when its denominator is 0; with an empty gold
    standard, accuracy and recall are 0 whatever the predictions. *)
Theorem metrics_zero_on_zero_denominator (predictions goldStandard : list Entity) :
  let t := tally predictions goldStandard in
  let m := fst (evaluateFinNIPredictions predictions goldStandard) in
  ((truePositives t + falsePositives t)%nat = 0%nat →
   Metrics.precision m = zero)
  ∧ ((truePositives t + falseNegatives t)%nat = 0%nat →
     Metrics.recall m = zero)
  ∧ (eqb (add (Metrics.precision m) (Metrics.recall m)) zero = true →
     Metrics.f1Score m = zero)
  ∧ (length goldStandard = 0%nat → Metrics.accuracy m = zero)
  ∧ (goldStandard = [] → Metrics.accuracy m = zero ∧ Metrics.recall m = zero).
Proof.
  intros t m. subst m. unfold evaluateFinNIPredictions. simpl. fold t.
  split; [| split; [| split; [| split]]].
  - intros H. assert (truePositives t = 0%nat) as -> by lia.
    assert (falsePositives t = 0%nat) as -> by lia. reflexivity.
  - intros H. assert (truePositives t = 0%nat) as -> by lia.
    assert (falseNegatives t = 0%nat) as -> by lia. reflexivity.
  - apply f1Of_zero_denominator; apply quotient_nonneg.
  - intros H. apply length_zero_iff_nil in H. subst goldStandard t.
    destruct (tally_nil predictions) as [-> _]. reflexivity.
  - intros ->. subst t. destruct (tally_nil predictions) as [-> ->].
    split; reflexivity.
Qed.

End EvaluationFacts.

(* ================================================================= *)
(** * Properties of the linking *)

Module LinkingFacts.
Import JS Linking.

Lemma startsFrom_elem (n fuel : nat) :
  ∀ start b, (n - start ≤ fuel)%nat →
    b ∈ startsFrom fuel n start
    ↔ (b < n)%nat ∧ ∃ k, b = (start + BATCH_SIZE * k)%nat.
Proof.
  induction fuel as [|fuel IH]; intros start b Hfuel; cbn [startsFrom].
  - split; [by intros H%elem_of_nil |]. intros [Hb [k ->]]. lia.
  - destruct (Nat.ltb_spec start n) as [Hlt | Hge].
    + rewrite elem_of_cons, IH by (unfold BATCH_SIZE; lia). unfold BATCH_SIZE. split.
      * intros [-> | [Hb [k ->]]]; (split; [lia |]).
        -- exists 0%nat. lia.
        -- exists (S k). lia.
      * intros [Hb [[|k] ->]]; [left; lia | right]. split; [lia |].
        exists k. lia.
    + split; [by intros H%elem_of_nil |]. intros [Hb [k ->]]. lia.
Qed.

Lemma batchStarts_elem (n b : nat) :
  b ∈ batchStarts n ↔ (b < n)%nat ∧ ∃ k, b = (BATCH_SIZE * k)%nat.
Proof. unfold batchStarts. rewrite startsFrom_elem by lia. done. Qed.

Lemma batchOf_take (entities : list Entity) (b : nat) :
  batchOf entities b = take BATCH_SIZE (drop b entities).
Proof.
  unfold batchOf, slice.
  destruct (Nat.le_ge_cases (b + BATCH_SIZE) (length entities)) as [H | H].
  - rewrite Nat.min_l by done. f_equal. lia.
  - rewrite Nat.min_r by done.
    rewrite (take_ge (drop b entities) BATCH_SIZE) by (rewrite length_drop; lia).
    apply take_ge. rewrite length_drop. lia.
Qed.


Lemma batch_length (entities : list Entity) (b : nat) :
  (b < length entities)%nat →
  (0 < length (batchOf entities b) ≤ BATCH_SIZE)%nat.
Proof.
  intros Hb. rewrite batchOf_take, length_take, length_drop.
  unfold BATCH_SIZE. lia.
Qed.

Section Engine.

Variable toLowerCase : jsstring -> jsstring.
Variable linkingPrompt : list Entity -> jsstring.
Variable JSON_parse : jsstring -> result (option (list Mapping.t)).
Variable oracle : nat -> nat -> jsstring -> result jsstring.

Local Abbreviation attempt := (attemptBatch linkingPrompt JSON_parse oracle).
Local Abbreviation process := (processBatch linkingPrompt JSON_parse oracle).
Local Abbreviation mappingsOf := (allMappings linkingPrompt JSON_parse oracle).
Local Abbreviation link := (linkConcepts toLowerCase linkingPrompt JSON_parse oracle).
Local Abbreviation linked := (linkedEntities toLowerCase linkingPrompt JSON_parse oracle).
Local Abbreviation apply := (applyMapping toLowerCase).
Local Abbreviation contribution := (contribution linkingPrompt JSON_parse oracle).

(** The output for [entity] when [mapping] is what was found for its
    index. *)
Local Abbreviation outputWith mapping entity :=
  (match mapping with
   | Some (Mapping.mk _ (Some tag) explanation) =>
       {| Linked.entity := entity;
          Linked.xbrlTag := Some tag;
          Linked.mappingExplanation := explanation |}
   | _ =>
       {| Linked.entity := entity;
          Linked.xbrlTag := ruleTag toLowerCase entity;
          Linked.mappingExplanation :=
            Some (match ruleTag toLowerCase entity with
                  | Some _ => js "Rule-based mapping (fallback)"
                  | None => js "No suitable US-GAAP mapping found"
                  end) |}
   end).

Lemma batchLoop_flat (entities : list Entity) (fuel : nat) :
  ∀ start acc,
    batchLoop linkingPrompt JSON_parse oracle fuel entities start acc
    = acc ++ flat_map (contribution entities)
               (startsFrom fuel (length entities) start).
Proof.
  induction fuel as [|fuel IH]; intros start acc; simpl.
  - by rewrite app_nil_r.
  - destruct (start <? length entities)%nat; simpl.
    + rewrite IH, <- app_assoc. done.
    + by rewrite app_nil_r.
Qed.

Lemma allMappings_flat (entities : list Entity) :
  mappingsOf entities
  = flat_map (contribution entities) (batchStarts (length entities)).
Proof. unfold allMappings. by rewrite batchLoop_flat. Qed.





Lemma find_none_all {A} (f : A → bool) (l : list A) :
  (∀ x, x ∈ l → f x = false) → List.find f l = None.
Proof.
  induction l as [|x l IH]; intros H; simpl; [done |].
  rewrite (H x) by (by apply elem_of_cons; left).
  apply IH. intros y Hy. apply H. by apply elem_of_cons; right.
Qed.






Lemma linked_length (env : Env) (entities : list Entity) :
  length (linked env entities) = length entities.
Proof.
  unfold linkedEntities, linkConcepts. destruct (hasKey env).
  - apply length_imap.
  - apply length_map.
Qed.









(** On the secondary path no output has an explanation. *)
Lemma secondary_explanations (env : Env) (entities : list Entity) (o : Linked.t) :
  hasKey env = false → o ∈ linked env entities →
  Linked.mappingExplanation o = None.
Proof.
  intros Hkey Ho. unfold linkedEntities, linkConcepts in Ho. rewrite Hkey in Ho.
  apply list_elem_of_fmap in Ho as (e & -> & _). reflexivity.
Qed.

(** On the primary path an output whose tag did not come from the
    oracle has an explanation, and a tag of the keyword chain comes
    with the fallback explanation. *)
Lemma primary_explanations (env : Env) (entities : list Entity) (i : nat)
    (o : Linked.t) :
  hasKey env = true → linked env entities !! i = Some o →
  (∃ id tag, mappingFor (mappingsOf entities) i
             = Some (Mapping.mk id (Some tag) (Linked.mappingExplanation o))
             ∧ Linked.xbrlTag o = Some tag)
  ∨ is_Some (Linked.mappingExplanation o).
Proof.
  intros Hkey Ho. unfold linkedEntities, linkConcepts in Ho. rewrite Hkey in Ho.
  rewrite list_lookup_imap in Ho. destruct (entities !! i) as [e |]; [| done].
  simpl in Ho. injection Ho as <-. unfold applyMapping.
  destruct (mappingFor _ _) as [[id [tag |] ex] |]; simpl; eauto.
Qed.

(** C3, where the code departs from it: when the oracle path throws
    (no credential), the secondary fallback attaches its tags without
    any explanation, and leaves the entities it cannot tag without one
    as well. *)
Theorem secondary_fallback_has_no_explanation (env : Env)
    (entities : list Entity) (i : nat) (o : Linked.t) :
  hasKey env = false →
  linked env entities !! i = Some o →
  Linked.mappingExplanation o = None
  ∧ Prediction.mappingExplanation (formatEntity o) = None.
Proof.
  intros Hkey Ho.
  assert (H : Linked.mappingExplanation o = None).
  { apply (secondary_explanations env entities); [done |].
    by apply list_elem_of_lookup_2 in Ho. }
  by rewrite <- H.
Qed.

End Engine.
End LinkingFacts.

(* ================================================================= *)
(** * The stages together, and the scenarios *)

Module PipelineFacts.
Import JS Extraction Linking Scenarios ExtractionFacts LinkingFacts.

Lemma mappedCount_format (l : list Linked.t) :
  mappedCount (formatEntity <$> l)
  = length (List.filter (λ o, bool_decide (is_Some (Linked.xbrlTag o))) l).
Proof.
  unfold mappedCount. induction l as [|o l IH]; [done |].
  rewrite fmap_cons. simpl. destruct (bool_decide _); simpl; by rewrite ?IH.
Qed.

(** C10: the record of the extraction stage carries the constants
    0.95, 0.92, 0.93, 0.94 and the processing time 1000 whatever was
    extracted, and the record of the linking stage carries one value
    four times, the number of entities with a tag divided by the number
    of entities. *)
Theorem stored_metrics_not_computed
    (toLowerCase : jsstring → jsstring)
    (numberToString : number → jsstring)
    (parseEntities : jsstring → result (option (list Raw.element)))
    (promptHead promptTail : jsstring)
    (extractionOracle : nat → jsstring → result jsstring)
    (linkingPrompt : list Entity → jsstring)
    (parseMappings : jsstring → result (option (list Mapping.t)))
    (linkingOracle : nat → nat → jsstring → result jsstring)
    (env : Env) (reportId text : jsstring) (entities : list Entity) :
  (∃ extracted,
     processFinNI toLowerCase numberToString parseEntities promptHead promptTail
       extractionOracle env reportId (Some text)
     = Status200 (finniResultData reportId extracted))
  ∧ (∀ extracted,
       ResultData.metrics (finniResultData reportId extracted)
       = Metrics.mk (dec 95 2) (dec 92 2) (dec 93 2) (dec 94 2)
       ∧ ResultData.processingTime (finniResultData reportId extracted)
         = ofZ 1000)
  ∧ let data :=
      processFinCL toLowerCase linkingPrompt parseMappings linkingOracle
        env reportId entities in
    let tagged :=
      List.filter (λ o, bool_decide (is_Some (Linked.xbrlTag o)))
        (linkedEntities toLowerCase linkingPrompt parseMappings linkingOracle
           env entities) in
    let share := div (ofNat (length tagged)) (ofNat (length entities)) in
    ResultData.metrics data = Metrics.mk share share share share.
Proof.
  split; [apply processFinNI_answer |]. split; [intros; apply finni_metrics_constant |].
  intros data tagged share. subst data share tagged. unfold processFinCL. simpl.
  fold (@fmap list _ _ _ formatEntity). 
  rewrite mappedCount_format, length_fmap, linked_length. reflexivity.
Qed.

(** C4: a run with a credential on which the oracle answers all three
    calls with prose; the result is the local extraction. *)
Lemma extraction_never_fails_witness :
  identifyNumericEntities asciiLower integerText rejectAll (js "Analyze: ") [] proseOracle
    keyEnv scenarioText
  = Ok (ruleBasedNumericExtraction scenarioText).
Proof.
  apply (extraction_never_fails asciiLower integerText rejectAll (js "Analyze: ") []
           proseOracle keyEnv scenarioText).
  intros i _.
  apply Truncated with (raw := js "I am sorry, I cannot help with that.");
    reflexivity.
Defined.




(** C3: a run without a credential; the entity gets the tag of the
    secondary fallback and no explanation. *)
Lemma secondary_fallback_has_no_explanation_witness :
  hasKey noKeyEnv = false
  ∧ linkedEntities asciiLower anyPrompt readMappings (firstBatchOnly 0) noKeyEnv
      [revenueEntity] !! 0%nat
    = Some (simpleLinked revenueEntity)
  ∧ Linked.xbrlTag (simpleLinked revenueEntity)
    = Some (usGaap "us-gaap:Revenue" c07)
  ∧ Linked.mappingExplanation (simpleLinked revenueEntity) = None
  ∧ Prediction.mappingExplanation (formatEntity (simpleLinked revenueEntity))
    = None.
Proof.
  assert (Hkey : hasKey noKeyEnv = false) by reflexivity.
  assert (Hout : linkedEntities asciiLower anyPrompt readMappings (firstBatchOnly 0)
                   noKeyEnv [revenueEntity] !! 0%nat
                 = Some (simpleLinked revenueEntity)) by reflexivity.
  split; [exact Hkey |]. split; [exact Hout |]. split; [reflexivity |].
  exact (secondary_fallback_has_no_explanation asciiLower anyPrompt readMappings
           (firstBatchOnly 0) noKeyEnv [revenueEntity] 0 _ Hkey Hout).
Defined.

End PipelineFacts.

(* ================================================================= *)
(** * What the matcher reads and captures

    The matcher is sound for the strings an expression denotes, and a
    capture group holds the part of the text it read. *)

Module MatcherContent.
Import JS Regex RegexShape RegexFacts.

Lemma via_refl g s : via g s s [].
Proof. unfold via. simpl. repeat split. lia. Qed.

Lemma via_trans g1 g2 s1 s2 s3 seg1 seg2 :
  via g1 s1 s2 seg1 → via g2 s2 s3 seg2 →
  via (g1 && g2) s1 s3 (seg1 ++ seg2).
Proof.
  intros (Hr1 & Hp1 & Hc1) (Hr2 & Hp2 & Hc2). unfold via.
  rewrite Hr1, Hr2, Hp2, Hp1, length_app, <- app_assoc.
  repeat split; [lia |].
  intros [Hg1 Hg2]%andb_true_iff. by rewrite Hc2, Hc1.
Qed.

Lemma via_weaken g g' s s' seg :
  (g' = true → g = true) → via g s s' seg → via g' s s' seg.
Proof. intros Hg (Hr & Hp & Hc). repeat split; auto. Qed.

Lemma starLoop_sound (a : regex) :
  (∀ k s out, run a k s = Some out →
     ∃ s' seg, matches a seg ∧ via (noGroup a) s s' seg ∧ k s' = Some out) →
  ∀ fuel k s out, starLoop (run a) k fuel s = Some out →
    ∃ s' seg, matches (Star a) seg ∧ via (noGroup a) s s' seg
              ∧ k s' = Some out.
Proof.
  intros Hstep. induction fuel as [|fuel IH]; intros k s out H; simpl in H.
  - exists s, []. split; [constructor |]. split; [apply via_refl | done].
  - destruct (run a _ s) as [out' |] eqn:Hs.
    + injection H as ->. apply Hstep in Hs as (s1 & seg1 & Hm1 & H1 & Hk).
      destruct (pos s1 =? pos s)%nat; [done |].
      apply IH in Hk as (s2 & seg2 & Hm2 & H2 & Hk). exists s2, (seg1 ++ seg2).
      split; [by constructor |]. split; [| done].
      eapply via_weaken; [| exact (via_trans _ _ s s1 s2 _ _ H1 H2)].
      intros ->. done.
    + exists s, []. split; [constructor |]. split; [apply via_refl | done].
Qed.

(** The matcher is sound: when a match succeeds, its continuation was
    called at the position reached by reading a string of the
    expression. *)
Lemma run_sound (r : regex) :
  ∀ k s out, run r k s = Some out →
    ∃ s' seg, matches r seg ∧ via (noGroup r) s s' seg ∧ k s' = Some out.
Proof.
  induction r as [| p | a IHa b IHb | a IHa b IHb | a IHa | a IHa | | |];
    intros k s out H; cbn [run noGroup] in *.
  - exists s, []. split; [constructor |]. split; [apply via_refl | done].
  - destruct s as [bf [|c t] p0 cp]; simpl in H; [done |].
    destruct (p c) eqn:Hpc; [| done]. eexists _, [c].
    split; [by constructor |]. split; [| exact H].
    unfold via. simpl. repeat split. lia.
  - apply IHa in H as (s1 & seg1 & Hm1 & H1 & H).
    apply IHb in H as (s2 & seg2 & Hm2 & H2 & H).
    exists s2, (seg1 ++ seg2). split; [by constructor |]. split; [| done].
    by apply (via_trans _ _ s s1 s2).
  - destruct (run a k s) eqn:Hra.
    + injection H as ->. apply IHa in Hra as (s1 & seg1 & Hm1 & H1 & H).
      exists s1, seg1. split; [by apply matches_or_l |]. split; [| done].
      eapply via_weaken; [| exact H1]. by intros [? ?]%andb_true_iff.
    + apply IHb in H as (s1 & seg1 & Hm1 & H1 & H).
      exists s1, seg1. split; [by apply matches_or_r |]. split; [| done].
      eapply via_weaken; [| exact H1]. by intros [? ?]%andb_true_iff.
  - by apply (starLoop_sound a IHa) in H.
  - apply IHa in H as (s1 & seg1 & Hm1 & (Hr & Hp & _) & H).
    eexists _, seg1. split; [by constructor |]. split; [| exact H].
    unfold via. simpl. done.
  - destruct (xorb _ _); [| done]. exists s, [].
    split; [constructor |]. split; [apply via_refl | done].
  - destruct (pos s =? 0)%nat; [| done]. exists s, [].
    split; [constructor |]. split; [apply via_refl | done].
  - destruct (rest s); [| done]. exists s, [].
    split; [constructor |]. split; [apply via_refl | done].
Qed.

Lemma matches_allows (P : N → Prop) (r : regex) (seg : jsstring) :
  matches r seg → allows P r → Forall P seg.
Proof.
  induction 1 as [| p c Hc | a b u v _ IHa _ IHb | a b u _ IH | a b u _ IH
                  | a | a u v _ IHa _ IHb | a u _ IH | | |];
    cbn [allows]; intros Ha.
  - constructor.
  - constructor; [by apply Ha | constructor].
  - destruct Ha. apply Forall_app. auto.
  - destruct Ha. auto.
  - destruct Ha. auto.
  - constructor.
  - apply Forall_app. auto.
  - auto.
  - constructor.
  - constructor.
  - constructor.
Qed.

Lemma matches_needs (Q : N → Prop) (r : regex) (seg : jsstring) :
  matches r seg → needs Q r → Exists Q seg.
Proof.
  induction 1 as [| p c Hc | a b u v _ IHa _ IHb | a b u _ IH | a b u _ IH
                  | a | a u v _ IHa _ IHb | a u _ IH | | |];
    cbn [needs]; intros Hn; try done.
  - constructor. by apply Hn.
  - apply Exists_app. destruct Hn; auto.
  - destruct Hn. auto.
  - destruct Hn. auto.
  - auto.
Qed.

(** An expression that needs a unit of some kind matches nowhere in
    a text that has none. *)
Lemma run_fails_without (Q : N → Prop) (r : regex) :
  needs Q r →
  ∀ k s, Forall (λ c, ¬ Q c) (rest s) → run r k s = None.
Proof.
  intros Hn k s Hall. destruct (run r k s) as [out |] eqn:H; [| done].
  apply run_sound in H as (s' & seg & Hm & (Hr & _) & _).
  apply (matches_needs Q) in Hm; [| done].
  rewrite Hr in Hall. apply Forall_app in Hall as [Hall _].
  apply Exists_exists in Hm as (c & Hc & HQ).
  rewrite Forall_forall in Hall. by destruct (Hall c Hc).
Qed.

Lemma searchFrom_without (Q : N → Prop) (r : regex) :
  needs Q r →
  ∀ t b p, Forall (λ c, ¬ Q c) t → searchFrom r b t p = None.
Proof.
  intros Hn. induction t as [|c t IH]; intros b p Hall; simpl.
  - by rewrite (run_fails_without Q r Hn).
  - rewrite (run_fails_without Q r Hn) by done.
    apply IH. by inversion Hall.
Qed.

Lemma execAll_without (Q : N → Prop) (r : regex) (t : jsstring) :
  needs Q r → Forall (λ c, ¬ Q c) t → execAll r t = [].
Proof.
  intros Hn Hall. unfold execAll. simpl.
  by rewrite (searchFrom_without Q r Hn).
Qed.

Lemma via_text g s s' seg (text : jsstring) :
  via g s s' seg → rest s = drop (pos s) text →
  rest s' = drop (pos s') text
  ∧ substring text (pos s) (pos s + length seg) = seg.
Proof.
  intros (Hr & Hp & _) Hs. rewrite Hs in Hr. split.
  - rewrite Hp, <- drop_drop, Hr. by rewrite drop_app_length.
  - unfold substring. rewrite Hr.
    replace (pos s + length seg - pos s)%nat with (length seg) by lia.
    apply take_app_length.
Qed.

Lemma captured_weaken (text : jsstring) (G G' : list regex) c :
  (∀ g, In g G → In g G') → captured text G c → captured text G' c.
Proof. intros HG (g & seg & a & Hg & H). exists g, seg, a. auto. Qed.

Lemma starLoop_capture (text : jsstring) (a : regex) :
  (∀ k s out, rest s = drop (pos s) text → run a k s = Some out →
     ∃ s', capture_after text a s s' ∧ k s' = Some out) →
  ∀ fuel k s out, rest s = drop (pos s) text →
    starLoop (run a) k fuel s = Some out →
    ∃ s', capture_after text (Star a) s s' ∧ k s' = Some out.
Proof.
  intros Hstep. induction fuel as [|fuel IH]; intros k s out Hs H; simpl in H.
  - exists s. split; [| done]. split; [done |]. right. done.
  - destruct (run a _ s) as [out' |] eqn:Hr.
    + injection H as ->. apply Hstep in Hr as (s1 & [Hs1 Hc1] & Hk); [| done].
      destruct (pos s1 =? pos s)%nat; [done |].
      apply IH in Hk as (s2 & [Hs2 Hc2] & Hk); [| done].
      exists s2. split; [| done]. split; [done |].
      destruct Hc2 as [Hc2 | [_ Hc2]]; [by left |].
      rewrite Hc2. destruct Hc1 as [Hc1 | [_ Hc1]]; [by left | by right].
    + exists s. split; [| done]. split; [done |]. right. done.
Qed.

Lemma run_capture (text : jsstring) (r : regex) :
  ∀ k s out, rest s = drop (pos s) text → run r k s = Some out →
    ∃ s', capture_after text r s s' ∧ k s' = Some out.
Proof.
  induction r as [| p | a IHa b IHb | a IHa b IHb | a IHa | a IHa | | |];
    intros k s out Hs H.
  - exists s. split; [| done]. split; [done | by right].
  - pose proof H as H'. apply run_sound in H' as (s' & seg & _ & Hv & Hk).
    exists s'. split; [| done]. destruct (via_text _ _ _ _ text Hv Hs) as [Hs' _].
    split; [done |]. right. split; [done |]. by apply Hv.
  - cbn [run] in H. apply (IHa _ _ _ Hs) in H as (s1 & [Hs1 Hc1] & H).
    apply (IHb _ _ _ Hs1) in H as (s2 & [Hs2 Hc2] & H).
    exists s2. split; [| done]. split; [done |]. cbn [groups capturing].
    destruct Hc2 as [Hc2 | [Hb Hc2]].
    + left. eapply captured_weaken; [| exact Hc2]. intros g Hg.
      apply in_or_app. by right.
    + rewrite Hc2. destruct Hc1 as [Hc1 | [Ha Hc1]].
      * left. eapply captured_weaken; [| exact Hc1]. intros g Hg.
        apply in_or_app. by left.
      * right. by rewrite Ha, Hb.
  - cbn [run] in H. destruct (run a k s) eqn:Hra.
    + injection H as ->. apply (IHa _ _ _ Hs) in Hra as (s1 & [Hs1 Hc1] & H).
      exists s1. split; [| done]. split; [done |]. cbn [groups capturing].
      destruct Hc1 as [Hc1 | [Ha Hc1]].
      * left. eapply captured_weaken; [| exact Hc1]. intros g Hg.
        apply in_or_app. by left.
      * right. by rewrite Ha.
    + apply (IHb _ _ _ Hs) in H as (s1 & [Hs1 Hc1] & H).
      exists s1. split; [| done]. split; [done |]. cbn [groups capturing].
      destruct Hc1 as [Hc1 | [Hb Hc1]].
      * left. eapply captured_weaken; [| exact Hc1]. intros g Hg.
        apply in_or_app. by right.
      * right. rewrite Hb. by rewrite andb_false_r.
  - cbn [run] in H. by apply (starLoop_capture text a IHa) in H.
  - cbn [run] in H. apply run_sound in H as (s1 & seg & Hm & Hv & Hk).
    destruct (via_text _ _ _ _ text Hv Hs) as [Hs1 Hsub].
    eexists. split; [| exact Hk]. split; [done |]. left. simpl.
    exists a, seg, (pos s). split; [by left |]. split; [done |].
    split; [| done]. destruct Hv as (_ & -> & _). done.
  - cbn [run] in H. destruct (xorb _ _); [| done]. exists s.
    split; [| done]. split; [done | by right].
  - cbn [run] in H. destruct (pos s =? 0)%nat; [| done]. exists s.
    split; [| done]. split; [done | by right].
  - cbn [run] in H. destruct (rest s) eqn:Hr; [| done]. exists s.
    split; [| done]. split; [by rewrite Hr | by right].
Qed.

End MatcherContent.

Module ExtractorOutput.
Import JS Regex RegexShape EntityShape Extraction MatcherContent DedupFacts.

Local Abbreviation digitUnit := (λ c : N, isDigit c = true).

Lemma grouped_needs_digit : needs digitUnit grouped.
Proof. left. left. by intros c. Qed.

Lemma plain_needs_digit : needs digitUnit plain.
Proof. left. left. by intros c. Qed.

Lemma extractor_regexes_need_digit :
  needs digitUnit moneyRegex ∧ needs digitUnit pctRegex
  ∧ needs digitUnit numRegex.
Proof.
  split; [| split].
  - right. right. split; [apply grouped_needs_digit | apply plain_needs_digit].
  - left. apply grouped_needs_digit.
  - right. left. apply grouped_needs_digit.
Qed.

Lemma candidates_without_digit (text : jsstring) :
  Forall (λ c, isDigit c = false) text → candidates text = [].
Proof.
  intros Hall.
  assert (Hno : Forall (λ c, ¬ digitUnit c) text).
  { eapply Forall_impl; [exact Hall |]. intros c Hc. cbv beta. by rewrite Hc. }
  destruct extractor_regexes_need_digit as (Hm & Hp & Hn).
  unfold candidates.
  by rewrite (execAll_without _ _ _ Hm Hno), (execAll_without _ _ _ Hp Hno),
    (execAll_without _ _ _ Hn Hno).
Qed.

(** X1: a text without a digit yields no entity. *)
Theorem no_digit_no_entity (text : jsstring) :
  Forall (λ c, isDigit c = false) text → ruleBasedNumericExtraction text = [].
Proof.
  intros Hall. unfold ruleBasedNumericExtraction.
  by rewrite (candidates_without_digit text Hall).
Qed.

(** *** The values of the entities *)

Lemma searchFrom_spec (r : regex) :
  ∀ t b p m, searchFrom r b t p = Some m →
    ∃ b' i, index m = (p + i)%nat
      ∧ run r Some (MState b' (drop i t) (p + i) None) = Some (stop m).
Proof.
  induction t as [|c t IH]; intros b p m H; simpl in H.
  - destruct (run r Some _) as [out |] eqn:Hr; [| done]. injection H as <-.
    exists b, 0%nat. simpl. rewrite Nat.add_0_r. done.
  - destruct (run r Some _) as [out |] eqn:Hr.
    + injection H as <-. exists b, 0%nat. simpl. rewrite Nat.add_0_r. done.
    + apply IH in H as (b' & i & Hi & H). exists b', (S i). simpl.
      rewrite <- Nat.add_succ_comm. done.
Qed.

Lemma via_drop g s s' seg (text : jsstring) :
  via g s s' seg → rest s = drop (pos s) text →
  rest s' = drop (pos s') text
  ∧ substring text (pos s) (pos s') = seg.
Proof.
  intros (Hr & Hp & _) Hs. rewrite Hs in Hr. split.
  - rewrite Hp, <- drop_drop, Hr. by rewrite drop_app_length.
  - unfold substring. rewrite Hr, Hp.
    replace (pos s + length seg - pos s)%nat with (length seg) by lia.
    apply take_app_length.
Qed.

(** Every match of the [exec] loop over [text] is a match of the
    expression at its index in [text]. *)
Lemma execLoop_spec (text : jsstring) (r : regex) :
  ∀ fuel b t p, t = drop p text →
    ∀ m, In m (execLoop fuel r b t p) →
      ∃ b', run r Some (MState b' (drop (index m) text) (index m) None)
            = Some (stop m).
Proof.
  induction fuel as [|fuel IH]; intros b t p Ht m Hm; simpl in Hm; [done |].
  destruct (searchFrom r b t p) as [m0 |] eqn:Hs; [| done].
  apply searchFrom_spec in Hs as (b' & i & Hi & Hrun).
  rewrite Ht, drop_drop, <- Hi in Hrun.
  destruct Hm as [<- | Hm]; [eauto |].
  apply (IH _ _ _) in Hm; [done |].
  pose proof Hrun as Hrun'.
  apply run_sound in Hrun' as (s' & seg & _ & Hvia & [= ->]).
  by apply (via_drop _ _ _ _ text) in Hvia as [Hrest _].
Qed.

Lemma execAll_spec (text : jsstring) (r : regex) (m : rmatch) :
  In m (execAll r text) →
  ∃ b', run r Some (MState b' (drop (index m) text) (index m) None)
        = Some (stop m).
Proof. apply execLoop_spec. done. Qed.

Lemma stripCommas_digits (u : jsstring) :
  Forall digitUnit u → stripCommas u = u.
Proof.
  induction 1 as [|c u Hc _ IH]; [done |]. unfold stripCommas in *. simpl.
  rewrite IH. destruct (N.eqb_spec c 44) as [-> | _]; [done | done].
Qed.

Lemma stripCommas_separators (u : jsstring) :
  Forall (λ c, digitUnit c ∨ c = 44%N) u → Forall digitUnit (stripCommas u).
Proof.
  induction 1 as [|c u Hc _ IH]; [constructor |]. unfold stripCommas in *.
  simpl. destruct (N.eqb_spec c 44) as [-> | Hne]; simpl; [done |].
  constructor; [| done]. by destruct Hc.
Qed.

Lemma allDigits_Forall (u : jsstring) : Forall digitUnit u → allDigits u = true.
Proof. induction 1 as [|c u Hc _ IH]; [done |]. simpl. by rewrite Hc, IH. Qed.

Lemma afterDigit_app (i f : jsstring) :
  Forall digitUnit i → afterDigit (i ++ f) = afterDigit f.
Proof. induction 1 as [|c u Hc _ IH]; [done |]. simpl. by rewrite Hc. Qed.

Lemma isDecimal_shape (i d : jsstring) (point : bool) :
  i ≠ [] → Forall digitUnit i →
  (point = true → d ≠ [] ∧ Forall digitUnit d) →
  isDecimal (i ++ (if point then 46%N :: d else [])) = true.
Proof.
  intros Hi Hall Hd. destruct Hall as [|c i Hc Hall]; [done |]. simpl.
  rewrite Hc, afterDigit_app by done. destruct point; [| done].
  destruct Hd as [Hne Hd]; [done |]. simpl.
  destruct d as [|c' d]; [done |]. by apply allDigits_Forall.
Qed.

(** The optional fraction: nothing, or a point and digits. *)
Lemma fraction_shape (v : jsstring) :
  matches (Opt (Cat (chr 46) (Plus digit))) v →
  ∃ (point : bool) (d : jsstring), v = (if point then 46%N :: d else [])
    ∧ (point = true → d ≠ [] ∧ Forall digitUnit d).
Proof.
  unfold Opt, chr. intros H. inversion H as [| | | a b u Hu | a b u Hu | | | | | |]; subst.
  - inversion Hu as [| | a b u1 u2 H1 H2 | | | | | | | |]; subst.
    inversion H1 as [| p c Hc | | | | | | | | |]; subst.
    apply N.eqb_eq in Hc as <-. exists true, u2. split; [done |]. intros _.
    split.
    + apply (matches_needs digitUnit) in H2; [| left; by intros c].
      intros ->. by apply Exists_nil in H2.
    + apply (matches_allows digitUnit) in H2; [done |]. split; by intros c.
  - inversion Hu; subst. exists false, []. done.
Qed.

Lemma stripCommas_app (u v : jsstring) :
  stripCommas (u ++ v) = stripCommas u ++ stripCommas v.
Proof. apply List.filter_app. Qed.

Lemma numeral_from_parts (u v1 v2 : jsstring) :
  u ≠ [] → Forall digitUnit u →
  Forall (λ c, digitUnit c ∨ c = 44%N) v1 →
  matches (Opt (Cat (chr 46) (Plus digit))) v2 →
  isDecimal (stripCommas (u ++ v1 ++ v2)) = true.
Proof.
  intros Hu Hdu Hv1 Hv2.
  apply fraction_shape in Hv2 as (point & d & -> & Hd).
  rewrite !stripCommas_app, (stripCommas_digits u Hdu), app_assoc.
  assert (Hf : stripCommas (if point then 46%N :: d else [])
               = (if point then 46%N :: d else [])).
  { destruct point; [| done]. unfold stripCommas. simpl. f_equal.
    apply (stripCommas_digits d). by apply Hd. }
  rewrite Hf. apply isDecimal_shape; [| | done].
  - destruct u; [done | done].
  - apply Forall_app. split; [done | by apply stripCommas_separators].
Qed.

Lemma grouped_shape (seg : jsstring) :
  matches grouped seg → isDecimal (stripCommas seg) = true.
Proof.
  unfold grouped. intros H.
  inversion H as [| | a b u v Hu Hv | | | | | | | |]; subst.
  inversion Hv as [| | a b v1 v2 Hv1 Hv2 | | | | | | | |]; subst.
  apply numeral_from_parts; [| | | done].
  - apply (matches_needs digitUnit) in Hu; [| left; by intros c].
    intros ->. by apply Exists_nil in Hu.
  - apply (matches_allows digitUnit) in Hu; [done |].
    repeat split; by intros c.
  - apply (matches_allows (λ c, digitUnit c ∨ c = 44%N)) in Hv1; [done |].
    repeat split; intros c Hc; auto. right. by apply N.eqb_eq in Hc.
Qed.

Lemma plain_shape (seg : jsstring) :
  matches plain seg → isDecimal (stripCommas seg) = true.
Proof.
  unfold plain. intros H.
  inversion H as [| | a b u v Hu Hv | | | | | | | |]; subst.
  rewrite <- (app_nil_l v). apply numeral_from_parts; [| | constructor | done].
  - apply (matches_needs digitUnit) in Hu; [| left; by intros c].
    intros ->. by apply Exists_nil in Hu.
  - apply (matches_allows digitUnit) in Hu; [done |].
    repeat split; by intros c.
Qed.

(** The group of a match of the money or the percentage expression
    holds a numeral with its separators. *)
Lemma captured_numeral (text : jsstring) (r : regex) (m : rmatch) :
  capturing r = true →
  (∀ g, In g (groups r) → g = Or grouped plain ∨ g = grouped) →
  In m (execAll r text) →
  ∃ seg, group1 text m = Some seg ∧ isDecimal (stripCommas seg) = true.
Proof.
  intros Hc Hg Hm. apply execAll_spec in Hm as (b & Hrun).
  apply (run_capture text) in Hrun as (s' & [_ Hcap] & [= ->]); [| done].
  destruct Hcap as [(g & seg & a & Hin & Hmatch & Hspan & Hsub) | [Hno _]];
    [| congruence].
  exists seg. unfold group1. rewrite Hspan, Hsub. split; [done |].
  destruct (Hg g Hin) as [-> | ->].
  - inversion Hmatch; subst; [by apply grouped_shape | by apply plain_shape].
  - by apply grouped_shape.
Qed.

Lemma isDecimal_nonempty (v : jsstring) : isDecimal v = true → v ≠ [].
Proof. by destruct v. Qed.

Lemma money_value (text : jsstring) (m : rmatch) :
  In m (execAll moneyRegex text) →
  isDecimal (value (moneyEntity text m)) = true.
Proof.
  intros Hm. apply captured_numeral in Hm as (seg & Hg & Hd).
  - simpl. rewrite Hg. destruct seg as [|c seg]; [done | done].
  - reflexivity.
  - simpl. intros g [<- | []]; auto.
Qed.

Lemma pct_value (text : jsstring) (m : rmatch) :
  In m (execAll pctRegex text) →
  isDecimal (value (pctEntity text m)) = true.
Proof.
  intros Hm. apply captured_numeral in Hm as (seg & Hg & Hd).
  - simpl. by rewrite Hg.
  - reflexivity.
  - simpl. intros g [<- | []]; auto.
Qed.

Lemma num_value (text : jsstring) (m : rmatch) :
  In m (execAll numRegex text) →
  isDecimal (stripCommas (matched text m)) = true.
Proof.
  intros Hm. apply execAll_spec in Hm as (b & Hrun).
  apply run_sound in Hrun as (s' & seg & Hmatch & Hv & [= ->]).
  apply (via_drop _ _ _ _ text) in Hv as [_ Hsub]; [| done].
  unfold matched. simpl in Hsub. rewrite Hsub.
  unfold numRegex in Hmatch.
  inversion Hmatch as [| | r1 r2 u v Hu Hv | | | | | | | |]; subst.
  inversion Hu; subst.
  inversion Hv as [| | r1 r2 u1 v1 Hu1 Hv1 | | | | | | | |]; subst.
  inversion Hv1; subst. inversion Hu1; subst.
  rewrite app_nil_l, app_nil_r. by apply grouped_shape.
Qed.

Lemma candidates_wellFormed (text : jsstring) :
  Forall wellFormed (candidates text).
Proof.
  unfold candidates. rewrite !Forall_app. repeat split.
  - apply Forall_forall. intros e He. apply list_elem_of_In, in_map_iff in He.
    destruct He as (m & <- & Hm). split; [by apply money_value |].
    split; [left; split; [set_solver | done] |]. split; [by eexists | done].
  - apply Forall_forall. intros e He. apply list_elem_of_In, in_map_iff in He.
    destruct He as (m & <- & Hm). split; [by apply pct_value |].
    split; [left; split; [set_solver | done] |]. split; [by eexists | done].
  - apply Forall_forall. intros e He. apply list_elem_of_In, in_map_iff in He.
    destruct He as (m & <- & Hm). apply num_value in Hm. unfold numEntity.
    destruct (test sharesRegex _); [| destruct (test dateRegex _)];
      (split; [exact Hm |]; split; [right; split; [set_solver | done] |];
       split; [by eexists | done]).
Qed.

(** X2: every entity of the local extractor has a decimal numeral as
    its value (digits, then nothing or a point and digits: no comma, no
    sign, no currency), one of the five literal types, the confidence
    of its pass, a description and no period. *)
Theorem extracted_values_are_numerals (text : jsstring) :
  Forall wellFormed (ruleBasedNumericExtraction text).
Proof.
  apply Forall_forall. intros e He.
  apply dedupLoop_sound in He as [_ He].
  pose proof (candidates_wellFormed text) as Hall.
  rewrite Forall_forall in Hall. by apply Hall.
Qed.

End ExtractorOutput.

(* ================================================================= *)
(** * Properties of the oracle calls *)

Module TrimFacts.
Import JS.

Lemma trimStart_suffix (s : jsstring) :
  ∃ w, s = w ++ trimStart s ∧ Forall (λ c, isSpace c = true) w.
Proof.
  induction s as [|c s (w & IH & Hw)]; simpl.
  - exists []. done.
  - destruct (isSpace c) eqn:Hc.
    + exists (c :: w). simpl. split; [by rewrite <- IH | by constructor].
    + exists []. done.
Qed.

Lemma trimStart_fixed (s : jsstring) :
  (∀ c t, s = c :: t → isSpace c = false) → trimStart s = s.
Proof. destruct s as [|c s]; [done |]. intros H. simpl. by rewrite (H c s). Qed.

Lemma trimStart_head (s : jsstring) (c : N) (t : jsstring) :
  trimStart s = c :: t → isSpace c = false.
Proof.
  induction s as [|a s IH]; simpl; [done |].
  destruct (isSpace a) eqn:Ha; [done |]. by intros [= <- <-].
Qed.

Lemma trimStart_idempotent (s : jsstring) : trimStart (trimStart s) = trimStart s.
Proof. apply trimStart_fixed. intros c t. apply trimStart_head. Qed.

Lemma trimEnd_prefix (s : jsstring) :
  ∃ w, s = trimEnd s ++ w ∧ Forall (λ c, isSpace c = true) w.
Proof.
  unfold trimEnd. destruct (trimStart_suffix (rev s)) as (w & Hw & Hall).
  exists (rev w). split; [| by apply Forall_rev].
  rewrite <- rev_app_distr, <- Hw. by rewrite rev_involutive.
Qed.

Lemma trimEnd_idempotent (s : jsstring) : trimEnd (trimEnd s) = trimEnd s.
Proof. unfold trimEnd. by rewrite rev_involutive, trimStart_idempotent. Qed.

(** What [trim] returns begins and ends with no white space: trimming
    it again changes nothing. *)
Lemma trim_idempotent (s : jsstring) : trim (trim s) = trim s.
Proof.
  unfold trim. rewrite (trimStart_fixed (trimEnd (trimStart s))).
  - apply trimEnd_idempotent.
  - intros c t Hc. destruct (trimEnd_prefix (trimStart s)) as (w & Hw & _).
    rewrite Hc in Hw. by apply (trimStart_head s c (t ++ w)).
Qed.

End TrimFacts.

Module OracleCalls.
Import JS Extraction TrimFacts.

Section Calls.

Variable toLowerCase : jsstring -> jsstring.
Variable numberToString : number -> jsstring.
Variable JSON_parse : jsstring -> result (option (list Raw.element)).
Variables promptHead promptTail : jsstring.
Variable oracle : nat -> jsstring -> result jsstring.

Local Abbreviation attempt := (makeApiCall JSON_parse oracle).
Local Abbreviation call := (callGeminiAPI JSON_parse oracle).
Local Abbreviation identify :=
  (identifyNumericEntities toLowerCase numberToString JSON_parse promptHead promptTail oracle).

(** An attempt that returns has passed every check: what it returns
    is the cleaned response, it ends with a brace or a bracket, and it
    parses to an object with an [entities] array. *)
Lemma attempt_returns (prompt : jsstring) (i : nat) (t : jsstring) :
  attempt prompt i = Ok t →
  ∃ raw entities,
    oracle i (promptChunk prompt) = Ok raw ∧ t = stripFences raw
    ∧ (endsWith t (js "}") = true ∨ endsWith t (js "]") = true)
    ∧ JSON_parse t = Ok (Some entities).
Proof.
  unfold makeApiCall.
  destruct (oracle i _) as [raw | e] eqn:Hraw; simpl; [| done].
  destruct (endsWith (stripFences raw) (js "}")) eqn:Hb;
    destruct (endsWith (stripFences raw) (js "]")) eqn:Hk; simpl; try done;
    (destruct (JSON_parse (stripFences raw)) as [[es |] | [msg]] eqn:Hp;
     simpl; [| done | done]; intros [= <-]; exists raw, es; auto).
Qed.

(** The retry loop: the first attempt that returns ends it; when none
    does, the loop ends with what the last attempt threw. *)
Lemma attemptsFrom_cases (prompt : jsstring) (n : nat) :
  ∀ i,
    (∃ k t, (i ≤ k ≤ i + n)%nat ∧ attempt prompt k = Ok t
            ∧ (∀ j, (i ≤ j < k)%nat → ∃ e, attempt prompt j = Throw e)
            ∧ attemptsFrom JSON_parse oracle prompt n i = Ok t)
    ∨ ((∀ j, (i ≤ j ≤ i + n)%nat → ∃ e, attempt prompt j = Throw e)
       ∧ attemptsFrom JSON_parse oracle prompt n i
         = attempt prompt (i + n)%nat).
Proof.
  induction n as [|n IH]; intros i; simpl.
  - destruct (attempt prompt i) as [t | e] eqn:Ha.
    + left. exists i, t. repeat split; try lia; try done.
    + right. rewrite Nat.add_0_r. split; [| done]. intros j Hj.
      assert (j = i) as -> by lia. eauto.
  - destruct (attempt prompt i) as [t | e] eqn:Ha.
    + left. exists i, t. repeat split; try lia; try done.
    + destruct (IH (S i)) as [(k & t & Hk & Hok & Hbefore & Heq) | [Hall Heq]].
      * left. exists k, t. repeat split; try lia; try done.
        intros j Hj. destruct (decide (j = i)) as [-> | Hne]; [eauto |].
        apply Hbefore. lia.
      * right. split.
        -- intros j Hj. destruct (decide (j = i)) as [-> | Hne]; [eauto |].
           apply Hall. lia.
        -- rewrite Heq. f_equal. lia.
Qed.

(** X3: without a credential [callGeminiAPI] throws and no call is
    made; with one, it returns the cleaned response of the first of
    the [retries + 1] attempts that passes the checks (the response
    ends with a brace or a bracket and parses to an object with an
    entities array), and when every attempt fails it throws what the
    last attempt threw. *)
Theorem call_returns_first_valid_response (env : Env) (prompt : jsstring)
    (retries : nat) :
  (hasKey env = false →
   call env prompt retries
   = Throw (Err (js "GEMINI_API_KEY environment variable is not set")))
  ∧ (hasKey env = true →
     (∃ k t raw entities,
        (k ≤ retries)%nat
        ∧ (∀ j, (j < k)%nat → ∃ e, attempt prompt j = Throw e)
        ∧ oracle k (promptChunk prompt) = Ok raw ∧ t = stripFences raw
        ∧ (endsWith t (js "}") = true ∨ endsWith t (js "]") = true)
        ∧ JSON_parse t = Ok (Some entities)
        ∧ call env prompt retries = Ok t)
     ∨ ((∀ j, (j ≤ retries)%nat → ∃ e, attempt prompt j = Throw e)
        ∧ call env prompt retries = attempt prompt retries)).
Proof.
  unfold callGeminiAPI. split; intros Hkey; rewrite Hkey; [done |].
  destruct (attemptsFrom_cases prompt retries 0)
    as [(k & t & Hk & Hok & Hbefore & Heq) | [Hall Heq]].
  - left. destruct (attempt_returns prompt k t Hok)
      as (raw & es & Hraw & Ht & Hend & Hp).
    exists k, t, raw, es. repeat split; try done; try lia.
    intros j Hj. apply Hbefore. lia.
  - right. split; [| done]. intros j Hj. apply Hall. lia.
Qed.

Lemma call_returns (env : Env) (prompt : jsstring) (retries : nat)
    (t : jsstring) :
  call env prompt retries = Ok t →
  trim t = t ∧ ∃ entities, JSON_parse t = Ok (Some entities).
Proof.
  unfold callGeminiAPI. destruct (hasKey env); [| done]. intros H.
  destruct (attemptsFrom_cases prompt retries 0)
    as [(k & t' & Hk & Hok & _ & Heq) | [Hall Heq]].
  - rewrite Heq in H. injection H as ->.
    destruct (attempt_returns prompt k t Hok) as (raw & es & _ & -> & _ & Hp).
    split; [apply trim_idempotent | eauto].
  - destruct (Hall retries) as [e He]; [lia |]. simpl in Heq. congruence.
Qed.

(** X4: when the oracle path is taken and [callGeminiAPI] returns a
    text that does not begin with a code fence, the second validation
    of [identifyNumericEntities] cannot fail.  The result is then
    decided by the post-processing of the elements of that text: when
    it returns, the result is its entities, one per element and in
    order; when it throws (on a [null] element, or on an element whose
    type is neither falsy nor a string) the result is the local
    extraction. *)
Theorem oracle_answer_is_post_processed (env : Env) (text t : jsstring) :
  useLocal env = false →
  call env (promptHead ++ text ++ promptTail) 2 = Ok t →
  startsWith t (js "```json") = false →
  ∃ elements,
    JSON_parse t = Ok (Some elements)
    ∧ (∀ out,
         mapThrowing (normalize toLowerCase numberToString) elements = Ok out →
         identify env text = Ok out ∧ length out = length elements)
    ∧ ((∃ err, mapThrowing (normalize toLowerCase numberToString) elements
               = Throw err) →
       identify env text = Ok (ruleBasedNumericExtraction text))
    ∧ (Raw.null ∈ elements
       ∨ (∃ raw type,
            Raw.object raw ∈ elements ∧ Raw.type raw = Some type
            ∧ truthyJSON type = true ∧ ∀ s, type ≠ Raw.JString s) →
       identify env text = Ok (ruleBasedNumericExtraction text)).
Proof.
  intros Hlocal Hcall Hfence.
  destruct (call_returns env _ 2 t Hcall) as [Htrim [elements Hp]].
  exists elements. split; [done |].
  assert (Hsame : sanitize t = t) by (unfold sanitize; by rewrite Htrim, Hfence).
  pose proof (ExtractionFacts.identify_oracle toLowerCase numberToString
                JSON_parse promptHead promptTail oracle env text t elements
                Hlocal Hcall) as Hresult.
  rewrite Hsame in Hresult. specialize (Hresult Hp).
  assert (Hthrows :
    (∃ err, mapThrowing (normalize toLowerCase numberToString) elements
            = Throw err) →
    identify env text = Ok (ruleBasedNumericExtraction text)).
  { intros [err Herr]. by rewrite Hresult, Herr. }
  split; [| split; [exact Hthrows |]].
  - intros out Hout. rewrite Hresult, Hout. split; [done |].
    apply ExtractionFacts.mapThrowing_returns in Hout.
    symmetry. by eapply Forall2_length.
  - intros Hbad. apply Hthrows, ExtractionFacts.mapThrowing_throws.
    apply Exists_exists.
    destruct Hbad as [Hnull | (raw & type & Hin & Htype & Htruthy & Hnot)].
    + exists Raw.null. split; [done |].
      apply ExtractionFacts.normalize_throws. by left.
    + exists (Raw.object raw). split; [done |].
      apply ExtractionFacts.normalize_throws. right. exists raw.
      split; [done |]. right. intros s. unfold orEmpty.
      rewrite Htype, Htruthy. apply Hnot.
Qed.

End Calls.
End OracleCalls.

(* ================================================================= *)
(** * Properties of the cleaning of a response *)

Module FenceFacts.
Import JS Regex RegexShape Extraction MatcherContent TrimFacts RegexFacts.

Local Abbreviation tick := 96%N.

Lemma removeLoop_without (Q : N → Prop) (r : regex) :
  needs Q r →
  ∀ fuel t b p, Forall (λ c, ¬ Q c) t → removeLoop fuel r b t p = t.
Proof.
  intros Hn. induction fuel as [|fuel IH]; intros t b p Hall; simpl; [done |].
  rewrite (run_fails_without Q r Hn) by done.
  destruct t as [|c t]; [done |]. f_equal. apply IH. by inversion Hall.
Qed.

Lemma fences_need_tick :
  needs (λ c, c = tick) fenceOpen ∧ needs (λ c, c = tick) fenceClose.
Proof.
  split; left; left; intros c Hc; by apply N.eqb_eq in Hc.
Qed.

(** X5: a response without a backtick is only trimmed. *)
Theorem unfenced_response_is_trimmed (responseText : jsstring) :
  tick ∉ responseText → stripFences responseText = trim responseText.
Proof.
  intros Hno.
  assert (Hall : Forall (λ c, ¬ c = tick) responseText).
  { apply Forall_forall. intros c Hc ->. done. }
  destruct fences_need_tick as [Hopen Hclose].
  unfold stripFences, removeAll.
  rewrite (removeLoop_without _ _ Hopen) by done.
  by rewrite (removeLoop_without _ _ Hclose) by done.
Qed.

(** *** A fenced response *)

Lemma matches_lit (w seg : jsstring) : matches (lit w) seg → seg = w.
Proof.
  revert seg. induction w as [|c w IH]; intros seg H; simpl in H.
  - by inversion H.
  - inversion H as [| | a b u v Hu Hv | | | | | | | |]; subst.
    inversion Hu as [| p x Hx | | | | | | | | |]; subst.
    apply N.eqb_eq in Hx as <-. simpl. f_equal. by apply IH.
Qed.

Lemma run_lit (w : jsstring) (k : mstate → option mstate) :
  ∀ b t p c, ∃ b',
    run (lit w) k (MState b (w ++ t) p c)
    = k (MState b' t (p + length w) c).
Proof.
  induction w as [|x w IH]; intros b t p c; simpl.
  - exists b. by rewrite Nat.add_0_r.
  - rewrite N.eqb_refl. destruct (IH (Some x) t (S p) c) as [b' ->].
    exists b'. by rewrite Nat.add_succ_r.
Qed.

Lemma run_lit_fails (w : jsstring) (r : regex) (k : mstate → option mstate) :
  ∀ b t p c, startsWith t w = false →
    run (Cat (lit w) r) k (MState b t p c) = None.
Proof.
  induction w as [|x w IH]; intros b t p c H; [by destruct t |].
  destruct t as [|y t]; [done |]. simpl in H. cbn [run lit chr]. simpl.
  rewrite (N.eqb_sym x y). destruct (N.eqb y x); [| done]. simpl in H.
  apply (IH (Some y) t (S p) c H).
Qed.

Lemma run_class (p : N → bool) (k : mstate → option mstate) b x t p0 c :
  run (Class p) k (MState b (x :: t) p0 c)
  = if p x then k (MState (Some x) t (S p0) c) else None.
Proof. reflexivity. Qed.

(** The greedy star of [\s] before the end of the expression reads
    all the white space there is. *)
Lemma run_star_space :
  ∀ t b p c, ∃ b',
    run (Star space) Some (MState b t p c)
    = Some (MState b' (trimStart t) (p + (length t - length (trimStart t))) c).
Proof.
  induction t as [|x t IH]; intros b p c; rewrite star_unfold.
  - exists b. simpl. by rewrite Nat.add_0_r.
  - unfold space at 1. rewrite run_class. simpl trimStart.
    destruct (isSpace x) eqn:Hx.
    + cbn [pos]. destruct (Nat.eqb_spec (S p) p) as [Heq | _]; [lia |].
      destruct (IH (Some x) (S p) c) as [b' ->]. exists b'. do 2 f_equal.
      destruct (trimStart_suffix t) as (w & Hw & _).
      assert (length (trimStart t) ≤ length t)%nat.
      { rewrite Hw at 2. rewrite length_app. lia. }
      simpl. lia.
    + exists b. simpl. do 2 f_equal. lia.
Qed.

Lemma startsWith_before (x : N) (w : jsstring) :
  x ∉ w → ∀ b t, startsWith (b ++ x :: t) w = startsWith b w.
Proof.
  induction w as [|y w IH]; intros Hx b t; [by destruct b |].
  apply not_elem_of_cons in Hx as [Hne Hx].
  destruct b as [|a b]; simpl.
  - by apply N.eqb_neq in Hne as ->.
  - by rewrite IH.
Qed.

Lemma includes_before (x : N) (w : jsstring) :
  x ∉ w → ∀ b t, includes (b ++ x :: t) w = includes b w || includes t w.
Proof.
  intros Hx. induction b as [|a b IH]; intros t.
  - pose proof (startsWith_before x w Hx [] t) as Hs.
    change ([] ++ x :: t) with (x :: t) in *. cbn [includes].
    rewrite Hs. by rewrite orb_false_r.
  - pose proof (startsWith_before x w Hx (a :: b) t) as Hs.
    change ((a :: b) ++ x :: t) with (a :: (b ++ x :: t)) in *.
    cbn [includes]. rewrite IH, Hs. by rewrite orb_assoc.
Qed.

Lemma removeLoop_no_occurrence (w : jsstring) (r : regex) :
  ∀ fuel t b p, includes t w = false →
    removeLoop fuel (Cat (lit w) r) b t p = t.
Proof.
  induction fuel as [|fuel IH]; intros t b p H; [done |].
  cbn [removeLoop]. destruct t as [|c t].
  - simpl in H. rewrite orb_false_r in H. by rewrite run_lit_fails.
  - cbn [includes] in H. apply orb_false_iff in H as [Hs Hi].
    rewrite run_lit_fails by done. f_equal. by apply IH.
Qed.

(** The closing expression matches only where nothing but white space
    follows the three backticks. *)
Lemma fenceClose_spec (b : option N) (t : jsstring) (p : nat)
    (c : option (nat * nat)) (out : mstate) :
  run fenceClose Some (MState b t p c) = Some out →
  ∃ seg, t = js "```" ++ seg ∧ Forall (λ x, isSpace x = true) seg.
Proof.
  unfold fenceClose. intros H. cbn [run] in H.
  pose proof H as H1.
  apply (run_sound (lit (js "```"))) in H1 as (s1 & seg1 & Hm1 & (Hr1 & _) & H1).
  apply matches_lit in Hm1 as ->.
  change (run (Star space) (run AtEnd Some) s1 = Some out) in H1.
  apply (run_sound (Star space)) in H1 as (s2 & seg2 & Hm2 & (Hr2 & _) & H2).
  cbn [run] in H2. destruct (rest s2) eqn:Hend; [| done].
  exists seg2. simpl in Hr1. rewrite Hr1, Hr2, app_nil_r. split; [done |].
  apply (matches_allows (λ x, isSpace x = true)) in Hm2; [done |].
  by intros x.
Qed.

Lemma no_close_before_the_end (v seg : jsstring) :
  v ≠ [] → Forall (λ x, isSpace x = true) seg →
  v ++ js "```" ≠ js "```" ++ seg.
Proof.
  intros Hv Hseg Heq. apply (f_equal (@rev N)) in Heq.
  rewrite !rev_app_distr in Heq. simpl in Heq.
  destruct (rev seg) as [|x s] eqn:Hs.
  - simpl in Heq. injection Heq as Heq. apply (f_equal (@length N)) in Heq.
    rewrite length_rev in Heq. by destruct v.
  - simpl in Heq. injection Heq as <- _.
    assert (Hin : In tick seg) by (apply in_rev; rewrite Hs; by left).
    rewrite Forall_forall in Hseg. apply list_elem_of_In, Hseg in Hin. done.
Qed.

Lemma run_cat (a b : regex) (k : mstate → option mstate) (s : mstate) :
  run (Cat a b) k s = run a (run b k) s.
Proof. reflexivity. Qed.

Lemma run_fenceClose_end (b : option N) (p : nat) :
  ∃ b', run fenceClose Some (MState b (js "```") p None)
        = Some (MState b' [] (p + 3) None).
Proof.
  unfold fenceClose. rewrite run_cat.
  destruct (run_lit (js "```") (run (Cat (Star space) AtEnd) Some) b [] p None)
    as [b' H].
  rewrite app_nil_r in H. rewrite H. exists b'. reflexivity.
Qed.

(** In a text that ends with three backticks the closing expression
    removes those and nothing else. *)
Lemma remove_closing_fence (u : jsstring) :
  ∀ fuel b p, (length u < fuel)%nat →
    removeLoop fuel fenceClose b (u ++ js "```") p = u.
Proof.
  induction u as [|x u IH]; intros [|fuel] b p Hfuel; simpl in Hfuel; try lia.
  - cbn [removeLoop]. change ([] ++ js "```") with (js "```").
    destruct (run_fenceClose_end b p) as [b' ->]. cbn [pos rest before].
    destruct (Nat.eqb_spec (p + 3) p) as [Heq | _]; [lia |].
    destruct fuel; [done |]. reflexivity.
  - cbn [removeLoop].
    destruct (run fenceClose Some _) as [out |] eqn:Hrun.
    + apply fenceClose_spec in Hrun as (seg & Heq & Hseg).
      by apply (no_close_before_the_end (x :: u) seg) in Heq.
    + change ((x :: u) ++ js "```") with (x :: (u ++ js "```")).
      f_equal. apply IH. lia.
Qed.

Lemma trim_fixed (body : jsstring) :
  trim body = body → trimStart body = body ∧ trimEnd body = body.
Proof.
  intros H. destruct (trimStart_suffix body) as (w & Hw & _).
  destruct (trimEnd_prefix (trimStart body)) as (w' & Hw' & _).
  fold (trim body) in Hw'. rewrite H in Hw'.
  assert (Hlen : length w = 0%nat ∧ length w' = 0%nat).
  { apply (f_equal (@length N)) in Hw, Hw'.
    rewrite length_app in Hw, Hw'. lia. }
  destruct Hlen as [H1 H2]. apply length_zero_iff_nil in H1, H2. subst w w'.
  simpl in Hw. unfold trim in H. rewrite <- Hw in H. auto.
Qed.

Lemma trim_line (body : jsstring) : trim body = body → trim (body ++ [10%N]) = body.
Proof.
  intros H. destruct (trim_fixed body H) as [Hs He].
  destruct body as [|c body]; [done |].
  unfold trim. rewrite (trimStart_fixed ((c :: body) ++ [10%N])).
  - unfold trimEnd in *. rewrite rev_app_distr. exact He.
  - intros c' t [= <- _]. apply (trimStart_head (c :: body) c body Hs).
Qed.

(** The opening fence goes with the white space that follows it. *)
Lemma remove_opening_fence (t : jsstring) :
  includes (trimStart t) (js "```json") = false →
  removeAll fenceOpen (js "```json" ++ t) = trimStart t.
Proof.
  intros Hfree. unfold removeAll. cbn [removeLoop]. unfold fenceOpen at 1.
  rewrite run_cat.
  destruct (run_lit (js "```json") (run (Star space) Some) None t 0 None)
    as [b1 ->].
  destruct (run_star_space t b1 (0 + length (js "```json")) None) as [b2 ->].
  cbn [pos rest before].
  match goal with |- context [Nat.eqb ?a 0] =>
    destruct (Nat.eqb_spec a 0) as [Heq | _]; [simpl in Heq; lia |] end.
  unfold fenceOpen. by apply removeLoop_no_occurrence.
Qed.

(** What is left after the opening fence of a fenced text. *)
Lemma after_opening_fence (body : jsstring) :
  trim body = body →
  ∃ u, trimStart ([10%N] ++ body ++ [10%N] ++ js "```") = u ++ js "```"
       ∧ trim u = body
       ∧ includes (u ++ js "```") (js "```json") = includes body (js "```json").
Proof.
  intros Htrim. destruct body as [|c body].
  - exists []. done.
  - exists ((c :: body) ++ [10%N]). destruct (trim_fixed _ Htrim) as [Hs _].
    split; [| split].
    + change (trimStart ([10%N] ++ (c :: body) ++ [10%N] ++ js "```"))
        with (trimStart ((c :: body) ++ [10%N] ++ js "```")).
      rewrite trimStart_fixed; [by rewrite app_assoc |].
      intros c' t [= <- _]. apply (trimStart_head (c :: body) c body Hs).
    + by apply trim_line.
    + rewrite <- app_assoc.
      change ([10%N] ++ js "```") with (10%N :: js "```").
      rewrite includes_before by compute_done. apply orb_false_r.
Qed.

(** X6: a response that is a JSON text between a [```json] line and a
    closing [```] line is cleaned to that text, when the text begins
    and ends with no white space and holds no opening fence of its
    own. *)
Theorem fenced_response_is_unwrapped (body : jsstring) :
  trim body = body →
  includes body (js "```json") = false →
  stripFences (js "```json" ++ [10%N] ++ body ++ [10%N] ++ js "```") = body.
Proof.
  intros Htrim Hfree. unfold stripFences.
  destruct (after_opening_fence body Htrim) as (u & Hu & Htu & Hinc).
  rewrite remove_opening_fence by (by rewrite Hu, Hinc).
  rewrite Hu. unfold removeAll.
  rewrite remove_closing_fence by (rewrite length_app; simpl; lia).
  exact Htu.
Qed.

End FenceFacts.

(* ================================================================= *)
(** * More of binary64 arithmetic: exact counts and quotients *)

Module CountFacts.
Import JS NumberFacts.

Lemma digits2_shift (p k : positive) :
  digits2_pos (Pos.iter xO p k) = (digits2_pos p + k)%positive.
Proof.
  induction k as [|k IH] using Pos.peano_ind.
  - simpl. lia.
  - rewrite Pos.iter_succ. simpl. rewrite IH. lia.
Qed.

(** A mantissa of 53 bits with an exponent in range is kept as it
    is. *)
Lemma round_aux_exact (s : bool) (m : positive) (e : Z) :
  Zpos (digits2_pos m) = 53 → -1074 <= e <= 971 →
  binary_round_aux prec emax s (Zpos m) e loc_Exact = S754_finite s m e.
Proof.
  intros Hd He. unfold binary_round_aux.
  assert (Hshr : shr_fexp prec emax (Zpos m) e loc_Exact
                 = (Build_shr_record (Zpos m) false false, e)).
  { unfold shr_fexp. rewrite fexp_value. simpl Zdigits2. rewrite Hd.
    replace (Z.max (53 + e - 53) (-1074) - e) with 0 by lia. reflexivity. }
  rewrite Hshr. simpl. rewrite Hshr. simpl.
  destruct (Z.leb_spec e (emax - prec)) as [_ | Hgt]; [done |].
  unfold emax, prec in Hgt. lia.
Qed.

(** A count below [2^53] is a finite number. *)
Lemma ofZ_small (p : positive) :
  Zpos p < 2 ^ 53 → ∃ m e, ofZ (Zpos p) = S754_finite false m e.
Proof.
  intros Hp. unfold ofZ, binary_normalize, binary_round.
  pose proof (digits2_pos_bound p) as Hlow.
  assert (Hd : Zpos (digits2_pos p) <= 53).
  { destruct (Z.le_gt_cases (Zpos (digits2_pos p)) 53) as [H | H]; [done |].
    exfalso. assert (2 ^ 53 <= 2 ^ (Zpos (digits2_pos p) - 1))
      by (apply Z.pow_le_mono_r; lia). lia. }
  rewrite fexp_value, Z.add_0_r. unfold shl_align.
  replace (Z.max (Z.pos (digits2_pos p) - 53) (-1074) - 0)
    with (Z.pos (digits2_pos p) - 53) by lia.
  destruct (Z.pos (digits2_pos p) - 53) as [|k|k] eqn:Hk; [| lia |].
  - eexists _, _. apply round_aux_exact; lia.
  - eexists _, _. apply round_aux_exact; [| lia].
    rewrite digits2_shift. lia.
Qed.

Lemma ofNat_small (n : nat) :
  (0 < n)%nat → Z.of_nat n < 2 ^ 53 →
  ∃ m e, ofNat n = S754_finite false m e.
Proof.
  intros Hn Hlt. unfold ofNat. destruct (Z.of_nat n) as [|p|p] eqn:Hp; try lia.
  by apply ofZ_small.
Qed.

Lemma ofNat_positive (n : nat) : (0 < n)%nat → positive_number (ofNat n).
Proof.
  intros Hn. unfold ofNat, ofZ, binary_normalize, binary_round.
  destruct (Z.of_nat n) as [|p|p] eqn:Hp; try lia.
  unfold shl_align. rewrite fexp_value.
  destruct (Z.max _ _ - 0) eqn:Hs; apply round_aux_positive;
    rewrite emin_value; lia.
Qed.

(** The quotient of a finite number by itself is exactly 1. *)
Lemma div_self (m : positive) (e : Z) :
  div (S754_finite false m e) (S754_finite false m e) = ofZ 1.
Proof.
  unfold div, SFdiv, SFdiv_core_binary.
  replace (Zdigits2 (Zpos m) + e - (Zdigits2 (Zpos m) + e)) with 0 by lia.
  replace (e - e) with 0 by lia.
  change (Z.min (fexp prec emax 0) 0) with (-53).
  change (0 - -53) with 53.
  rewrite Z.shiftl_mul_pow2 by lia.
  destruct (Z.div_eucl (Zpos m * 2 ^ 53) (Zpos m)) as [q r] eqn:Hdiv.
  assert (Hq : q = 2 ^ 53).
  { transitivity (Zpos m * 2 ^ 53 / Zpos m).
    - unfold Z.div. by rewrite Hdiv.
    - rewrite Z.mul_comm. apply Z.div_mul. lia. }
  assert (Hr : r = 0).
  { transitivity ((Zpos m * 2 ^ 53) mod Zpos m).
    - unfold Z.modulo. by rewrite Hdiv.
    - rewrite Z.mul_comm. apply Z.mod_mul. lia. }
  subst q r. unfold new_location, new_location_even, new_location_odd.
  destruct (Z.even (Zpos m)); reflexivity.
Qed.

Lemma div_count_self (n : nat) :
  (0 < n)%nat → Z.of_nat n < 2 ^ 53 → div (ofNat n) (ofNat n) = ofZ 1.
Proof.
  intros Hn Hlt. destruct (ofNat_small n Hn Hlt) as (m & e & ->).
  apply div_self.
Qed.

Lemma div_zero_count (n : nat) : (0 < n)%nat → div (ofNat 0) (ofNat n) = zero.
Proof. intros Hn. by destruct (ofNat_positive n Hn). Qed.

End CountFacts.

(* ================================================================= *)
(** * Properties of the counters and of the metrics *)

Module CounterFacts.
Import JS Evaluation NumberFacts CountFacts EvaluationFacts Scenarios.

(** The gold entities that a prediction matches, and the predictions
    that match no gold entity. *)
Local Abbreviation matchedGold predictions :=
  (List.filter (λ gold, existsb (λ pred, _isMatchingEntity pred gold)
                          predictions)).
Local Abbreviation unmatched goldStandard :=
  (List.filter (λ pred, negb (hasMatch goldStandard pred))).

Lemma find_existsb {A} (f : A → bool) (l : list A) :
  existsb f l = bool_decide (is_Some (List.find f l)).
Proof.
  induction l as [|x l IH]; simpl; [done |].
  by destruct (f x).
Qed.

Lemma goldStep_counts (predictions : list Entity) (t : Tally) (gold : Entity) :
  let t' := goldStep predictions t gold in
  let hit := existsb (λ pred, _isMatchingEntity pred gold) predictions in
  truePositives t' = (truePositives t + (if hit then 1 else 0))%nat
  ∧ (truePositives t' + falseNegatives t'
     = truePositives t + falseNegatives t + 1)%nat
  ∧ falsePositives t' = falsePositives t
  ∧ length (detailedResults t') = (length (detailedResults t) + 1)%nat.
Proof.
  unfold goldStep, matchingPred. rewrite find_existsb.
  destruct (List.find _ predictions) as [pred |]; simpl;
    rewrite ?length_app; simpl; repeat split; lia.
Qed.

Lemma goldLoop_counts (predictions goldStandard : list Entity) :
  ∀ t,
    let t' := fold_left (goldStep predictions) goldStandard t in
    truePositives t'
    = (truePositives t + length (matchedGold predictions goldStandard))%nat
    ∧ (truePositives t' + falseNegatives t'
       = truePositives t + falseNegatives t + length goldStandard)%nat
    ∧ falsePositives t' = falsePositives t
    ∧ length (detailedResults t')
      = (length (detailedResults t) + length goldStandard)%nat.
Proof.
  induction goldStandard as [|gold goldStandard IH]; intros t; simpl.
  - repeat split; lia.
  - destruct (IH (goldStep predictions t gold)) as (H1 & H2 & H3 & H4).
    destruct (goldStep_counts predictions t gold) as (S1 & S2 & S3 & S4).
    destruct (existsb _ predictions); simpl; repeat split; lia.
Qed.

Lemma predStep_counts (goldStandard : list Entity) (t : Tally) (pred : Entity) :
  let t' := predStep goldStandard t pred in
  let miss := negb (hasMatch goldStandard pred) in
  truePositives t' = truePositives t
  ∧ falseNegatives t' = falseNegatives t
  ∧ falsePositives t' = (falsePositives t + (if miss then 1 else 0))%nat
  ∧ length (detailedResults t')
    = (length (detailedResults t) + (if miss then 1 else 0))%nat.
Proof.
  unfold predStep. destruct (hasMatch goldStandard pred); simpl;
    rewrite ?length_app; simpl; repeat split; lia.
Qed.

Lemma predLoop_counts (goldStandard predictions : list Entity) :
  ∀ t,
    let t' := fold_left (predStep goldStandard) predictions t in
    truePositives t' = truePositives t
    ∧ falseNegatives t' = falseNegatives t
    ∧ falsePositives t'
      = (falsePositives t + length (unmatched goldStandard predictions))%nat
    ∧ length (detailedResults t')
      = (length (detailedResults t)
         + length (unmatched goldStandard predictions))%nat.
Proof.
  induction predictions as [|pred predictions IH]; intros t; simpl.
  - repeat split; lia.
  - destruct (IH (predStep goldStandard t pred)) as (H1 & H2 & H3 & H4).
    destruct (predStep_counts goldStandard t pred) as (S1 & S2 & S3 & S4).
    destruct (hasMatch goldStandard pred); simpl in *; repeat split; lia.
Qed.

Lemma tally_counts (predictions goldStandard : list Entity) :
  let t := tally predictions goldStandard in
  truePositives t = length (matchedGold predictions goldStandard)
  ∧ (truePositives t + falseNegatives t)%nat = length goldStandard
  ∧ falsePositives t = length (unmatched goldStandard predictions)
  ∧ length (detailedResults t)
    = (length goldStandard + falsePositives t)%nat.
Proof.
  unfold tally.
  destruct (goldLoop_counts predictions goldStandard (mkTally 0 0 0 []))
    as (G1 & G2 & G3 & G4).
  destruct (predLoop_counts goldStandard predictions
              (fold_left (goldStep predictions) goldStandard
                 (mkTally 0 0 0 []))) as (P1 & P2 & P3 & P4).
  simpl in *. rewrite P1, P2, P3, P4, G1, G3, G4.
  rewrite G1 in G2. repeat split; lia.
Qed.

(** X7: the counters account for every entity: each gold entity is a
    true positive or a false negative, the false positives are the
    predictions that match no gold entity, [detailedResults] has one
    element per gold entity and one per false positive; hence the
    accuracy that the evaluation reports is always its recall. *)
Theorem counters_account_for_every_entity
    (predictions goldStandard : list Entity) :
  let t := tally predictions goldStandard in
  let m := fst (evaluateFinNIPredictions predictions goldStandard) in
  truePositives t = length (matchedGold predictions goldStandard)
  ∧ (truePositives t + falseNegatives t)%nat = length goldStandard
  ∧ falsePositives t = length (unmatched goldStandard predictions)
  ∧ length (snd (evaluateFinNIPredictions predictions goldStandard))
    = (length goldStandard + falsePositives t)%nat
  ∧ Metrics.accuracy m = Metrics.recall m.
Proof.
  intros t m.
  destruct (tally_counts predictions goldStandard) as (H1 & H2 & H3 & H4).
  split; [exact H1 |]. split; [exact H2 |]. split; [exact H3 |].
  split; [exact H4 |]. subst m t. unfold evaluateFinNIPredictions.
  cbn [fst Metrics.accuracy Metrics.recall]. by rewrite H2.
Qed.

Lemma filter_all {A} (f : A → bool) (l : list A) :
  Forall (λ x, f x = true) l → List.filter f l = l.
Proof. induction 1 as [|x l Hx _ IH]; simpl; [done |]. by rewrite Hx, IH. Qed.

Lemma filter_none {A} (f : A → bool) (l : list A) :
  Forall (λ x, f x = true) l → List.filter (λ x, negb (f x)) l = [].
Proof. induction 1 as [|x l Hx _ IH]; simpl; [done |]. by rewrite Hx. Qed.

(** X8: when every gold entity is matched by a prediction and every
    prediction matches a gold entity, precision, recall, F1 and
    accuracy are all exactly 1 (for a gold standard that is not empty;
    its length is below [2^53], as that of every array is). *)
Theorem perfect_predictions_score_one (predictions goldStandard : list Entity) :
  goldStandard ≠ [] →
  Z.of_nat (length goldStandard) < 2 ^ 53 →
  Forall (λ gold, existsb (λ pred, _isMatchingEntity pred gold) predictions
                  = true) goldStandard →
  Forall (λ pred, hasMatch goldStandard pred = true) predictions →
  fst (evaluateFinNIPredictions predictions goldStandard)
  = Metrics.mk one one one one.
Proof.
  intros Hne Hlen Hgold Hpred.
  destruct (tally_counts predictions goldStandard) as (H1 & H2 & H3 & _).
  rewrite (filter_all _ _ Hgold) in H1.
  rewrite (filter_none _ _ Hpred) in H3. simpl in H3.
  assert (Hfn : falseNegatives (tally predictions goldStandard) = 0%nat) by lia.
  unfold evaluateFinNIPredictions. cbn [fst].
  rewrite H1, H3, Hfn, Nat.add_0_r.
  assert (Hpos : (0 < length goldStandard)%nat)
    by (destruct goldStandard; [done | simpl; lia]).
  rewrite (div_count_self _ Hpos Hlen). reflexivity.
Qed.

End CounterFacts.

Module ConceptEvaluationFacts.
Import JS Evaluation ConceptEvaluation NumberFacts CountFacts CounterFacts.

Section Concepts.

Variables Pred Gold : Type.
Variable predConcept : Pred → option jsstring.
Variable goldConcept : Gold → option jsstring.

Local Abbreviation evaluate :=
  (evaluateFinCLPredictions Pred Gold predConcept goldConcept).
Local Abbreviation same := (sameConcept Pred Gold predConcept goldConcept).
Local Abbreviation step := (goldStep Pred Gold predConcept goldConcept).

(** The gold mappings whose concept some prediction carries. *)
Local Abbreviation found predictions :=
  (List.filter (λ gold, existsb (same gold) predictions)).

Lemma conceptLoop_counts (predictions : list Pred) (goldStandard : list Gold) :
  ∀ n details,
    fst (fold_left (step predictions) goldStandard (n, details))
    = (n + length (found predictions goldStandard))%nat
    ∧ length (snd (fold_left (step predictions) goldStandard (n, details)))
      = (length details + length goldStandard)%nat.
Proof.
  induction goldStandard as [|gold goldStandard IH]; intros n details; simpl.
  - split; lia.
  - rewrite find_existsb.
    destruct (List.find (same gold) predictions) as [pred |]; simpl.
    + destruct (IH (S n) (details ++ [mkDetail Pred Gold (js "correct") (Some pred) gold]))
        as [-> ->]. rewrite length_app. simpl. split; lia.
    + destruct (IH n (details ++ [mkDetail Pred Gold (js "incorrect") None gold]))
        as [-> ->]. rewrite length_app. simpl. split; lia.
Qed.

Lemma found_nil (goldStandard : list Gold) : found [] goldStandard = [].
Proof. induction goldStandard as [|g l IH]; [done |]. simpl. exact IH. Qed.

Lemma quotient_of_zero (n : nat) : orNum (div (ofNat 0) (ofNat n)) zero = zero.
Proof.
  destruct n as [|n]; [reflexivity |]. rewrite div_zero_count by lia. reflexivity.
Qed.

(** X9: the evaluation of the linking counts the gold mappings whose
    concept some prediction carries ([correctMappings]), and divides
    that count by the number of predictions for the precision and by
    the number of gold mappings for the recall and the accuracy; there
    is one detailed result per gold mapping; and when either list is
    empty every metric is 0. *)
Theorem concept_metrics_count_gold_mappings
    (predictions : list Pred) (goldStandard : list Gold) :
  let correct := length (found predictions goldStandard) in
  let m := fst (evaluate predictions goldStandard) in
  Metrics.precision m
  = orNum (div (ofNat correct) (ofNat (length predictions))) zero
  ∧ Metrics.recall m
    = orNum (div (ofNat correct) (ofNat (length goldStandard))) zero
  ∧ Metrics.accuracy m = Metrics.recall m
  ∧ (correct ≤ length goldStandard)%nat
  ∧ length (snd (evaluate predictions goldStandard)) = length goldStandard
  ∧ (predictions = [] ∨ goldStandard = [] →
     m = Metrics.mk zero zero zero zero).
Proof.
  intros correct m. subst m. unfold evaluateFinCLPredictions.
  destruct (conceptLoop_counts predictions goldStandard 0 []) as [Hn Hd].
  destruct (fold_left _ goldStandard _) as [n details]. simpl in Hn, Hd.
  subst n. fold correct. simpl.
  split; [done |]. split; [done |]. split; [done |].
  split; [apply List.filter_length_le |]. split; [done |].
  intros [-> | ->].
  - subst correct. rewrite found_nil. simpl length.
    rewrite !quotient_of_zero. reflexivity.
  - subst correct. simpl length. rewrite !quotient_of_zero. reflexivity.
Qed.

End Concepts.
End ConceptEvaluationFacts.

(* ================================================================= *)
(** * More properties of the linking *)

Module LinkingOutcomes.
Import JS Linking NumberFacts CountFacts LinkingFacts PipelineFacts Scenarios.

(** A batch of up to forty mappings for a batch of as many entities
    is not too short. *)
Lemma full_answer_accepted (len : nat) :
  (len ≤ BATCH_SIZE)%nat → tooFew len len = false.
Proof.
  unfold BATCH_SIZE. intros Hlen.
  assert (Hall : forallb (λ len, negb (tooFew len len)) (seq 0 41) = true)
    by (vm_compute; reflexivity).
  rewrite forallb_forall in Hall.
  assert (Hin : In len (seq 0 41)) by (apply in_seq; lia).
  apply Hall in Hin. by destruct (tooFew len len).
Qed.

Section Engine.

Variable toLowerCase : jsstring -> jsstring.
Variable linkingPrompt : list Entity -> jsstring.
Variable JSON_parse : jsstring -> result (option (list Mapping.t)).
Variable oracle : nat -> nat -> jsstring -> result jsstring.

Local Abbreviation attempt := (attemptBatch linkingPrompt JSON_parse oracle).
Local Abbreviation mappingsOf := (allMappings linkingPrompt JSON_parse oracle).
Local Abbreviation linked :=
  (linkedEntities toLowerCase linkingPrompt JSON_parse oracle).
Local Abbreviation contribution := (contribution linkingPrompt JSON_parse oracle).
Local Abbreviation finCL :=
  (processFinCL toLowerCase linkingPrompt JSON_parse oracle).

(** X10: the metrics of the linking stage at the ends of their range:
    with no entity all four are [NaN] (the quotient [0 / 0], which
    nothing replaces); with entities of which none got a tag they are
    0; with entities that all got a tag they are exactly 1. *)
Theorem linking_metrics_at_the_ends (env : Env) (reportId : jsstring)
    (entities : list Entity) :
  let data := finCL env reportId entities in
  let tagged :=
    length (List.filter (λ o, bool_decide (is_Some (Linked.xbrlTag o)))
              (linked env entities)) in
  (entities = [] → ResultData.metrics data = Metrics.mk NaN NaN NaN NaN)
  ∧ (entities ≠ [] → tagged = 0%nat →
     ResultData.metrics data = Metrics.mk zero zero zero zero)
  ∧ (entities ≠ [] → Z.of_nat (length entities) < 2 ^ 53 →
     tagged = length entities →
     ResultData.metrics data = Metrics.mk one one one one).
Proof.
  intros data tagged. subst data tagged. unfold processFinCL.
  cbn [ResultData.metrics].
  fold (@fmap list _ _ _ formatEntity).
  rewrite mappedCount_format, length_fmap, linked_length.
  split; [| split].
  - intros ->. unfold linkedEntities, linkConcepts.
    destruct (hasKey env); reflexivity.
  - intros Hne ->. rewrite div_zero_count; [done |].
    destruct entities; [done | simpl; lia].
  - intros Hne Hlen ->. rewrite div_count_self; [done | | done].
    destruct entities; [done | simpl; lia].
Qed.

(** *** When every batch is answered in full *)

(** The mapping the oracle is to write for the entity at the global
    index [i], numbered [k] in its batch. *)
Local Abbreviation written tagAt explAt :=
  (λ (i k : nat), Mapping.mk (Z.of_nat k) (Some (tagAt i)) (explAt i)).

Lemma imap_offset {A B} (f : nat → B) (l1 l2 : list A) (n : nat) :
  (l2 ≠ [] → length l1 = n) →
  imap (λ k _, f k) (l1 ++ l2)
  = imap (λ k _, f k) l1 ++ imap (λ k _, f (n + k)%nat) l2.
Proof.
  intros Hn. rewrite imap_app. f_equal. destruct l2 as [|x l2]; [done |].
  rewrite Hn by done. done.
Qed.

Lemma imap_batches {B} (f : nat → B) (l : list Entity) (start : nat) :
  imap (λ k _, f (start + k)%nat) l
  = imap (λ k _, f (start + k)%nat) (take BATCH_SIZE l)
    ++ imap (λ k _, f (start + BATCH_SIZE + k)%nat) (drop BATCH_SIZE l).
Proof.
  rewrite <- (take_drop BATCH_SIZE l) at 1.
  rewrite (imap_offset (λ k, f (start + k)%nat) _ _ BATCH_SIZE).
  - f_equal. apply imap_ext. intros k x _. cbv beta. f_equal. lia.
  - intros Hne. rewrite length_take.
    destruct (Nat.le_gt_cases BATCH_SIZE (length l)) as [H | H]; [lia |].
    exfalso. apply Hne. apply drop_ge. lia.
Qed.

Lemma contributions_in_order (entities : list Entity)
    (M : nat → Mapping.t) (fuel : nat) :
  ∀ start,
    (length entities - start ≤ fuel)%nat →
    (∀ b, b ∈ startsFrom fuel (length entities) start →
          contribution entities b
          = imap (λ k _, M (b + k)%nat) (batchOf entities b)) →
    flat_map (contribution entities) (startsFrom fuel (length entities) start)
    = imap (λ k _, M (start + k)%nat) (drop start entities).
Proof.
  induction fuel as [|fuel IH]; intros start Hfuel Hall; cbn [startsFrom] in *.
  - rewrite drop_ge by lia. done.
  - destruct (Nat.ltb_spec start (length entities)) as [Hlt | Hge].
    + cbn [flat_map]. rewrite Hall by (apply elem_of_cons; by left).
      rewrite IH.
      * rewrite batchOf_take, (imap_batches M (drop start entities) start).
        by rewrite drop_drop.
      * unfold BATCH_SIZE. lia.
      * intros b Hb. apply Hall, elem_of_cons. by right.
    + simpl. rewrite drop_ge by lia. done.
Qed.

Lemma find_numbered (M : nat → Mapping.t) (l : list Entity) :
  (∀ i, Mapping.entityId (M i) = Z.of_nat i) →
  ∀ start i, (start ≤ i < start + length l)%nat →
    List.find (λ m, Z.eqb (Mapping.entityId m) (Z.of_nat i))
      (imap (λ k _, M (start + k)%nat) l)
    = Some (M i).
Proof.
  intros Hid. induction l as [|x l IH]; intros start i Hi; simpl in Hi; [lia |].
  cbn [imap List.find]. rewrite Hid, Nat.add_0_r.
  destruct (Z.eqb_spec (Z.of_nat start) (Z.of_nat i)) as [Heq | Hne].
  - f_equal. f_equal. lia.
  - rewrite <- (IH (S start) i) by lia. f_equal. apply imap_ext.
    intros k y _. simpl. f_equal. lia.
Qed.

(** X11: when the first answer for every batch is complete and
    numbered from 0 in the order of the batch, with a tag for each
    entity, every entity gets the tag and the explanation that the
    oracle wrote for it, whatever the number of batches; no rule-based
    tag is used. *)
Theorem complete_answers_are_applied (env : Env) (entities : list Entity)
    (tagAt : nat → XbrlTag.t) (explAt : nat → option jsstring) :
  hasKey env = true →
  (∀ b, b ∈ batchStarts (length entities) →
     ∃ raw,
       oracle b 1 (linkingPrompt (batchOf entities b)) = Ok raw
       ∧ JSON_parse (Extraction.stripFences raw)
         = Ok (Some (imap (λ k _, Mapping.mk (Z.of_nat k)
                                     (Some (tagAt (b + k)%nat))
                                     (explAt (b + k)%nat))
                       (batchOf entities b)))) →
  linked env entities
  = imap (λ i entity, Linked.mk entity (Some (tagAt i)) (explAt i)) entities.
Proof.
  intros Hkey Hall.
  set (M := λ i, Mapping.mk (Z.of_nat i) (Some (tagAt i)) (explAt i)).
  assert (Hcontrib : ∀ b, b ∈ batchStarts (length entities) →
            contribution entities b
            = imap (λ k _, M (b + k)%nat) (batchOf entities b)).
  { intros b Hb. destruct (Hall b Hb) as (raw & Hraw & Hparsed).
    apply batchStarts_elem in Hb as [Hb _].
    unfold contribution, processBatch.
    change (MAX_RETRIES - 1)%nat with 2%nat. cbn [retryFrom].
    unfold attemptBatch. rewrite Hraw. cbn [bind]. rewrite Hparsed. cbn [bind].
    rewrite length_imap, full_answer_accepted
      by (apply batch_length; done). cbn [fst].
    fold (@fmap list _ _ _ (adjust b)). rewrite fmap_imap. apply imap_ext.
    intros k x _. unfold adjust, M. simpl. f_equal. lia. }
  assert (Hmaps : mappingsOf entities = imap (λ k _, M k) entities).
  { rewrite allMappings_flat. unfold batchStarts.
    rewrite (contributions_in_order entities M) by (done || lia). done. }
  unfold linkedEntities, linkConcepts. rewrite Hkey, Hmaps.
  apply imap_ext. intros i entity Hi. unfold applyMapping, mappingFor.
  pose proof (find_numbered M entities (λ _, eq_refl) 0 i) as Hfind.
  cbn [Nat.add] in Hfind. rewrite Hfind; [done |].
  apply lookup_lt_Some in Hi. lia.
Qed.

End Engine.
End LinkingOutcomes.

(* ================================================================= *)
(** * Properties of the store *)

Module StorageFacts.
Import JS LocalStorage NumberFacts LinkingFacts.

Lemma find_snoc {A} (f : A → bool) (l : list A) (x : A) :
  List.find f (l ++ [x])
  = match List.find f l with
    | Some y => Some y
    | None => if f x then Some x else None
    end.
Proof.
  induction l as [|y l IH]; simpl; [done |]. by destruct (f y).
Qed.

Lemma str_eqb_refl (a : jsstring) : str_eqb a a = true.
Proof. by apply str_eqb_eq. Qed.

Lemma str_eqb_neq (a b : jsstring) : a ≠ b → str_eqb a b = false.
Proof.
  intros H. destruct (str_eqb a b) eqn:E; [| done]. by apply str_eqb_eq in E.
Qed.

Lemma hasId_withId (report : Report) (id other : jsstring) (t : N) :
  hasId other (withId report id t) = str_eqb id other.
Proof. reflexivity. Qed.

(** [findIndex] finds the index of what [find] finds. *)
Lemma findIndex_find {A} (f : A → bool) (l : list A) :
  match findIndex f l with
  | Some i =>
      (∃ x, l !! i = Some x ∧ List.find f l = Some x ∧ f x = true)
      ∧ ∀ j y, (j < i)%nat → l !! j = Some y → f y = false
  | None => List.find f l = None
  end.
Proof.
  induction l as [|x l IH]; simpl; [done |].
  destruct (f x) eqn:Hx.
  - split; [by exists x |]. intros j y Hj. lia.
  - destruct (findIndex f l) as [i |]; simpl; [| done].
    destruct IH as [(z & Hz & Hfind & Hfz) Hbefore].
    split; [by exists z |]. intros [|j] y Hj Hy; simpl in Hy.
    + by injection Hy as <-.
    + apply (Hbefore j y); [lia | done].
Qed.

Lemma find_insert_other {A} (g : A → bool) (l : list A) (i : nat) (x x' : A) :
  l !! i = Some x → g x = false → g x' = false →
  List.find g (<[i := x']> l) = List.find g l.
Proof.
  revert i. induction l as [|y l IH]; intros [|i] Hi Hx Hx'; simpl in *;
    try done.
  - injection Hi as ->. by rewrite Hx, Hx'.
  - destruct (g y); [done |]. by apply IH.
Qed.

Lemma find_insert_first {A} (g : A → bool) (l : list A) (i : nat) (x' : A) :
  findIndex g l = Some i → g x' = true →
  List.find g (<[i := x']> l) = Some x'.
Proof.
  revert i. induction l as [|y l IH]; intros i Hi Hx'; simpl in *; [done |].
  destruct (g y) eqn:Hy.
  - injection Hi as <-. simpl. by rewrite Hx'.
  - destruct (findIndex g l) as [j |]; [| done]. injection Hi as <-. simpl.
    rewrite Hy. by apply IH.
Qed.

Section Store.

Variable Result : Type.
Variable reportIdOf : Result → option jsstring.

Local Abbreviation World := (LocalStorage.World Result).

(** *** The effect of each writing function *)

Lemma saveResult_frame (w : World) (result : Result) :
  reportsFile (fst (saveResult w result)) = reportsFile w
  ∧ writable (fst (saveResult w result)) = writable w
  ∧ clock (fst (saveResult w result)) = clock w
  ∧ ticks (fst (saveResult w result)) = S (S (ticks w)).
Proof. done. Qed.

Lemma saveResult_results (w : World) (result : Result) :
  writable w = true →
  readFile (resultsFile (fst (saveResult w result)))
  = readFile (resultsFile w)
    ++ [mkSaved result (decimal (clock w (ticks w))) (clock w (S (ticks w)))].
Proof. intros Hw. unfold saveResult. simpl. unfold writeFile. simpl. by rewrite Hw. Qed.

Lemma update_frame (w : World) (reportId status : jsstring) :
  resultsFile (fst (updateReportStatus w reportId status)) = resultsFile w
  ∧ writable (fst (updateReportStatus w reportId status)) = writable w.
Proof.
  unfold updateReportStatus. destruct (findIndex _ _) as [index |]; [| done].
  by destruct (_ !! index).
Qed.

Lemma update_found (w : World) (reportId status : jsstring) (report : Report) :
  getReport w reportId = Some report →
  ∃ index,
    findIndex (hasId reportId) (getAllReports w) = Some index
    ∧ getAllReports w !! index = Some report
    ∧ hasId reportId report = true
    ∧ updateReportStatus w reportId status
      = (setReports (snd (readClock w))
           (writeFile w (reportsFile w)
              (<[index := withStatus report status (clock w (ticks w))]>
                 (getAllReports w))),
         Some (withStatus report status (clock w (ticks w)))).
Proof.
  unfold getReport, getAllReports, updateReportStatus. intros Hget.
  pose proof (findIndex_find (hasId reportId) (readFile (reportsFile w)))
    as Hfind.
  destruct (findIndex _ _) as [index |]; [| congruence].
  destruct Hfind as [(r & Hlook & Hfound & Hid) _].
  assert (r = report) as -> by congruence.
  exists index. rewrite Hlook. done.
Qed.

Lemma update_sets_status (w : World) (reportId status : jsstring)
    (report : Report) :
  writable w = true → getReport w reportId = Some report →
  getReport (fst (updateReportStatus w reportId status)) reportId
  = Some (withStatus report status (clock w (ticks w))).
Proof.
  intros Hw Hget.
  destruct (update_found w reportId status report Hget)
    as (index & Hindex & Hlook & Hid & ->).
  unfold getReport, writeFile. simpl. rewrite Hw. simpl.
  by apply find_insert_first.
Qed.

(** X12: [saveReport] returns the report with the decimal reading of
    the clock as its id, whether or not it could write it.  When the
    write succeeds the report is appended and the results are left
    alone; a report found under another id is found as before; and
    [getReport] of the new id returns the new report unless an older
    report has the same id (a save within the same millisecond), which
    it then returns.  When the write fails nothing is reported and the
    files are as before. *)
Theorem saved_report_is_appended (w : World) (report : Report) :
  let w' := fst (saveReport w report) in
  let newReport := snd (saveReport w report) in
  let id := decimal (clock w (ticks w)) in
  newReport = withId report id (clock w (S (ticks w)))
  ∧ resultsFile w' = resultsFile w
  ∧ (writable w = true →
     getAllReports w' = getAllReports w ++ [newReport]
     ∧ (∀ other, other ≠ id → getReport w' other = getReport w other)
     ∧ getReport w' id = Some (default newReport (getReport w id)))
  ∧ (writable w = false →
     reportsFile w' = reportsFile w
     ∧ ∀ other, getReport w' other = getReport w other).
Proof.
  intros w' newReport id. subst w' newReport id.
  unfold saveReport, getReport, getAllReports. simpl.
  split; [done |]. split; [done |]. split.
  - intros ->. simpl. split; [done |]. split.
    + intros other Hne. rewrite find_snoc, hasId_withId, str_eqb_neq by done.
      by destruct (List.find _ _).
    + rewrite find_snoc, hasId_withId, str_eqb_refl.
      by destruct (List.find _ _).
  - intros ->. done.
Qed.

(** X13: [updateReportStatus] on an id that no report has returns
    [null] and leaves the store as it is, without a reading of the
    clock.  Otherwise it returns the first report with that id, with
    the new status and the time of the update; when the write succeeds
    that report takes the place of the old one: the number and the
    order of the reports are kept, the report is what [getReport]
    returns for the id, and the reports found under other ids are
    found as before. *)
Theorem status_update_replaces_first_report (w : World)
    (reportId status : jsstring) :
  let w' := fst (updateReportStatus w reportId status) in
  match getReport w reportId with
  | None => updateReportStatus w reportId status = (w, None)
  | Some report =>
      let updated := withStatus report status (clock w (ticks w)) in
      snd (updateReportStatus w reportId status) = Some updated
      ∧ resultsFile w' = resultsFile w
      ∧ (writable w = true →
         (∃ index,
            getAllReports w !! index = Some report
            ∧ getAllReports w' = <[index := updated]> (getAllReports w))
         ∧ length (getAllReports w') = length (getAllReports w)
         ∧ getReport w' reportId = Some updated
         ∧ ∀ other, other ≠ reportId →
             getReport w' other = getReport w other)
  end.
Proof.
  intros w'. subst w'. unfold updateReportStatus, getReport, getAllReports.
  pose proof (findIndex_find (hasId reportId) (readFile (reportsFile w)))
    as Hfind.
  destruct (findIndex _ _) as [index |] eqn:Hindex; [| by rewrite Hfind].
  destruct Hfind as [(report & Hlook & -> & Hid) _]. rewrite Hlook. simpl.
  split; [done |]. split; [done |]. intros ->. simpl.
  split; [by exists index |]. split; [by rewrite length_insert |]. split.
  - by apply find_insert_first.
  - intros other Hne. apply (find_insert_other _ _ _ report); [done | |].
    + unfold hasId in *. destruct (id report) as [i |]; [| done].
      apply str_eqb_eq in Hid as ->. by apply str_eqb_neq.
    + unfold hasId in *. simpl. destruct (id report) as [i |]; [| done].
      apply str_eqb_eq in Hid as ->. by apply str_eqb_neq.
Qed.

Lemma filter_snoc {A} (f : A → bool) (l : list A) (x : A) :
  List.filter f (l ++ [x]) = List.filter f l ++ (if f x then [x] else []).
Proof. rewrite List.filter_app. simpl. by destruct (f x). Qed.

(** X14: [saveResult] returns the result with the decimal reading of
    the clock as its id; when the write succeeds the result is
    appended, so the results of its report are those there were,
    followed by it, the results of every other report are as before,
    and no report changes. *)
Theorem saved_result_joins_its_report (w : World) (result : Result) :
  let w' := fst (saveResult w result) in
  let newResult := snd (saveResult w result) in
  newResult
  = mkSaved result (decimal (clock w (ticks w))) (clock w (S (ticks w)))
  ∧ reportsFile w' = reportsFile w
  ∧ (writable w = true →
     ∀ reportId,
       getResultsByReportId reportIdOf w' reportId
       = getResultsByReportId reportIdOf w reportId
         ++ (if bool_decide (reportIdOf result = Some reportId)
             then [newResult] else [])).
Proof.
  intros w' newResult. subst w' newResult.
  unfold saveResult, getResultsByReportId. simpl.
  split; [done |]. split; [done |]. intros -> reportId. simpl.
  rewrite filter_snoc. f_equal. unfold ofReport. simpl.
  destruct (reportIdOf result) as [r |]; simpl.
  - case_bool_decide as Heq.
    + injection Heq as ->. by rewrite str_eqb_refl.
    + rewrite str_eqb_neq; [done |]. by intros ->.
  - done.
Qed.

(** *** Ids and the clock *)

Lemma js_inj (a b : string) : js a = js b → a = b.
Proof.
  assert (Hback : ∀ l, List.map ascii_of_N (List.map N_of_ascii l) = l).
  { induction l as [|c l IH]; simpl; [done |].
    by rewrite ascii_N_embedding, IH. }
  unfold js. intros H. apply (f_equal (List.map ascii_of_N)) in H.
  rewrite !Hback in H. apply (f_equal string_of_list_ascii) in H.
  by rewrite !string_of_list_ascii_of_string in H.
Qed.

Lemma to_uint_nonnil (n : N) : N.to_uint n ≠ Decimal.Nil.
Proof.
  destruct n as [|p]; [done |]. simpl.
  apply DecimalPos.Unsigned.to_uint_nonnil.
Qed.

(** Two readings of the clock with the same decimal form are the
    same. *)
Lemma decimal_inj (a b : N) : decimal a = decimal b → a = b.
Proof.
  unfold decimal. intros H%js_inj.
  apply (f_equal NilZero.uint_of_string) in H.
  rewrite !NilZero.usu in H by apply to_uint_nonnil.
  injection H as H. by apply DecimalN.Unsigned.to_uint_inj.
Qed.

Lemma stamped_later (w w' : World) :
  getAllReports w' = getAllReports w → clock w' = clock w →
  (ticks w ≤ ticks w')%nat → stamped w → stamped w'.
Proof.
  intros Hr Hc Ht Hs report Hin. rewrite Hr in Hin.
  destruct (Hs report Hin) as (k & Hk & Hid). exists k. rewrite Hc.
  split; [lia | done].
Qed.

(** X15: the ids of the stored reports are decimal readings of the
    clock made earlier, and the three writing functions keep it so;
    hence, on a clock that never gives the same reading twice, a
    report that [saveReport] writes is the one that [getReport] returns
    for its id. *)
Theorem ids_come_from_the_clock (w : World) (report : Report) :
  stamped w →
  stamped (fst (saveReport w report))
  ∧ (∀ result, stamped (fst (saveResult w result)))
  ∧ (∀ reportId status,
       stamped (fst (updateReportStatus w reportId status)))
  ∧ ((∀ i j, clock w i = clock w j → i = j) → writable w = true →
     getReport (fst (saveReport w report)) (decimal (clock w (ticks w)))
     = Some (snd (saveReport w report))).
Proof.
  intros Hs. split; [| split; [| split]].
  - intros r Hin. unfold saveReport, getAllReports in Hin. simpl in Hin.
    unfold writeFile in Hin. simpl in Hin.
    destruct (writable w); simpl in Hin.
    + apply elem_of_app in Hin as [Hin | Hin].
      * destruct (Hs r Hin) as (k & Hk & Hid). exists k. simpl.
        split; [lia | done].
      * apply list_elem_of_singleton in Hin as ->. exists (ticks w). simpl.
        split; [lia | done].
    + destruct (Hs r Hin) as (k & Hk & Hid). exists k. simpl.
      split; [lia | done].
  - intros result. apply (stamped_later w); try done. simpl. lia.
  - intros reportId status. unfold updateReportStatus.
    pose proof (findIndex_find (hasId reportId) (readFile (reportsFile w)))
      as Hfind.
    destruct (findIndex _ _) as [index |]; [| done].
    destruct Hfind as [(old & Hlook & _ & _) _]. rewrite Hlook. simpl.
    intros r Hin. unfold getAllReports, writeFile in Hin. simpl in Hin.
    destruct (writable w); simpl in Hin.
    + apply list_elem_of_lookup in Hin as [j Hj].
      destruct (decide (j = index)) as [-> | Hne].
      * rewrite list_lookup_insert_eq in Hj
          by (by apply lookup_lt_Some in Hlook).
        injection Hj as <-.
        destruct (Hs old) as (k & Hk & Hid);
          [by apply list_elem_of_lookup_2 in Hlook |].
        exists k. simpl. split; [lia | done].
      * rewrite list_lookup_insert_ne in Hj by done.
        destruct (Hs r) as (k & Hk & Hid);
          [by apply list_elem_of_lookup_2 in Hj |].
        exists k. simpl. split; [lia | done].
    + destruct (Hs r Hin) as (k & Hk & Hid). exists k. simpl.
      split; [lia | done].
  - intros Hclock Hw. unfold saveReport, getReport. simpl. rewrite Hw. simpl.
    rewrite find_snoc, hasId_withId, str_eqb_refl.
    rewrite find_none_all; [done |]. intros r Hin.
    destruct (Hs r Hin) as (k & Hk & Hid). unfold hasId. rewrite Hid.
    apply str_eqb_neq. intros Heq%decimal_inj. apply Hclock in Heq. lia.
Qed.

End Store.
End StorageFacts.

(* ================================================================= *)
(** * Properties of the handlers *)

Module ServerFacts.
Import JS Extraction Linking LocalStorage Server NumberFacts StorageFacts.

Section Handlers.

Variable toLowerCase : jsstring -> jsstring.
Variable numberToString : number -> jsstring.
Variable parseEntities : jsstring -> result (option (list Raw.element)).
Variables promptHead promptTail : jsstring.
Variable extractionOracle : nat -> jsstring -> result jsstring.
Variable linkingPrompt : list Entity -> jsstring.
Variable parseMappings : jsstring -> result (option (list Mapping.t)).
Variable linkingOracle : nat -> nat -> jsstring -> result jsstring.
Variable env : Env.
Variable extractText : option jsstring -> jsstring.
Variable postFinCL : World -> jsstring -> list Entity -> World.

Local Abbreviation identify :=
  (identifyNumericEntities toLowerCase numberToString parseEntities promptHead promptTail
     extractionOracle env).
Local Abbreviation linkedData :=
  (Linking.processFinCL toLowerCase linkingPrompt parseMappings linkingOracle
     env).
Local Abbreviation finCL :=
  (Server.processFinCL toLowerCase linkingPrompt parseMappings linkingOracle
     env).
Local Abbreviation finNI :=
  (Server.processFinNI toLowerCase numberToString parseEntities promptHead promptTail
     extractionOracle env extractText postFinCL).
Local Abbreviation resultsOf := (getResultsByReportId reportIdOf).

Local Abbreviation servedOrLost :=
  (Server.servedOrLost toLowerCase linkingPrompt parseMappings linkingOracle
     env postFinCL).

Lemma ofReport_stage (reportId : jsstring) (result : ResultData.t)
    (id : jsstring) (t : N) :
  ResultData.reportId result = reportId →
  ofReport reportIdOf reportId (mkSaved result id t) = true.
Proof. intros <-. unfold ofReport, reportIdOf. simpl. apply str_eqb_refl. Qed.

(** The store after a request for a report that exists. *)
Lemma finNI_served (w : World) (reportId : jsstring) (report : Report) :
  servedOrLost → getReport w reportId = Some report →
  ∃ entities,
    identify (extractText (fileUrl report)) = Ok entities
    ∧ snd (finNI w reportId) = Status200 (finniResultData reportId entities)
    ∧ (writable w = true →
       let w' := fst (finNI w reportId) in
       ∃ saved more updatedAt,
         data saved = finniResultData reportId entities
         ∧ resultsOf w' reportId = resultsOf w reportId ++ saved :: more
         ∧ (more = []
            ∨ ∃ linked, more = [linked]
                ∧ data linked = linkedData reportId entities)
         ∧ getReport w' reportId
           = Some (withStatus report (js "completed") updatedAt)).
Proof.
  intros Hpost Hget.
  destruct (ExtractionFacts.identify_total toLowerCase numberToString parseEntities promptHead
              promptTail extractionOracle env (extractText (fileUrl report)))
    as [entities Hid].
  exists entities. split; [done |]. unfold Server.processFinNI.
  rewrite Hget, Hid.
  set (data1 := finniResultData reportId entities).
  destruct (saveResult w data1) as [w1 saved] eqn:Hsave.
  set (w2 := postFinCL w1 reportId entities).
  destruct (updateReportStatus w2 reportId (js "completed")) as [w3 r] eqn:Hup.
  split; [done |]. intros Hw. cbn [fst].
  pose proof (saveResult_frame _ w data1) as (Hr1 & Hw1 & _).
  pose proof (saveResult_results _ w data1 Hw) as Hres1.
  rewrite Hsave in Hr1, Hw1, Hres1. cbn [fst] in Hr1, Hw1, Hres1.
  assert (H2 : reportsFile w2 = reportsFile w ∧ writable w2 = true
               ∧ ∃ more, readFile (resultsFile w2)
                         = readFile (resultsFile w1) ++ more
                   ∧ (more = []
                      ∨ ∃ linked, more = [linked]
                          ∧ data linked = linkedData reportId entities)).
  { subst w2. destruct (Hpost w1 reportId entities) as [-> | ->].
    - split; [done |]. split; [congruence |]. exists []. rewrite app_nil_r. auto.
    - unfold Server.processFinCL.
      pose proof (saveResult_frame _ w1 (linkedData reportId entities))
        as (Hr2 & Hw2 & _).
      pose proof (saveResult_results _ w1 (linkedData reportId entities))
        as Hres2.
      destruct (saveResult w1 _) as [w2 linked]. cbn [fst] in *.
      split; [congruence |]. split; [congruence |].
      eexists. split; [apply Hres2; congruence |]. right. eauto. }
  destruct H2 as (Hr2 & Hw2 & more & Hres2 & Hmore).
  assert (Hget2 : getReport w2 reportId = Some report)
    by (unfold getReport in *; by rewrite Hr2).
  pose proof (update_frame _ w2 reportId (js "completed")) as [Hres3 _].
  pose proof (update_sets_status _ w2 reportId (js "completed") report Hw2 Hget2)
    as Hget3.
  rewrite Hup in Hres3, Hget3. cbn [fst] in Hres3, Hget3.
  exists (mkSaved data1 (decimal (clock w (ticks w))) (clock w (S (ticks w)))),
    (List.filter (ofReport reportIdOf reportId) more), (clock w2 (ticks w2)).
  split; [done |]. split; [| split; [| done]].
  - unfold getResultsByReportId. rewrite Hres3, Hres2, Hres1.
    rewrite !List.filter_app. simpl.
    rewrite ofReport_stage by done. by rewrite <- app_assoc.
  - destruct Hmore as [-> | (linked & -> & Hl)]; [by left |]. right.
    exists linked. split; [| done]. simpl.
    destruct linked as [d i t]. simpl in Hl. subst d.
    by rewrite ofReport_stage.
Qed.

(** X16: a request to the extraction route for an id that no report
    has is answered 404 and leaves the store as it is.  For a report
    that exists it is answered 200 with the record of the extraction
    over the text of the file (never 500); when the writes succeed,
    the results of the report are those there were, then this record,
    then the record of the linking when the request to the linking
    route got through, and the report is marked completed. *)
Theorem extraction_request_is_recorded (w : World) (reportId : jsstring) :
  servedOrLost →
  match getReport w reportId with
  | None => finNI w reportId = (w, Status404)
  | Some report =>
      ∃ entities,
        identify (extractText (fileUrl report)) = Ok entities
        ∧ snd (finNI w reportId)
          = Status200 (finniResultData reportId entities)
        ∧ (writable w = true →
           let w' := fst (finNI w reportId) in
           ∃ saved more,
             data saved = finniResultData reportId entities
             ∧ resultsOf w' reportId = resultsOf w reportId ++ saved :: more
             ∧ (more = []
                ∨ ∃ linked, more = [linked]
                    ∧ data linked = linkedData reportId entities)
             ∧ status <$> getReport w' reportId = Some (Some (js "completed")))
  end.
Proof.
  intros Hpost. destruct (getReport w reportId) as [report |] eqn:Hget.
  - destruct (finNI_served w reportId report Hpost Hget)
      as (entities & Hid & Hans & Hstore).
    exists entities. split; [done |]. split; [done |]. intros Hw.
    destruct (Hstore Hw) as (saved & more & t & Hd & Hres & Hmore & Hrep).
    exists saved, more. cbv zeta. rewrite Hrep. done.
  - unfold Server.processFinNI. by rewrite Hget.
Qed.

(** X17: once the extraction route has served a request for a report,
    the status route answers for that report with the status
    [completed], its message, and the results of the report, which are
    not empty. *)
Theorem status_after_extraction (w : World) (reportId : jsstring)
    (report : Report) :
  servedOrLost → writable w = true → getReport w reportId = Some report →
  let w' := fst (finNI w reportId) in
  resultsOf w' reportId ≠ []
  ∧ statusRoute w' reportId
    = StatusFound
        {| reportStatus := Some (js "completed");
           results := Some (resultsOf w' reportId);
           message := js "Processing completed successfully" |}.
Proof.
  intros Hpost Hw Hget w'. subst w'.
  destruct (finNI_served w reportId report Hpost Hget)
    as (entities & _ & _ & Hstore).
  destruct (Hstore Hw) as (saved & more & t & _ & Hres & _ & Hrep).
  cbv zeta in Hres, Hrep.
  assert (Hne : resultsOf (fst (finNI w reportId)) reportId ≠ []).
  { rewrite Hres. by destruct (resultsOf w reportId). }
  split; [exact Hne |]. unfold statusRoute. rewrite Hrep.
  destruct (resultsOf (fst (finNI w reportId)) reportId); [done |].
  reflexivity.
Qed.

(** *** The upload *)

Variable fileTypeOf : jsstring -> jsstring.
Variable postFinNI : World -> jsstring -> World * result Reply.

Local Abbreviation upload := (uploadFile fileTypeOf postFinNI).

(** X18: when the request to the extraction route returns,
    [uploadFile] saves the report a second time: the store gets one
    more report, a copy with the status [processing] under an id of
    its own, while the report under the id that the answer carries is
    the one the request left there.  The answer shows the status
    [processing] under the first id, which the store never holds for
    it. *)
Theorem upload_saves_the_report_twice (w w2 : World) (file : UploadedFile)
    (body : Metadata) (reply : Reply) :
  let saved := snd (saveReport w (reportDataOf fileTypeOf file body)) in
  let id := decimal (clock w (ticks w)) in
  let answered := setStatus saved (js "processing") in
  postFinNI (fst (saveReport w (reportDataOf fileTypeOf file body))) id
  = (w2, Ok reply) →
  writable w2 = true →
  let w3 := fst (upload w (Some file) body) in
  (∃ warning, snd (upload w (Some file) body) = Upload200 answered warning)
  ∧ LocalStorage.id answered = Some id
  ∧ getAllReports w3
    = getAllReports w2
      ++ [withId answered (decimal (clock w2 (ticks w2)))
            (clock w2 (S (ticks w2)))]
  ∧ (∀ report, getReport w2 id = Some report →
               getReport w3 id = Some report
               ∧ (status report ≠ Some (js "processing") →
                  status <$> getReport w3 id ≠ Some (status answered))).
Proof.
  intros saved id answered Hpost Hw w3. subst saved id answered w3.
  unfold uploadFile.
  destruct (saveReport w (reportDataOf fileTypeOf file body)) as [w1 saved]
    eqn:Hsave.
  assert (Hid : LocalStorage.id saved = Some (decimal (clock w (ticks w)))).
  { unfold saveReport in Hsave. simpl in Hsave. by injection Hsave as _ <-. }
  cbn [fst snd] in *. rewrite Hid.
  change (default [] (Some (decimal (clock w (ticks w)))))
    with (decimal (clock w (ticks w))).
  rewrite Hpost.
  assert (Hfinal :
    getAllReports (fst (saveReport w2 (setStatus saved (js "processing"))))
    = getAllReports w2
      ++ [withId (setStatus saved (js "processing"))
            (decimal (clock w2 (ticks w2))) (clock w2 (S (ticks w2)))]).
  { unfold saveReport, getAllReports, writeFile. simpl. by rewrite Hw. }
  destruct (saveReport w2 (setStatus saved (js "processing"))) as [w3 copy].
  cbn [fst] in Hfinal.
  assert (Hworld : ∀ (a b : UploadResponse),
            fst (match success reply with
                 | Some false => (w3, a)
                 | _ => (w3, b)
                 end) = w3) by (intros; by destruct (success reply) as [[|]|]).
  rewrite Hworld. split; [| split; [done | split; [done |]]].
  - destruct (success reply) as [[|]|]; eauto.
  - intros report Hget.
    assert (Hget3 : getReport w3 (decimal (clock w (ticks w))) = Some report).
    { unfold getReport, getAllReports in *. rewrite Hfinal, find_snoc.
      by rewrite Hget. }
    split; [done |]. rewrite Hget3. simpl. congruence.
Qed.

End Handlers.
End ServerFacts.

(* ================================================================= *)
(** ** The theorems on concrete runs *)

Module CaseFacts.
Import JS Extraction Linking Evaluation LocalStorage Server Scenarios Cases.

(** X1: a sentence without a digit. *)
Lemma no_digit_no_entity_witness : ruleBasedNumericExtraction proseText = [].
Proof.
  apply (ExtractorOutput.no_digit_no_entity proseText).
  unfold proseText. simpl. repeat constructor.
Defined.


(** X4: the oracle answers the first call with a JSON text whose only
    entity is [null]; the result is the local extraction. *)
Lemma oracle_answer_is_post_processed_witness :
  identifyNumericEntities asciiLower integerText readEntities
    (js "Analyze: ") [] nullOracle keyEnv scenarioText
  = Ok (ruleBasedNumericExtraction scenarioText).
Proof.
  destruct (OracleCalls.oracle_answer_is_post_processed asciiLower
              integerText readEntities (js "Analyze: ") [] nullOracle keyEnv
              scenarioText nullJSON)
    as (elements & Hparse & _ & _ & Hbad).
  - reflexivity.
  - vm_compute. reflexivity.
  - vm_compute. reflexivity.
  - apply Hbad. left.
    assert (Hread : readEntities nullJSON = Ok (Some [Raw.null]))
      by (vm_compute; reflexivity).
    rewrite Hread in Hparse. injection Hparse as <-. by left.
Defined.

(** X5: an array between blanks. *)
Lemma unfenced_response_is_trimmed_witness :
  stripFences (js "  [1, 2] ") = trim (js "  [1, 2] ").
Proof.
  apply (FenceFacts.unfenced_response_is_trimmed (js "  [1, 2] ")).
  simpl. intros H. repeat (apply elem_of_cons in H as [H | H]; [done |]).
  by apply elem_of_nil in H.
Defined.

(** X6: the fenced response of the extraction oracle. *)
Lemma fenced_response_is_unwrapped_witness :
  stripFences fencedJSON = entitiesJSON.
Proof.
  apply (FenceFacts.fenced_response_is_unwrapped entitiesJSON).
  - vm_compute. reflexivity.
  - vm_compute. reflexivity.
Defined.

(** X8: the two gold entities, predicted in the other order. *)
Lemma perfect_predictions_score_one_witness :
  fst (evaluateFinNIPredictions predPair goldPair) = Metrics.mk one one one one.
Proof.
  apply (CounterFacts.perfect_predictions_score_one predPair goldPair).
  - discriminate.
  - reflexivity.
  - repeat constructor; vm_compute; reflexivity.
  - repeat constructor; vm_compute; reflexivity.
Defined.

(** X11: two batches of forty, both answered in full at the first
    attempt. *)
Lemma complete_answers_are_applied_witness :
  linkedEntities asciiLower anyPrompt readMappings everyBatch keyEnv entities80
  = imap (λ i entity, Linked.mk entity (Some assetsTag)
                        (Some (js "Balance sheet total"))) entities80.
Proof.
  apply (LinkingOutcomes.complete_answers_are_applied asciiLower anyPrompt
           readMappings everyBatch keyEnv entities80 (λ _, assetsTag)
           (λ _, Some (js "Balance sheet total"))).
  - reflexivity.
  - intros b Hb. exists (responseFrom 0). split; [reflexivity |].
    apply list_elem_of_In in Hb. vm_compute in Hb.
    destruct Hb as [<- | [<- | []]]; vm_compute; reflexivity.
Defined.

Lemma Ok_inj {A} (a b : A) : Ok a = Ok b → a = b.
Proof. by intros [= ->]. Qed.

Lemma oneReport_stamped : stamped oneReport.
Proof.
  intros report Hin. apply list_elem_of_In in Hin. simpl in Hin.
  destruct Hin as [<- | []]. exists 0%nat. split; [simpl; lia | reflexivity].
Qed.

(** X15: a second report saved to the store that holds one. *)
Lemma ids_come_from_the_clock_witness :
  stamped (fst (saveReport oneReport (reportDataOf pdfType pdfFile formFields)))
  ∧ getReport
      (fst (saveReport oneReport (reportDataOf pdfType pdfFile formFields)))
      (decimal (clock oneReport (ticks oneReport)))
    = Some (snd (saveReport oneReport
                   (reportDataOf pdfType pdfFile formFields))).
Proof.
  destruct (StorageFacts.ids_come_from_the_clock ResultData.t oneReport
              (reportDataOf pdfType pdfFile formFields) oneReport_stamped)
    as (Hstamped & _ & _ & Hget).
  split; [exact Hstamped |]. apply Hget; [| reflexivity].
  intros i j H. simpl in H. lia.
Defined.

Lemma linkingRoute_served :
  servedOrLost asciiLower anyPrompt readMappings everyBatch noKeyEnv
    linkingRoute.
Proof. intros w reportId entities. right. reflexivity. Qed.

(** X16: the extraction route on the store with one report, the
    request to the linking route getting through. *)
Lemma extraction_request_is_recorded_witness :
  snd (extractionRoute oneReport firstId)
  = Status200 (finniResultData firstId
                 (ruleBasedNumericExtraction scenarioText))
  ∧ length (getResultsByReportId reportIdOf
              (fst (extractionRoute oneReport firstId)) firstId) = 2%nat
  ∧ status <$> getReport (fst (extractionRoute oneReport firstId)) firstId
    = Some (Some (js "completed")).
Proof.
  pose proof (ServerFacts.extraction_request_is_recorded asciiLower integerText rejectAll
                (js "Analyze: ") [] proseOracle anyPrompt readMappings
                everyBatch noKeyEnv scenarioFile linkingRoute oneReport
                firstId linkingRoute_served) as H.
  assert (Hget : getReport oneReport firstId
                 = Some (snd (saveReport emptyStore
                                (reportDataOf pdfType pdfFile formFields))))
    by (vm_compute; reflexivity).
  rewrite Hget in H. destruct H as (entities & Hid & Hanswer & Hstore).
  change (scenarioFile _) with scenarioText in Hid.
  assert (Hlocal :
    identifyNumericEntities asciiLower integerText rejectAll (js "Analyze: ") []
      proseOracle noKeyEnv scenarioText
    = Ok (ruleBasedNumericExtraction scenarioText)) by reflexivity.
  rewrite Hlocal in Hid. apply Ok_inj in Hid as <-.
  split; [exact Hanswer |].
  destruct (Hstore eq_refl) as (saved & more & _ & Hresults & Hmore & Hstatus).
  split; [| exact Hstatus].
  fold (extractionRoute oneReport firstId) in Hresults. rewrite Hresults.
  destruct Hmore as [-> | (linked & -> & _)].
  - exfalso. apply (f_equal (@length _)) in Hresults.
    vm_compute in Hresults. discriminate.
  - reflexivity.
Defined.

(** X17: the status route after that request. *)
Lemma status_after_extraction_witness :
  statusRoute (fst (extractionRoute oneReport firstId)) firstId
  = StatusFound
      {| reportStatus := Some (js "completed");
         results := Some (getResultsByReportId reportIdOf
                            (fst (extractionRoute oneReport firstId)) firstId);
         message := js "Processing completed successfully" |}.
Proof.
  apply (ServerFacts.status_after_extraction asciiLower integerText rejectAll
           (js "Analyze: ") [] proseOracle anyPrompt readMappings everyBatch
           noKeyEnv scenarioFile linkingRoute oneReport firstId
           (snd (saveReport emptyStore
                   (reportDataOf pdfType pdfFile formFields)))
           linkingRoute_served).
  - reflexivity.
  - vm_compute. reflexivity.
Defined.

(** X18: an upload to the empty store; the extraction route marks the
    report completed, and the store ends with two reports. *)
Lemma upload_saves_the_report_twice_witness :
  let w3 := fst (uploadFile pdfType requestFinNI emptyStore (Some pdfFile)
                   formFields) in
  (status <$> getAllReports w3)
  = [Some (js "completed"); Some (js "processing")]
  ∧ status <$> getReport w3 firstId = Some (Some (js "completed")).
Proof.
  intros w3.
  destruct (ServerFacts.upload_saves_the_report_twice pdfType requestFinNI
              emptyStore (fst (extractionRoute oneReport firstId)) pdfFile
              formFields
              {| success := Some true;
                 replyMessage := Some (js "FinNI processing completed") |})
    as (_ & _ & Hall & Hsame).
  - vm_compute. reflexivity.
  - vm_compute. reflexivity.
  - fold w3 in Hall, Hsame. split.
    + rewrite Hall. vm_compute. reflexivity.
    + destruct (getReport (fst (extractionRoute oneReport firstId)) firstId)
        as [report |] eqn:Hget; [| vm_compute in Hget; discriminate].
      destruct (Hsame report Hget) as [Hthird _].
      change firstId with (decimal (clock emptyStore (ticks emptyStore))).
      rewrite Hthird, <- Hget. vm_compute. reflexivity.
Defined.

End CaseFacts.
